(** * Kirchhoff-and-TSP-circuit-simulator: the two solver cores

    A shallow embedding of [src/tsp_algorithms.py] ([TSPSolver]) and of
    [KirchhoffSimulator.calculate_circuit] from [src/kirchhoff_module.py],
    followed by the properties of the specification that concern them.

    Conventions of the embedding.
    - Python floats are idealised as exact rationals ([Q]); [float('inf')]
      is the extra value [Inf] of [weight].  Sums of such weights neither
      round nor overflow, so the properties proved on them are those that
      compare costs or add weights in the order the program adds them.
      Where the order of the additions matters, the cost of a tour is
      taken with the arithmetic as a parameter
      ([calculate_path_cost_in]), binary64 included.
    - A [City] object is compared and hashed by identity; the embedding
      uses a natural number as that identity.
    - The iteration order of a Python [set] of such objects is not fixed
      by the program.  It is an input of the model: the elements are
      enumerated by increasing value of an arbitrary key [h].
    - A Python exception is a value [Raise e]; a loop whose bound the
      model makes explicit reports [OutOfFuel] when the bound is hit. *)

From Stdlib Require Import QArith Qabs Lia Lqa List Permutation PrimFloat.
From stdpp Require Import base list gmap sorting.

Set Default Proof Using "Type".
Set Warnings "-inexact-float".

(** ** Results of Python calls *)

Inductive exn : Set :=
  | KeyError | IndexError | TypeError | AttributeError
  | ValueError | ZeroDivisionError.

Inductive result (A : Type) : Type :=
  | Ok (a : A)
  | Raise (e : exn)
  | OutOfFuel.
Arguments Ok {A} a.
Arguments Raise {A} e.
Arguments OutOfFuel {A}.

Definition rbind {A B} (m : result A) (k : A → result B) : result B :=
  match m with
  | Ok a => k a
  | Raise e => Raise e
  | OutOfFuel => OutOfFuel
  end.

Notation "'do' x <- m ; k" := (rbind m (λ x, k))
  (at level 10, x pattern, m at level 100, k at level 200).

(** ** Numbers: rationals and the unreachable weight *)

Definition Qltb (x y : Q) : bool := negb (Qle_bool y x).

Inductive weight : Set :=
  | Fin (q : Q)
  | Inf.

Definition wadd (a b : weight) : weight :=
  match a, b with
  | Fin x, Fin y => Fin (x + y)
  | _, _ => Inf
  end.

(** [a < b] on floats, with [inf < inf] false. *)
Definition wltb (a b : weight) : bool :=
  match a, b with
  | Fin x, Fin y => Qltb x y
  | Fin _, Inf => true
  | Inf, _ => false
  end.

(** [a == float('inf')] *)
Definition is_inf (a : weight) : bool :=
  match a with Inf => true | Fin _ => false end.

Definition wle (a b : weight) : Prop :=
  match a, b with
  | _, Inf => True
  | Fin x, Fin y => (x <= y)%Q
  | Inf, Fin _ => False
  end.

Definition weq (a b : weight) : Prop :=
  match a, b with
  | Fin x, Fin y => (x == y)%Q
  | Inf, Inf => True
  | _, _ => False
  end.

(** ** TSPSolver *)

Definition city := nat.

(** [self.edges]: a dict from ordered pairs of cities to a weight. *)
Abbreviation edge_table := (gmap (city * city) Q).

(** [TSPSolver.get_distance] *)
Definition get_distance (edges : edge_table) (city1 city2 : city) : weight :=
  match edges !! (city1, city2) with
  | Some w => Fin w
  | None => Inf
  end.

(** [TSPSolver.calculate_path_cost]: the loop over [range(len(path))]. *)
Definition calculate_path_cost (edges : edge_table) (path : list city) : weight :=
  foldl (λ cost i,
           match path !! i, path !! ((i + 1) mod length path) with
           | Some city1, Some city2 => wadd cost (get_distance edges city1 city2)
           | _, _ => cost
           end)
        (Fin 0) (seq 0 (length path)).

(** Iteration order of [set(self.cities)]: distinct elements, enumerated
    by increasing key [h] (any order arises from some [h]). *)
Definition key_le (h : city → nat) (a b : city) : Prop := h a ≤ h b.

#[global] Instance key_le_dec h a b : Decision (key_le h a b) :=
  decide (h a ≤ h b).

Definition set_iter (h : city → nat) (cities : list city) : list city :=
  merge_sort (key_le h) (remove_dups cities).

(** The [for city in unvisited] scan of [nearest_neighbor]: the pair
    [(nearest, min_dist)] after the scan. *)
Definition scan_nearest (edges : edge_table) (current : city)
    (unvisited : list city) : option city * weight :=
  foldl (λ (acc : option city * weight) city,
           let dist := get_distance edges current city in
           if wltb dist acc.2 then (Some city, dist) else acc)
        (None, Inf) unvisited.

(** The [while unvisited] loop of [nearest_neighbor]; every iteration
    removes one element, so [length unvisited] iterations are enough. *)
Fixpoint nn_while (edges : edge_table) (fuel : nat)
    (unvisited path : list city) (current : city) : list city :=
  match fuel with
  | 0 => path
  | S fuel' =>
      match unvisited with
      | [] => path
      | _ :: _ =>
          match (scan_nearest edges current unvisited).1 with
          | None => path
          | Some nearest =>
              nn_while edges fuel'
                (filter (λ c, c ≠ nearest) unvisited)
                (path ++ [nearest]) nearest
          end
      end
  end.

(** [TSPSolver.nearest_neighbor] *)
Definition nearest_neighbor (h : city → nat) (cities : list city)
    (edges : edge_table) (start_city : option city)
    : result (list city * weight) :=
  match cities with
  | [] => Ok ([], Fin 0)
  | first :: _ =>
      let start_city := default first start_city in
      let unvisited := set_iter h cities in
      if decide (start_city ∈ unvisited) then
        let unvisited := filter (λ c, c ≠ start_city) unvisited in
        let path :=
          nn_while edges (length unvisited) unvisited [start_city] start_city in
        Ok (path, calculate_path_cost edges path)
      else Raise KeyError
  end.

(** *** Held-Karp *)

(** [dp] and [parent]: lists of rows, indexed [t[mask][i]]. *)
Definition tget {A} (d : A) (t : list (list A)) (i j : nat) : A :=
  default d (t !! i ≫= (.!! j)).

Definition tset {A} (t : list (list A)) (i j : nat) (x : A) : list (list A) :=
  alter (<[j := x]>) i t.

(** [mask & (1 << i)] as a truth value *)
Definition has_bit (mask i : nat) : bool :=
  negb (Nat.land mask (Nat.shiftl 1 i) =? 0).

Definition dist_idx (cities : list city) (edges : edge_table) (i j : nat) : weight :=
  match cities !! i, cities !! j with
  | Some a, Some b => get_distance edges a b
  | _, _ => Inf
  end.

Abbreviation dp_state := (list (list weight) * list (list (option nat)))%type.

(** Body of [for next_city in range(n)]. *)
Definition relax (cities : list city) (edges : edge_table) (mask last : nat)
    (st : dp_state) (next_city : nat) : dp_state :=
  if has_bit mask next_city then st
  else
    let next_mask := Nat.lor mask (Nat.shiftl 1 next_city) in
    let dist := dist_idx cities edges last next_city in
    let new_cost := wadd (tget Inf st.1 mask last) dist in
    if wltb new_cost (tget Inf st.1 next_mask next_city) then
      (tset st.1 next_mask next_city new_cost,
       tset st.2 next_mask next_city (Some last))
    else st.

(** Body of [for last in range(n)]. *)
Definition extend (cities : list city) (edges : edge_table) (n mask : nat)
    (st : dp_state) (last : nat) : dp_state :=
  if negb (has_bit mask last) then st
  else if is_inf (tget Inf st.1 mask last) then st
  else foldl (relax cities edges mask last) st (seq 0 n).

(** [for mask in range(1, 1 << n)] *)
Definition fill (cities : list city) (edges : edge_table) (n : nat)
    (st : dp_state) : dp_state :=
  foldl (λ st mask, foldl (extend cities edges n mask) st (seq 0 n))
        st (seq 1 (Nat.shiftl 1 n - 1)).

Definition dp_init (n : nat) : dp_state :=
  (tset (replicate (Nat.shiftl 1 n) (replicate n Inf)) 1 0 (Fin 0),
   replicate (Nat.shiftl 1 n) (replicate n None)).

(** "Find best ending city": [(best_cost, best_last)], where [None]
    stands for the initial [best_last = -1]. *)
Definition best_end (cities : list city) (edges : edge_table) (n : nat)
    (dp : list (list weight)) : weight * option nat :=
  let full_mask := Nat.shiftl 1 n - 1 in
  foldl (λ (acc : weight * option nat) last,
           let cost := wadd (tget Inf dp full_mask last)
                            (dist_idx cities edges last 0) in
           if wltb cost acc.1 then (cost, Some last) else acc)
        (Inf, None) (seq 0 n).

(** The [while current != 0] walk over the [parent] pointers.  A [None]
    pointer makes Python fail on [self.cities[None]]. *)
Fixpoint walk_back (cities : list city) (parent : list (list (option nat)))
    (fuel mask current : nat) (path : list city) : result (list city) :=
  match fuel with
  | 0 => OutOfFuel
  | S fuel' =>
      if current =? 0 then Ok path
      else
        match cities !! current with
        | None => Raise IndexError
        | Some c =>
            let prev_mask := Nat.lxor mask (Nat.shiftl 1 current) in
            match tget None parent mask current with
            | None => Raise TypeError
            | Some prev => walk_back cities parent fuel' prev_mask prev (path ++ [c])
            end
        end
  end.

(** [TSPSolver.dynamic_programming] *)
Definition dynamic_programming (h : city → nat) (cities : list city)
    (edges : edge_table) : result (list city * weight) :=
  if length cities <? 2 then Ok ([], Fin 0)
  else
    let n := length cities in
    if 20 <? n then nearest_neighbor h cities edges None
    else
      let st := fill cities edges n (dp_init n) in
      let full_mask := Nat.shiftl 1 n - 1 in
      let '(best_cost, best_last) := best_end cities edges n st.1 in
      match best_last with
      | None => Ok ([], best_cost)
      | Some best_last =>
          do path <- walk_back cities st.2 n full_mask best_last [];
          match cities !! 0 with
          | None => Raise IndexError
          | Some c0 => Ok (rev (path ++ [c0]), best_cost)
          end
      end.

(** *** 2-opt *)

(** [new_tour[i:j] = reversed(new_tour[i:j])] *)
Definition reverse_slice (tour : list city) (i j : nat) : list city :=
  take i tour ++ rev (take (j - i) (drop i tour)) ++ drop j tour.

(** Body of [for j in range(i + 1, len(tour))]; [Some] once the loop has
    been left through [break]. *)
Definition try_move (edges : edge_table) (best_tour : list city)
    (best_cost : weight) (i : nat) (found : option (list city * weight))
    (j : nat) : option (list city * weight) :=
  match found with
  | Some _ => found
  | None =>
      if j - i =? 1 then None
      else
        let new_tour := reverse_slice best_tour i j in
        let new_cost := calculate_path_cost edges new_tour in
        if wltb new_cost best_cost then Some (new_tour, new_cost) else None
  end.

(** One pass of the two nested [for] loops: the first improving move. *)
Definition scan_moves (edges : edge_table) (len : nat) (best_tour : list city)
    (best_cost : weight) : option (list city * weight) :=
  foldl (λ found i,
           match found with
           | Some _ => found
           | None =>
               foldl (try_move edges best_tour best_cost i) None
                     (seq (i + 1) (len - (i + 1)))
           end)
        None (seq 1 (len - 2 - 1)).

(** The [while improved] loop. *)
Fixpoint two_opt_while (edges : edge_table) (len fuel : nat)
    (best_tour : list city) (best_cost : weight)
    : result (list city * weight) :=
  match fuel with
  | 0 => OutOfFuel
  | S fuel' =>
      match scan_moves edges len best_tour best_cost with
      | None => Ok (best_tour, best_cost)
      | Some (new_tour, new_cost) =>
          two_opt_while edges len fuel' new_tour new_cost
      end
  end.

(** [TSPSolver.two_opt]; [fuel] bounds the number of passes. *)
Definition two_opt (fuel : nat) (edges : edge_table) (tour : list city)
    : result (list city * weight) :=
  two_opt_while edges (length tour) fuel tour (calculate_path_cost edges tour).

(** *** Genetic algorithm *)

(** The [random] module, as an injected source of draws with state [R]. *)
Class RandomSource (R : Type) := {
  (** [random.shuffle(l)]: some rearrangement of [l] *)
  rand_shuffle : R → list city → list city * R;
  (** [random.sample(range(n), k)]: [k] positions below [n] *)
  rand_sample : R → nat → nat → list nat * R;
  (** [random.random()] *)
  rand_random : R → Q * R;
}.

(** Inside the genetic algorithm a tour slot holds a city or [None]
    ([child = [None] * size]). *)
Abbreviation slot := (option city).

(** First maximal element, as Python's [max(..., key=...)] finds it. *)
Definition max_by {A} (key : A → Q) (l : list A) : option A :=
  foldl (λ best x,
           match best with
           | None => Some x
           | Some b => if Qltb (key b) (key x) then Some x else best
           end) None l.

(** [l.index(x)] together with the test [x in l]: the first position
    whose element equals [x], [None] when there is none. *)
Definition first_index {A} (p : A → bool) (l : list A) : option nat :=
  fst <$> list_find (λ y, p y = true) l.

Definition list_index `{EqDecision A} (x : A) (l : list A) : option nat :=
  first_index (λ y, bool_decide (y = x)) l.

Section genetic.
Context {R : Type} `{RandomSource R}.
Variables (cities : list city) (edges : edge_table).
Variables (population_size : nat) (mutation_rate : Q).

(** [calculate_path_cost] on a tour of slots: a [None] slot has no
    entry in [self.edges], so its edges weigh [inf]. *)
Definition slots_cost (tour : list slot) : weight :=
  match mapM id tour with
  | Some path => calculate_path_cost edges path
  | None => Inf
  end.

Definition create_individual (r : R) : list slot * R :=
  let '(tour, r) := rand_shuffle r cities in (Some <$> tour, r).

(** [1 / (cost + 1)] *)
Definition fitness (tour : list slot) : result Q :=
  match slots_cost tour with
  | Inf => Ok 0%Q
  | Fin cost =>
      if Qeq_bool (cost + 1) 0 then Raise ZeroDivisionError
      else Ok (1 / (cost + 1))%Q
  end.

Definition select_parent (population : list (list slot)) (fitnesses : list Q)
    (r : R) : result (list slot) * R :=
  let tournament_size := 5 in
  let '(picks, r) :=
    rand_sample r (length population)
                (tournament_size `min` length population) in
  let tournament := omap (λ i, zip population fitnesses !! i) picks in
  match max_by snd tournament with
  | Some x => (Ok x.1, r)
  | None => (Raise ValueError, r)
  end.

(** The [for city in parent2[end:] + parent2[:end]] loop of
    [crossover], on the pair [(child, pointer)]. *)
Definition fill_child (size : nat) (acc : list slot * nat) (c : slot)
    : list slot * nat :=
  let '(child, pointer) := acc in
  if bool_decide (c ∈ child) then acc
  else
    let pointer := if size <=? pointer then 0 else pointer in
    (<[pointer := c]> child, pointer + 1).

Definition crossover (parent1 parent2 : list slot) (r : R)
    : result (list slot) * R :=
  let size := length parent1 in
  let '(picks, r) := rand_sample r size 2 in
  match merge_sort Nat.le picks with
  | [start; end_] =>
      let child :=
        take start (replicate size None)
        ++ take (end_ - start) (drop start parent1)
        ++ drop end_ (replicate size None) in
      (Ok (foldl (fill_child size) (child, end_)
                 (drop end_ parent2 ++ take end_ parent2)).1, r)
  | _ => (Raise ValueError, r)
  end.

Definition mutate (tour : list slot) (r : R) : result (list slot) * R :=
  let '(x, r) := rand_random r in
  if Qltb x mutation_rate then
    let '(picks, r) := rand_sample r (length tour) 2 in
    match picks with
    | [i; j] =>
        match tour !! i, tour !! j with
        | Some ti, Some tj => (Ok (<[j := ti]> (<[i := tj]> tour)), r)
        | _, _ => (Raise IndexError, r)
        end
    | _ => (Raise ValueError, r)
    end
  else (Ok tour, r).

(** [while len(new_population) < population_size] *)
Fixpoint breed (fuel : nat) (population : list (list slot))
    (fitnesses : list Q) (new_population : list (list slot)) (r : R)
    : result (list (list slot)) * R :=
  match fuel with
  | 0 => (Ok new_population, r)
  | S fuel' =>
      if length new_population <? population_size then
        let '(p1, r) := select_parent population fitnesses r in
        let '(p2, r) := select_parent population fitnesses r in
        match p1, p2 with
        | Ok parent1, Ok parent2 =>
            let '(c, r) := crossover parent1 parent2 r in
            match c with
            | Ok child =>
                let '(m, r) := mutate child r in
                match m with
                | Ok child =>
                    breed fuel' population fitnesses
                          (new_population ++ [child]) r
                | Raise e => (Raise e, r)
                | OutOfFuel => (OutOfFuel, r)
                end
            | Raise e => (Raise e, r)
            | OutOfFuel => (OutOfFuel, r)
            end
        | Raise e, _ | _, Raise e => (Raise e, r)
        | _, _ => (OutOfFuel, r)
        end
      else (Ok new_population, r)
  end.

(** [[create_individual() for _ in range(population_size)]] *)
Fixpoint init_population (k : nat) (r : R) : list (list slot) * R :=
  match k with
  | 0 => ([], r)
  | S k' =>
      let '(tour, r) := create_individual r in
      let '(rest, r) := init_population k' r in
      (tour :: rest, r)
  end.

(** [[fitness(tour) for tour in population]] *)
Fixpoint all_fitness (population : list (list slot)) : result (list Q) :=
  match population with
  | [] => Ok []
  | tour :: rest =>
      do f <- fitness tour;
      do fs <- all_fitness rest;
      Ok (f :: fs)
  end.

(** State of the generation loop: [population], [best_tour] ([None]
    until a first best is recorded), [best_fitness], the random source. *)
Record ga_state := {
  population : list (list slot);
  best_tour : option (list slot);
  best_fitness : Q;
  rng : R;
}.

(** Body of [for generation in range(generations)]. *)
Definition generation_step (st : ga_state) : result ga_state :=
  do fitnesses <- all_fitness (population st);
  match max_by id fitnesses with
  | None => Raise ValueError
  | Some fmax =>
      match first_index (Qeq_bool fmax) fitnesses with
      | None => Raise ValueError
      | Some max_fitness_idx =>
          let '(best_tour', best_fitness') :=
            if Qltb (best_fitness st) fmax
            then (population st !! max_fitness_idx, fmax)
            else (best_tour st, best_fitness st) in
          match best_tour' with
          | None => Raise AttributeError
          | Some elite =>
              let '(new_population, r) :=
                breed population_size (population st) fitnesses
                      [elite] (rng st) in
              do new_population <- new_population;
              Ok {| population := new_population;
                    best_tour := best_tour';
                    best_fitness := best_fitness';
                    rng := r |}
          end
      end
  end.

Fixpoint generation_loop (generations : nat) (st : ga_state)
    : result ga_state :=
  match generations with
  | 0 => Ok st
  | S g => do st <- generation_step st; generation_loop g st
  end.

(** [TSPSolver.genetic_algorithm] *)
Definition genetic_algorithm (generations : nat) (r : R)
    : result (list slot * weight) :=
  if length cities <? 2 then Ok ([], Fin 0)
  else
    let '(population, r) := init_population population_size r in
    do st <- generation_loop generations
               {| population := population; best_tour := None;
                  best_fitness := 0%Q; rng := r |};
    match best_tour st with
    | None => Raise TypeError
    | Some best_tour => Ok (best_tour, slots_cost best_tour)
    end.
End genetic.

(** ** KirchhoffSimulator.calculate_circuit *)

Inductive comp_type : Set := resistor | voltage_source | current_source.

#[global] Instance comp_type_eq_dec : EqDecision comp_type.
Proof. solve_decision. Defined.

(** [CircuitComponent] *)
Record CircuitComponent : Set := {
  node1 : Z;
  node2 : Z;
  value : Q;
  type : comp_type;
  current : Q;
}.

Abbreviation matrix := (list (list Q)).

(** [G[i][j] += x] *)
Definition madd (G : matrix) (i j : nat) (x : Q) : matrix :=
  alter (alter (λ y, y + x)%Q j) i G.

(** [G[i][j] -= x] *)
Definition msub (G : matrix) (i j : nat) (x : Q) : matrix :=
  alter (alter (λ y, y - x)%Q j) i G.

(** [n in node_list] guarded by [n != ground], with [node_list.index(n)]. *)
Definition unknown_index (ground : Z) (node_list : list Z) (n : Z) : option nat :=
  if bool_decide (n ≠ ground) then list_index n node_list else None.

(** Branch [comp.type == "resistor"] of the assembly loop. *)
Definition stamp_resistor (ground : Z) (node_list : list Z) (G : matrix)
    (comp : CircuitComponent) : result matrix :=
  if Qeq_bool (value comp) 0 then Raise ZeroDivisionError
  else
    let conductance := (1 / value comp)%Q in
    let n1 := node1 comp in
    let n2 := node2 comp in
    let G :=
      match unknown_index ground node_list n1 with
      | Some idx1 =>
          let G := madd G idx1 idx1 conductance in
          match unknown_index ground node_list n2 with
          | Some idx2 =>
              let G := msub G idx1 idx2 conductance in
              let G := msub G idx2 idx1 conductance in
              madd G idx2 idx2 conductance
          | None => G
          end
      | None => G
      end in
    match unknown_index ground node_list n2 with
    | Some idx2 =>
        if bool_decide (n1 = ground) then Ok (madd G idx2 idx2 conductance)
        else Ok G
    | None => Ok G
    end.

(** [G[idx] = np.zeros(n); G[idx][idx] = 1.0; I[idx] = comp.value] *)
Definition fix_node (n : nat) (G : matrix) (I : list Q) (idx : nat) (v : Q)
    : matrix * list Q :=
  (alter (<[idx := 1%Q]>) idx (<[idx := replicate n 0%Q]> G), <[idx := v]> I).

(** Branch [comp.type == "voltage_source"] of the assembly loop. *)
Definition stamp_voltage_source (ground : Z) (node_list : list Z) (n : nat)
    (G : matrix) (I : list Q) (comp : CircuitComponent) : matrix * list Q :=
  let n1 := node1 comp in
  let n2 := node2 comp in
  match (if bool_decide (n1 = ground) then list_index n2 node_list else None) with
  | Some idx => fix_node n G I idx (value comp)
  | None =>
      match (if bool_decide (n2 = ground) then list_index n1 node_list else None) with
      | Some idx => fix_node n G I idx (value comp)
      | None => (G, I)
      end
  end.

(** Body of [for comp in self.components] ("Process components"). *)
Definition process_component (ground : Z) (node_list : list Z) (n : nat)
    (GI : matrix * list Q) (comp : CircuitComponent) : result (matrix * list Q) :=
  match type comp with
  | resistor =>
      do G <- stamp_resistor ground node_list GI.1 comp; Ok (G, GI.2)
  | voltage_source =>
      Ok (stamp_voltage_source ground node_list n GI.1 GI.2 comp)
  | current_source => Ok GI
  end.

Fixpoint assemble_from (ground : Z) (node_list : list Z) (n : nat)
    (GI : matrix * list Q) (components : list CircuitComponent)
    : result (matrix * list Q) :=
  match components with
  | [] => Ok GI
  | comp :: rest =>
      do GI <- process_component ground node_list n GI comp;
      assemble_from ground node_list n GI rest
  end.

(** [sorted([n for n in self.nodes.keys() if n != ground])] *)
Definition unknown_nodes (nodes : list Z) (ground : Z) : list Z :=
  merge_sort Z.le (filter (λ n, n ≠ ground) nodes).

(** [G = np.zeros((n, n)); I = np.zeros(n)] followed by the assembly loop. *)
Definition assemble (nodes : list Z) (components : list CircuitComponent)
    (ground : Z) : result (matrix * list Q) :=
  let node_list := unknown_nodes nodes ground in
  let n := length node_list in
  assemble_from ground node_list n
    (replicate n (replicate n 0%Q), replicate n 0%Q) components.

(** *** The dense linear solve *)

Definition entry (c : nat) (r : list Q) : Q := nth c r 0%Q.

(** Partial pivoting: the row whose entry in column [c] has the largest
    absolute value (the first such), and the other rows in order. *)
Fixpoint pick_pivot (c : nat) (rows : list (list Q))
    : option (list Q * list (list Q)) :=
  match rows with
  | [] => None
  | r :: rs =>
      match pick_pivot c rs with
      | None => Some (r, [])
      | Some (p, rs') =>
          if Qle_bool (Qabs (entry c p)) (Qabs (entry c r))
          then Some (r, rs)
          else Some (p, r :: rs')
      end
  end.

(** [r - k * p] *)
Definition row_sub (k : Q) (p r : list Q) : list Q :=
  zip_with (λ x y, x - k * y)%Q r p.

(** Gauss-Jordan elimination on the augmented rows: [done] holds the
    rows already pivoted (columns below [c] reduced), [rest] the others. *)
Fixpoint gauss_jordan (steps c : nat) (done rest : list (list Q))
    : option (list (list Q)) :=
  match steps with
  | 0 => Some done
  | S steps' =>
      match pick_pivot c rest with
      | None => None
      | Some (p, rest') =>
          if Qeq_bool (entry c p) 0 then None
          else
            let p' := map (λ x, x / entry c p)%Q p in
            let clear r := row_sub (entry c r) p' r in
            gauss_jordan steps' (S c) (map clear done ++ [p']) (map clear rest')
      end
  end.

(** Modelled from the spec: [np.linalg.solve] is NumPy's, not this
    repository's; the model follows the LinearSystemSolver contract of
    the specification (a dense direct solve with partial pivoting that
    returns the solution vector or fails with Singular, here [None],
    when a pivot is zero). *)
Definition linalg_solve (G : matrix) (I : list Q) : option (list Q) :=
  let n := length G in
  match gauss_jordan n 0 [] (zip_with (λ row b, row ++ [b]) G I) with
  | Some rows => Some (map (λ r, Qred (entry n r)) rows)
  | None => None
  end.

(** *** Branch results and the outcome of a call *)

(** What the results text reports for one component. *)
Inductive branch : Set :=
  | ResistorBranch (index : nat) (ohms abs_current power : Q)
  | SourceBranch (index : nat) (volts : Q).

(** The message boxes of [calculate_circuit]. *)
Inductive failure : Set :=
  | InsufficientInput          (* "Please create a circuit with at least 2 nodes and 1 component" *)
  | GroundNotFound (ground : Z) (* "Ground node {ground} does not exist" *)
  | InvalidGround              (* "Invalid ground node" *)
  | NoUnknownNode              (* "Need at least one non-ground node" *)
  | CannotSolve.               (* "Cannot solve circuit - check your connections" *)

Inductive outcome : Type :=
  | Solved (voltage_dict : gmap Z Q) (components : list CircuitComponent)
           (report : list branch)
  | Failed (f : failure)
  | Uncaught (e : exn).

(** [voltage_dict = {ground: 0.0}] extended by [voltage_dict[node] = V[i]]. *)
Definition make_voltage_dict (ground : Z) (node_list : list Z) (V : list Q)
    : gmap Z Q :=
  foldl (λ d nv, <[nv.1 := nv.2]> d) {[ ground := 0%Q ]} (zip node_list V).

(** Body of [for i, comp in enumerate(self.components)]: the component
    with its [current] updated, and its entry of the report. *)
Definition branch_result (voltage_dict : gmap Z Q) (i : nat)
    (comp : CircuitComponent) : result (CircuitComponent * list branch) :=
  match voltage_dict !! node1 comp, voltage_dict !! node2 comp with
  | Some v1, Some v2 =>
      match type comp with
      | resistor =>
          if Qeq_bool (value comp) 0 then Raise ZeroDivisionError
          else
            let current := ((v1 - v2) / value comp)%Q in
            Ok ({| node1 := node1 comp; node2 := node2 comp;
                   value := value comp; type := type comp;
                   current := current |},
                [ResistorBranch i (value comp) (Qabs current)
                                (Qabs current ^ 2 * value comp)])
      | voltage_source => Ok (comp, [SourceBranch i (value comp)])
      | current_source => Ok (comp, [])
      end
  | _, _ => Raise KeyError
  end.

Fixpoint branch_results (voltage_dict : gmap Z Q) (i : nat)
    (components : list CircuitComponent)
    : result (list CircuitComponent * list branch) :=
  match components with
  | [] => Ok ([], [])
  | comp :: rest =>
      do (comp', lines) <- branch_result voltage_dict i comp;
      do (rest', report) <- branch_results voltage_dict (S i) rest;
      Ok (comp' :: rest', lines ++ report)
  end.

(** [KirchhoffSimulator.calculate_circuit].  [nodes] are the keys of
    [self.nodes]; [ground_var] is the ground entry's text read as an
    integer, [None] when [int(...)] rejects it. *)
Definition calculate_circuit (nodes : list Z)
    (components : list CircuitComponent) (ground_var : option Z) : outcome :=
  if (length nodes <? 2) || (length components =? 0) then Failed InsufficientInput
  else
    match ground_var with
    | None => Failed InvalidGround
    | Some ground =>
        if bool_decide (ground ∈ nodes) then
          let node_list := unknown_nodes nodes ground in
          let n := length node_list in
          if n =? 0 then Failed NoUnknownNode
          else
            match assemble nodes components ground with
            | Ok (G, I_) =>
                match linalg_solve G I_ with
                | None => Failed CannotSolve
                | Some V =>
                    let voltage_dict := make_voltage_dict ground node_list V in
                    match branch_results voltage_dict 0 components with
                    | Ok (components', report) =>
                        Solved voltage_dict components' report
                    | Raise e => Uncaught e
                    | OutOfFuel => Uncaught KeyError
                    end
                end
            | Raise e => Uncaught e
            | OutOfFuel => Uncaught KeyError
            end
        else Failed (GroundNotFound ground)
    end.

(** ** The editing windows

    [KirchhoffSimulator] and [TSPSimulator] hold the circuit and the map
    the solvers are called on.  The embedding keeps their data
    attributes and leaves the Tk canvas and the message boxes out; a
    handler that can raise returns the state it has reached together
    with the exception.  The content of an entry widget is an argument
    of the handler that reads it, already passed through [float(...)]:
    [None] stands for the text [float] rejects.

    Pointer coordinates are integers, so [math.sqrt] is applied to an
    exact integer.  The double it returns is a rational: it is given by
    the function [sqrt] the definitions below take as a parameter. *)

Section editors.
Variable sqrt : Z → Q.

(** [math.sqrt((x - nx)**2 + (y - ny)**2)] *)
Definition pointer_distance (x y nx ny : Z) : Q :=
  sqrt ((x - nx) ^ 2 + (y - ny) ^ 2).

(** The search loop of [handle_component_click] (limit 20) and of
    [find_nearest_city] (limit 25), on the pair [(nearest, min_dist)]:
    [if dist < limit and dist < min_dist]. *)
Definition nearest_within {A} (limit : Q) (position : A → Z * Z)
    (x y : Z) (items : list A) : option A :=
  (foldl (λ acc item,
            let dist :=
              pointer_distance x y (position item).1 (position item).2 in
            if Qltb dist limit && wltb (Fin dist) acc.2
            then (Some item, Fin dist) else acc)
         (None, Inf) items).1.

(** *** KirchhoffSimulator *)

(** The values of the mode radio buttons: "add_node", "add_resistor",
    "add_voltage", "delete". *)
Inductive circuit_mode : Set :=
  | ModeAddNode | ModeAddResistor | ModeAddVoltage | ModeDelete.

#[global] Instance circuit_mode_eq_dec : EqDecision circuit_mode.
Proof. solve_decision. Defined.

(** [self.nodes] (a dict, in insertion order), [self.components],
    [self.node_counter], [self.selected_node], [self.mode]. *)
Record KirchhoffSimulator : Type := {
  ks_nodes : list (Z * (Z * Z));
  ks_components : list CircuitComponent;
  ks_node_counter : Z;
  ks_selected_node : option Z;
  ks_mode : circuit_mode;
}.

(** [KirchhoffSimulator.__init__] *)
Definition new_circuit : KirchhoffSimulator :=
  {| ks_nodes := []; ks_components := []; ks_node_counter := 0;
     ks_selected_node := None; ks_mode := ModeAddNode |}.

(** [self.nodes.keys()] *)
Definition node_ids (st : KirchhoffSimulator) : list Z := (ks_nodes st).*1.

(** [d[k] = v] on a dict kept in insertion order. *)
Definition dict_set {V} (k : Z) (v : V) (d : list (Z * V)) : list (Z * V) :=
  if bool_decide (k ∈ d.*1)
  then (λ kv, if bool_decide (kv.1 = k) then (k, v) else kv) <$> d
  else d ++ [(k, v)].

(** [KirchhoffSimulator.redraw_circuit]: the canvas apart, it looks up
    [self.nodes[comp.node1]] and [self.nodes[comp.node2]] for every
    component. *)
Definition redraw_circuit (st : KirchhoffSimulator) : option exn :=
  if forallb (λ comp, bool_decide (node1 comp ∈ node_ids st)
                      && bool_decide (node2 comp ∈ node_ids st))
             (ks_components st)
  then None else Some KeyError.

(** [KirchhoffSimulator.change_mode] *)
Definition change_mode (mode_var : circuit_mode) (st : KirchhoffSimulator)
    : KirchhoffSimulator :=
  {| ks_nodes := ks_nodes st; ks_components := ks_components st;
     ks_node_counter := ks_node_counter st;
     ks_selected_node := None; ks_mode := mode_var |}.

(** [KirchhoffSimulator.add_node] *)
Definition add_node (x y : Z) (st : KirchhoffSimulator) : KirchhoffSimulator :=
  let node_id := ks_node_counter st in
  {| ks_nodes := dict_set node_id (x, y) (ks_nodes st);
     ks_components := ks_components st;
     ks_node_counter := (node_id + 1)%Z;
     ks_selected_node := ks_selected_node st; ks_mode := ks_mode st |}.

(** [KirchhoffSimulator.add_component] *)
Definition add_component (value_entry : option Q) (n1 n2 : Z)
    (st : KirchhoffSimulator) : KirchhoffSimulator * option exn :=
  match value_entry with
  | None => (st, None)
  | Some value =>
      let comp_type :=
        if bool_decide (ks_mode st = ModeAddResistor)
        then resistor else voltage_source in
      let component :=
        {| node1 := n1; node2 := n2; value := value; type := comp_type;
           current := 0 |} in
      let st :=
        {| ks_nodes := ks_nodes st;
           ks_components := ks_components st ++ [component];
           ks_node_counter := ks_node_counter st;
           ks_selected_node := ks_selected_node st; ks_mode := ks_mode st |} in
      if bool_decide (n1 ∈ node_ids st) && bool_decide (n2 ∈ node_ids st)
      then (st, redraw_circuit st)
      else (st, Some KeyError)
  end.

(** [KirchhoffSimulator.handle_component_click] *)
Definition handle_component_click (value_entry : option Q) (x y : Z)
    (st : KirchhoffSimulator) : KirchhoffSimulator * option exn :=
  match nearest_within 20 snd x y (ks_nodes st) with
  | None => (st, None)
  | Some (nearest_node, _) =>
      match ks_selected_node st with
      | None =>
          ({| ks_nodes := ks_nodes st; ks_components := ks_components st;
              ks_node_counter := ks_node_counter st;
              ks_selected_node := Some nearest_node;
              ks_mode := ks_mode st |}, None)
      | Some selected_node =>
          let '(st, raised) :=
            if bool_decide (nearest_node ≠ selected_node)
            then add_component value_entry selected_node nearest_node st
            else (st, None) in
          match raised with
          | Some e => (st, Some e)
          | None =>
              ({| ks_nodes := ks_nodes st; ks_components := ks_components st;
                  ks_node_counter := ks_node_counter st;
                  ks_selected_node := None; ks_mode := ks_mode st |}, None)
          end
      end
  end.

(** [KirchhoffSimulator.delete_at_position]: the first node of the dict
    within 20 of the pointer goes, with the components that touch it. *)
Definition delete_at_position (x y : Z) (st : KirchhoffSimulator)
    : KirchhoffSimulator * option exn :=
  match list_find (λ kv, Qltb (pointer_distance x y kv.2.1 kv.2.2) 20 = true)
                  (ks_nodes st) with
  | None => (st, None)
  | Some (_, (node_id, _)) =>
      let st :=
        {| ks_nodes := filter (λ kv, kv.1 ≠ node_id) (ks_nodes st);
           ks_components :=
             filter (λ c, node1 c ≠ node_id ∧ node2 c ≠ node_id)
                    (ks_components st);
           ks_node_counter := ks_node_counter st;
           ks_selected_node := ks_selected_node st; ks_mode := ks_mode st |} in
      (st, redraw_circuit st)
  end.

(** [KirchhoffSimulator.canvas_click] *)
Definition canvas_click (value_entry : option Q) (x y : Z)
    (st : KirchhoffSimulator) : KirchhoffSimulator * option exn :=
  match ks_mode st with
  | ModeAddNode => (add_node x y st, None)
  | ModeAddResistor | ModeAddVoltage =>
      handle_component_click value_entry x y st
  | ModeDelete => delete_at_position x y st
  end.

(** [KirchhoffSimulator.clear_circuit] *)
Definition clear_circuit (st : KirchhoffSimulator) : KirchhoffSimulator :=
  {| ks_nodes := []; ks_components := []; ks_node_counter := 0;
     ks_selected_node := None; ks_mode := ks_mode st |}.

(** *** TSPSimulator *)

(** [City].  Objects of this class are compared by identity; a city is
    created by [add_city] alone, which names it after [city_counter], so
    the counter value stands for the identity and for the name. *)
Record City : Set := {
  city_x : Z;
  city_y : Z;
  city_name : city;
}.

(** [City.distance_to] *)
Definition distance_to (self other : City) : Q :=
  sqrt ((city_x self - city_x other) ^ 2 + (city_y self - city_y other) ^ 2).

(** The values of the mode radio buttons: "add_city", "add_edge",
    "delete". *)
Inductive map_mode : Set := ModeAddCity | ModeAddEdge | ModeDeleteCity.

#[global] Instance map_mode_eq_dec : EqDecision map_mode.
Proof. solve_decision. Defined.

(** [self.cities], [self.city_counter], [self.edges] (keyed by pairs of
    cities), [self.mode], [self.selected_city], [self.solution_path],
    [self.total_cost]. *)
Record TSPSimulator : Type := {
  ts_cities : list City;
  ts_city_counter : nat;
  ts_edges : edge_table;
  ts_mode : map_mode;
  ts_selected_city : option City;
  ts_solution_path : list slot;
  ts_total_cost : weight;
}.

(** [TSPSimulator.__init__] *)
Definition new_map : TSPSimulator :=
  {| ts_cities := []; ts_city_counter := 0; ts_edges := ∅;
     ts_mode := ModeAddCity; ts_selected_city := None;
     ts_solution_path := []; ts_total_cost := Fin 0 |}.

(** The cities as the solver sees them. *)
Definition city_ids (st : TSPSimulator) : list city :=
  city_name <$> ts_cities st.

(** [TSPSimulator.change_mode] *)
Definition change_map_mode (mode_var : map_mode) (st : TSPSimulator)
    : TSPSimulator :=
  {| ts_cities := ts_cities st; ts_city_counter := ts_city_counter st;
     ts_edges := ts_edges st; ts_mode := mode_var;
     ts_selected_city := None;
     ts_solution_path := ts_solution_path st;
     ts_total_cost := ts_total_cost st |}.

(** [TSPSimulator.add_city]; [auto_connect] is the state of the
    auto-connect check box. *)
Definition add_city (auto_connect : bool) (x y : Z) (st : TSPSimulator)
    : TSPSimulator :=
  let new_city :=
    {| city_x := x; city_y := y; city_name := ts_city_counter st |} in
  let cities := ts_cities st ++ [new_city] in
  let edges :=
    if auto_connect && (1 <? length cities) then
      foldl (λ edges other,
               let dist := distance_to new_city other in
               <[(city_name other, city_name new_city) := dist]>
                 (<[(city_name new_city, city_name other) := dist]> edges))
            (ts_edges st) (ts_cities st)
    else ts_edges st in
  {| ts_cities := cities; ts_city_counter := S (ts_city_counter st);
     ts_edges := edges; ts_mode := ts_mode st;
     ts_selected_city := ts_selected_city st;
     ts_solution_path := ts_solution_path st;
     ts_total_cost := ts_total_cost st |}.

(** [TSPSimulator.find_nearest_city] *)
Definition find_nearest_city (x y : Z) (st : TSPSimulator) : option City :=
  nearest_within 25 (λ c, (city_x c, city_y c)) x y (ts_cities st).

(** [TSPSimulator.handle_edge_click] *)
Definition handle_edge_click (weight_entry : option Q) (x y : Z)
    (st : TSPSimulator) : TSPSimulator :=
  match find_nearest_city x y st with
  | None => st
  | Some nearest =>
      match ts_selected_city st with
      | None =>
          {| ts_cities := ts_cities st; ts_city_counter := ts_city_counter st;
             ts_edges := ts_edges st; ts_mode := ts_mode st;
             ts_selected_city := Some nearest;
             ts_solution_path := ts_solution_path st;
             ts_total_cost := ts_total_cost st |}
      | Some selected_city =>
          let edges :=
            if bool_decide (city_name nearest ≠ city_name selected_city) then
              match weight_entry with
              | Some weight =>
                  <[(city_name nearest, city_name selected_city) := weight]>
                    (<[(city_name selected_city, city_name nearest) := weight]>
                       (ts_edges st))
              | None => ts_edges st
              end
            else ts_edges st in
          {| ts_cities := ts_cities st; ts_city_counter := ts_city_counter st;
             ts_edges := edges; ts_mode := ts_mode st;
             ts_selected_city := None;
             ts_solution_path := ts_solution_path st;
             ts_total_cost := ts_total_cost st |}
      end
  end.

(** [self.cities.remove(city)]: the first occurrence goes.  The call
    sites pass a city just found in the list. *)
Definition remove_city (c : City) (cities : list City) : list City :=
  match list_find (λ o, city_name o = city_name c) cities with
  | Some (i, _) => delete i cities
  | None => cities
  end.

(** [TSPSimulator.delete_at_position] *)
Definition delete_city_at_position (x y : Z) (st : TSPSimulator)
    : TSPSimulator :=
  match find_nearest_city x y st with
  | None => st
  | Some c =>
      {| ts_cities := remove_city c (ts_cities st);
         ts_city_counter := ts_city_counter st;
         ts_edges :=
           filter (λ kv, kv.1.1 ≠ city_name c ∧ kv.1.2 ≠ city_name c)
                  (ts_edges st);
         ts_mode := ts_mode st;
         ts_selected_city := ts_selected_city st;
         ts_solution_path := ts_solution_path st;
         ts_total_cost := ts_total_cost st |}
  end.

(** [TSPSimulator.canvas_click] *)
Definition map_canvas_click (auto_connect : bool) (weight_entry : option Q)
    (x y : Z) (st : TSPSimulator) : TSPSimulator :=
  match ts_mode st with
  | ModeAddCity => add_city auto_connect x y st
  | ModeAddEdge => handle_edge_click weight_entry x y st
  | ModeDeleteCity => delete_city_at_position x y st
  end.

(** [TSPSimulator.clear_all] *)
Definition clear_all (st : TSPSimulator) : TSPSimulator :=
  {| ts_cities := []; ts_city_counter := 0; ts_edges := ∅;
     ts_mode := ts_mode st; ts_selected_city := None;
     ts_solution_path := []; ts_total_cost := ts_total_cost st |}.

(** [TSPSimulator.generate_random_cities]; [points] are the coordinates
    the calls of [random.randint] give, one pair for each city. *)
Definition generate_random_cities (auto_connect : bool)
    (points : list (Z * Z)) (st : TSPSimulator) : TSPSimulator :=
  foldl (λ st p, add_city auto_connect p.1 p.2 st) (clear_all st) points.

(** The values of the algorithm radio buttons. *)
Inductive algorithm : Set := AlgoNearestNeighbor | AlgoGenetic | AlgoDynamic.

(** What a call of [solve_tsp] ends in: one of its two warnings, the
    results text (algorithm, total distance, the path, the weight shown
    after each city but the last, the weight of the return leg), or an
    exception. *)
Inductive solve_outcome : Type :=
  | NeedTwoCities
  | NoEdgesDefined
  | Results (algo : algorithm) (cost : weight) (path : list city)
            (legs : list Q) (return_leg : Q)
  | SolveRaised (e : exn)
  | SolveOutOfFuel.

(** [self.edges.get((a, b), 0)] *)
Definition shown_weight (edges : edge_table) (a b : city) : Q :=
  default 0%Q (edges !! (a, b)).

(** [TSPSimulator.solve_tsp].  [path] and [cost] are stored before the
    results text is built; building it reads [city.name] of every entry
    of the path and then [path[-1]]. *)
Definition solve_tsp {R : Type} `{RandomSource R} (h : city → nat)
    (algo_var : algorithm) (r : R) (st : TSPSimulator)
    : TSPSimulator * solve_outcome :=
  if length (ts_cities st) <? 2 then (st, NeedTwoCities)
  else if size (ts_edges st) =? 0 then (st, NoEdgesDefined)
  else
    let cities := city_ids st in
    let edges := ts_edges st in
    let solved : result (list slot * weight) :=
      match algo_var with
      | AlgoNearestNeighbor =>
          do (path, cost) <- nearest_neighbor h cities edges None;
          Ok (Some <$> path, cost)
      | AlgoGenetic => genetic_algorithm cities edges 100 (1 # 100) 500 r
      | AlgoDynamic =>
          do (path, cost) <- dynamic_programming h cities edges;
          Ok (Some <$> path, cost)
      end in
    match solved with
    | Ok (path, cost) =>
        let st :=
          {| ts_cities := ts_cities st; ts_city_counter := ts_city_counter st;
             ts_edges := ts_edges st; ts_mode := ts_mode st;
             ts_selected_city := ts_selected_city st;
             ts_solution_path := path; ts_total_cost := cost |} in
        match mapM id path with
        | None => (st, SolveRaised AttributeError)
        | Some [] => (st, SolveRaised IndexError)
        | Some (first :: rest) =>
            (st, Results algo_var cost (first :: rest)
                         (zip_with (shown_weight edges) (first :: rest) rest)
                         (shown_weight edges (List.last rest first) first))
        end
    | Raise e => (st, SolveRaised e)
    | OutOfFuel => (st, SolveOutOfFuel)
    end.

End editors.

(** ** The cost of a tour, whatever the arithmetic

    [get_distance] and [calculate_path_cost] once more, with the number
    type, its zero, its infinity and its addition as parameters.  At
    the weights [Fin q | Inf] with [wadd] these are the two definitions
    above; at [float] with [PrimFloat.add] they are the binary64
    computation of the interpreter, rounding and overflow included. *)

Section cost_in.
Context {N : Type}.
Variables (zero inf : N) (add : N → N → N).

(** [TSPSolver.get_distance] *)
Definition get_distance_in (edges : gmap (city * city) N)
    (city1 city2 : city) : N :=
  default inf (edges !! (city1, city2)).

(** [TSPSolver.calculate_path_cost] *)
Definition calculate_path_cost_in (edges : gmap (city * city) N)
    (path : list city) : N :=
  foldl (λ cost i,
           match path !! i, path !! ((i + 1) mod length path) with
           | Some city1, Some city2 =>
               add cost (get_distance_in edges city1 city2)
           | _, _ => cost
           end)
        zero (seq 0 (length path)).
End cost_in.

(** [calculate_path_cost] on binary64 floats: [cost = 0], then
    [cost += self.get_distance(city1, city2)] from left to right. *)
Definition float_path_cost (edges : gmap (city * city) float)
    (path : list city) : float :=
  calculate_path_cost_in 0%float infinity PrimFloat.add edges path.

(** ** Auxiliary definitions used to state the properties *)

(** A deterministic random source for the examples: the state counts
    the draws made so far. *)
#[global] Instance counting_source : RandomSource nat := {|
  rand_shuffle r l := (rotate r l, S r);
  rand_sample r n k := (take k (rotate r (seq 0 n)), S r);
  rand_random r := (1 # 2, S r);
|}.

Definition mk_component (a b : Z) (v : Q) (t : comp_type) : CircuitComponent :=
  {| node1 := a; node2 := b; value := v; type := t; current := 0 |}.

(** Row [idx] of an [n]-column matrix is the identity row. *)
Definition identity_row (n idx : nat) (row : list Q) : Prop :=
  length row = n ∧
  ∀ j, j < n → (entry j row == if decide (j = idx) then 1 else 0)%Q.

(** The statement "every grounded source pins its node": after the
    assembly, the row of the non-ground endpoint of every voltage source
    with one endpoint at ground is an identity row and the entry of [I]
    is the source's value. *)
Definition sources_pin_their_nodes (nodes : list Z)
    (components : list CircuitComponent) (ground : Z) : Prop :=
  ∀ G I comp other idx,
    assemble nodes components ground = Ok (G, I) →
    comp ∈ components →
    type comp = voltage_source →
    (node1 comp = ground ∧ node2 comp = other
     ∨ node2 comp = ground ∧ node1 comp = other) →
    other ≠ ground →
    list_index other (unknown_nodes nodes ground) = Some idx →
    ∃ row v,
      G !! idx = Some row ∧
      identity_row (length (unknown_nodes nodes ground)) idx row ∧
      I !! idx = Some v ∧ (v == value comp)%Q.

(** The two-node scenario: a 10 ohm resistor between nodes 0 and 1,
    then a 5 V source between ground (node 0) and node 1; the flags
    choose the orientation in which each component was drawn. *)
Definition two_node_circuit (r_flip s_flip : bool) : list CircuitComponent :=
  [ if r_flip then mk_component 1 0 10 resistor
    else mk_component 0 1 10 resistor;
    if s_flip then mk_component 1 0 5 voltage_source
    else mk_component 0 1 5 voltage_source ].

(** Sum of a list of weights, in list order. *)
Definition wsum (l : list weight) : weight := foldl wadd (Fin 0) l.

(** The city that follows each position of a closed tour. *)
Definition successors (path : list city) : list city :=
  match path with [] => [] | x :: xs => xs ++ [x] end.

(** Weights of the edges of a closed tour, in tour order. *)
Definition step_weights {N} (f : city → city → N) (path : list city) : list N :=
  zip_with f path (successors path).

(** Weights of the edges between consecutive elements of a list. *)
Definition chain_weights {N} (f : city → city → N) (l : list city) : list N :=
  zip_with f l (tail l).

#[global] Instance weq_dec a b : Decision (weq a b).
Proof.
  destruct a as [x|], b as [y|]; simpl;
    [apply Qeq_dec | right; tauto | right; tauto | left; exact I].
Defined.

(** An entry [(a, b) : w] of the table has its mirror image:
    weight(b, a) is [w] too. *)
Definition mirrored (edges : edge_table) (k : city * city) (w : Q) : Prop :=
  weq (Fin w) (get_distance edges k.2 k.1).

#[global] Instance mirrored_dec edges k w : Decision (mirrored edges k w) :=
  weq_dec _ _.

(** weight(a, b) = weight(b, a) for all pairs present in the table. *)
Definition symmetric_table (edges : edge_table) : Prop :=
  map_Forall (mirrored edges) edges.

#[global] Instance symmetric_table_dec edges : Decision (symmetric_table edges).
Proof. unfold symmetric_table. apply _. Defined.

(** The square of the specification: corners 0..3, sides 10. *)
Definition square_edges : edge_table :=
  list_to_map
    [ ((0, 1), 10%Q); ((1, 0), 10%Q); ((1, 2), 10%Q); ((2, 1), 10%Q);
      ((2, 3), 10%Q); ((3, 2), 10%Q); ((3, 0), 10%Q); ((0, 3), 10%Q);
      ((0, 2), 14%Q); ((2, 0), 14%Q); ((1, 3), 14%Q); ((3, 1), 14%Q) ].

(** The statement "full tour, or a shorter one that omits exactly the
    cities unreachable from the visited ones". *)
Definition omits_only_unreachable (h : city → nat) (cities : list city)
    (edges : edge_table) : Prop :=
  ∃ tour cost,
    nearest_neighbor h cities edges None = Ok (tour, cost) ∧
    (length tour = length cities
     ∨ (length tour < length cities ∧
        ∀ c, c ∈ cities →
             (c ∉ tour ↔ ∀ v, v ∈ tour → get_distance edges v c = Inf))).

(** Three cities; 1 and 2 are both linked to 0 but not to each other. *)
Definition fork_edges : edge_table :=
  list_to_map [ ((0, 1), 1%Q); ((1, 0), 1%Q); ((0, 2), 5%Q); ((2, 0), 5%Q) ].


(** No component has node [k] as an endpoint. *)
Definition isolated (components : list CircuitComponent) (k : Z) : Prop :=
  Forall (λ comp, node1 comp ≠ k ∧ node2 comp ≠ k) components.

(** Every resistor has a non-zero resistance. *)
Definition nonzero_resistances (components : list CircuitComponent) : Prop :=
  Forall (λ comp, type comp = resistor → ¬ (value comp == 0)%Q) components.

(** The first [n] entries of a row are zero. *)
Definition zero_row (n : nat) (r : list Q) : Prop :=
  ∀ j, j < n → (entry j r == 0)%Q.


(** Number of rearrangements of [tour0] that cost less than [c]: the
    quantity that an accepted 2-opt move makes smaller. *)
Definition cheaper_count (edges : edge_table) (tour0 : list city) (c : weight) : nat :=
  length (filter (λ p, wltb (calculate_path_cost edges p) c = true)
                 (permutations tour0)).

(** What a pass returns is a rearrangement of the tour it scanned, with
    its own cost, strictly cheaper than the best so far. *)
Definition improves (edges : edge_table) (t : list city) (c : weight)
    (r : list city * weight) : Prop :=
  r.1 ≡ₚ t ∧ r.2 = calculate_path_cost edges r.1 ∧ wltb r.2 c = true.


(** A table of [rows] rows of [cols] entries. *)
Definition dims {A} (rows cols : nat) (t : list (list A)) : Prop :=
  length t = rows ∧ Forall (λ r, length r = cols) t.



(** [dp[mask][j]] *)
Definition dp_at (st : dp_state) (mask j : nat) : weight := tget Inf st.1 mask j.

(** Both tables have [2^n] rows of [n] entries. *)
Definition wf_state (n : nat) (st : dp_state) : Prop :=
  dims (2 ^ n) n st.1 ∧ dims (2 ^ n) n st.2.

(** Every finite entry [dp[mask][j]] has [j] and 0 in [mask] and, unless
    [j = 0], a parent pointer to a finite entry of the mask without [j]. *)
Definition parents_ok (st : dp_state) : Prop :=
  ∀ m j, dp_at st m j ≠ Inf →
    Nat.testbit m j = true ∧ Nat.testbit m 0 = true ∧
    (j = 0 ∨ ∃ l, tget None st.2 m j = Some l ∧
                  dp_at st (Nat.lxor m (2 ^ j)) l ≠ Inf).

Definition dp_inv (n : nat) (st : dp_state) : Prop :=
  wf_state n st ∧ parents_ok st.

(** [st'] comes after [st]: no entry grew, and the rows up to [M] are
    the same. *)
Definition later (M : nat) (st st' : dp_state) : Prop :=
  ∀ m j, wle (dp_at st' m j) (dp_at st m j) ∧
         (m ≤ M → dp_at st' m j = dp_at st m j).

(** A walk from index 0 through distinct indices: the set of visited
    indices as a mask, the last index, and the cost accumulated in the
    order of the walk. *)
Inductive route (cities : list city) (edges : edge_table) (n : nat)
    : nat → nat → weight → Prop :=
  | route_start : route cities edges n 1 0 (Fin 0)
  | route_step mask last c next :
      route cities edges n mask last c →
      next < n →
      Nat.testbit mask next = false →
      route cities edges n (Nat.lor mask (2 ^ next)) next
            (wadd c (dist_idx cities edges last next)).

(** The table bounds every walk whose last step left a mask [≤ k]. *)
Definition routes_ok (cities : list city) (edges : edge_table) (n k : nat)
    (st : dp_state) : Prop :=
  ∀ m j c, route cities edges n m j c →
           (j = 0 ∨ Nat.lxor m (2 ^ j) ≤ k) →
           wle (dp_at st m j) c.


(** One step of the sweep, seen from a state that satisfies the
    invariant and whose entry [dp[M][last]] is finite. *)
Definition step_in (n M last : nat) (st st' : dp_state) : Prop :=
  dp_inv n st → dp_at st M last ≠ Inf → dp_inv n st' ∧ later M st st'.

Definition step_out (n M : nat) (st st' : dp_state) : Prop :=
  dp_inv n st → dp_inv n st' ∧ later M st st'.


(** Number of indices below [n] that are in [mask]. *)
Definition bits_below (n mask : nat) : nat :=
  length (filter (λ i, Nat.testbit mask i = true) (seq 0 n)).


(** The first [K] rounds of the loop over the masks. *)
Definition sweeps (cities : list city) (edges : edge_table) (n K : nat)
    (st : dp_state) : dp_state :=
  foldl (λ st mask, foldl (extend cities edges n mask) st (seq 0 n))
        st (seq 1 K).


(** The mask of [mask] together with the indices of [p]. *)
Definition walk_mask (mask : nat) (p : list nat) : nat :=
  foldl (λ m i, Nat.lor m (2 ^ i)) mask p.

(** [p] lists the positions in [cities] of the elements of [tour]. *)
Definition positions_of (cities : list city) (p : list nat) (tour : list city) : Prop :=
  Forall2 (λ i c, cities !! i = Some c) p tour.


(** The statement "the exact solver never costs more than the greedy
    one", for one instance. *)
Definition exact_not_above_greedy (h : city → nat) (cities : list city)
    (edges : edge_table) : Prop :=
  ∃ path best_cost tour cost,
    dynamic_programming h cities edges = Ok (path, best_cost) ∧
    nearest_neighbor h cities edges None = Ok (tour, cost) ∧
    wle best_cost cost.

(** Three cities of which only 0 and 1 are linked. *)
Definition pair_edges : edge_table :=
  list_to_map [ ((0, 1), 1%Q); ((1, 0), 1%Q) ].


(** Every step of [tour] goes to a city that is reachable and nearest
    among the cities of [universe] not visited before the step. *)
Definition greedy_steps (edges : edge_table) (universe tour : list city) : Prop :=
  ∀ i a b, tour !! i = Some a → tour !! S i = Some b →
    get_distance edges a b ≠ Inf ∧
    ∀ c, c ∈ universe → c ∉ take (S i) tour →
         wle (get_distance edges a b) (get_distance edges a c).

(** The moves that one pass of [two_opt] tries on a tour of [len]
    cities: [i] in [range(1, len - 2)], [j] in [range(i + 1, len)],
    [j - i] not 1. *)
Definition two_opt_move (len i j : nat) : Prop :=
  1 ≤ i ∧ i < len - 2 ∧ i + 2 ≤ j ∧ j < len.



(** Every finite entry is accounted for: [dp[1][0]] is 0 and is the only
    finite entry that ends at index 0; any other finite [dp[m][j]] is
    the entry of its parent, in the mask without [j], plus the edge from
    the parent to [j], and that mask is at most [k]. *)
Definition exact_upto (cities : list city) (edges : edge_table) (k : nat)
    (st : dp_state) : Prop :=
  ∀ m j, dp_at st m j ≠ Inf →
    (j = 0 → m = 1 ∧ dp_at st m j = Fin 0) ∧
    (j ≠ 0 → ∃ l, tget None st.2 m j = Some l ∧
                  Nat.lxor m (2 ^ j) ≤ k ∧
                  dp_at st m j
                  = wadd (dp_at st (Nat.lxor m (2 ^ j)) l)
                         (dist_idx cities edges l j)).

Definition step_exact_in (cities : list city) (edges : edge_table)
    (n M last : nat) (st st' : dp_state) : Prop :=
  dp_inv n st → exact_upto cities edges M st → dp_at st M last ≠ Inf →
  dp_inv n st' ∧ exact_upto cities edges M st' ∧ later M st st'.

Definition step_exact_out (cities : list city) (edges : edge_table)
    (n M : nat) (st st' : dp_state) : Prop :=
  dp_inv n st → exact_upto cities edges M st →
  dp_inv n st' ∧ exact_upto cities edges M st' ∧ later M st st'.



(** [comp] is a voltage source between ground and the node [other]. *)
Definition grounded_source (ground other : Z) (comp : CircuitComponent) : Prop :=
  type comp = voltage_source ∧ other ≠ ground ∧
  (node1 comp = ground ∧ node2 comp = other
   ∨ node2 comp = ground ∧ node1 comp = other).

(** Both endpoints of every component are nodes of the circuit. *)
Definition endpoints_exist (nodes : list Z)
    (components : list CircuitComponent) : Prop :=
  Forall (λ comp, node1 comp ∈ nodes ∧ node2 comp ∈ nodes) components.


(** The callbacks Tk runs on a circuit window: a click on the canvas
    (with the content of the value entry at that moment), a mode radio
    button, the clear button. *)
Inductive circuit_event : Type :=
  | CanvasClick (value_entry : option Q) (x y : Z)
  | ChangeMode (mode_var : circuit_mode)
  | ClearCircuit.

Definition circuit_step (sqrt : Z → Q) (st : KirchhoffSimulator)
    (ev : circuit_event) : KirchhoffSimulator * option exn :=
  match ev with
  | CanvasClick value_entry x y => canvas_click sqrt value_entry x y st
  | ChangeMode mode_var => (change_mode mode_var st, None)
  | ClearCircuit => (clear_circuit st, None)
  end.

(** Tk's main loop: the callbacks run one after the other; an exception
    a callback raises is reported and the loop goes on from the state
    reached.  The result is the final state with the exceptions raised
    on the way. *)
Definition circuit_run (sqrt : Z → Q) (events : list circuit_event)
    (st : KirchhoffSimulator) : KirchhoffSimulator * list exn :=
  foldl (λ acc ev,
           let '(st', raised) := circuit_step sqrt acc.1 ev in
           (st', acc.2 ++ option_list raised))
        (st, []) events.

(** The callbacks Tk runs on a map window that edit the map: a click on
    the canvas (with the state of the auto-connect box and the content
    of the weight entry), a mode radio button, the clear button, the
    random-cities button (with the coordinates drawn). *)
Inductive map_event : Type :=
  | MapClick (auto_connect : bool) (weight_entry : option Q) (x y : Z)
  | MapChangeMode (mode_var : map_mode)
  | ClearAll
  | GenerateRandom (auto_connect : bool) (points : list (Z * Z)).

Definition map_step (sqrt : Z → Q) (st : TSPSimulator) (ev : map_event)
    : TSPSimulator :=
  match ev with
  | MapClick auto_connect weight_entry x y =>
      map_canvas_click sqrt auto_connect weight_entry x y st
  | MapChangeMode mode_var => change_map_mode mode_var st
  | ClearAll => clear_all st
  | GenerateRandom auto_connect points =>
      generate_random_cities sqrt auto_connect points st
  end.

Definition map_run (sqrt : Z → Q) (events : list map_event)
    (st : TSPSimulator) : TSPSimulator :=
  foldl (map_step sqrt) st events.

(** Every edge of the table joins two different cities of the list. *)
Definition edges_between (cities : list city) (edges : edge_table) : Prop :=
  map_Forall (λ k (_ : Q), k.1 ∈ cities ∧ k.2 ∈ cities ∧ k.1 ≠ k.2) edges.

(** An integer square root, for the examples. *)
Definition floor_sqrt (z : Z) : Q := inject_Z (Z.sqrt z).

(** The invariant of the circuit editor: node ids are distinct and below
    the counter, components join two different existing nodes, and a
    selected node exists and is never held in delete mode. *)
Definition circuit_ok (st : KirchhoffSimulator) : Prop :=
  NoDup (node_ids st) ∧
  Forall (λ k, (k < ks_node_counter st)%Z) (node_ids st) ∧
  endpoints_exist (node_ids st) (ks_components st) ∧
  Forall (λ c, node1 c ≠ node2 c) (ks_components st) ∧
  (∀ s, ks_selected_node st = Some s →
        s ∈ node_ids st ∧ ks_mode st ≠ ModeDelete).

(** The invariant of the map editor: city names are distinct and below
    the counter, the edge table is symmetric and joins different cities
    of the list, and a selected city is in the list and is never held in
    delete mode. *)
Definition map_ok (st : TSPSimulator) : Prop :=
  NoDup (city_ids st) ∧
  Forall (λ k, k < ts_city_counter st) (city_ids st) ∧
  symmetric_table (ts_edges st) ∧
  edges_between (city_ids st) (ts_edges st) ∧
  (∀ c, ts_selected_city st = Some c →
        c ∈ ts_cities st ∧ ts_mode st ≠ ModeDeleteCity).

(** A map of three cities with the single connection 0 - 1. *)
Definition stranded_map : TSPSimulator :=
  {| ts_cities := [ {| city_x := 0; city_y := 0; city_name := 0 |};
                    {| city_x := 100; city_y := 0; city_name := 1 |};
                    {| city_x := 0; city_y := 100; city_name := 2 |} ];
     ts_city_counter := 3; ts_edges := pair_edges; ts_mode := ModeAddEdge;
     ts_selected_city := None; ts_solution_path := [];
     ts_total_cost := Fin 0 |}.

(** weight(a, b) = weight(b, a) for all pairs present, in a table over
    any number type. *)
Definition symmetric_entries {N} (edges : gmap (city * city) N) : Prop :=
  map_Forall (λ k w, edges !! (k.2, k.1) = Some w) edges.

(** The sum does not depend on the order in which the terms are added. *)
Definition order_independent {N} (add : N → N → N) : Prop :=
  ∀ x y z, add (add x y) z = add (add x z) y.

(** Three cities at the distances 0.1, 0.2 and 0.3, in binary64. *)
Definition triangle_entries : list (city * city * float) :=
  [ ((0, 1), 0.1%float); ((1, 0), 0.1%float);
    ((1, 2), 0.2%float); ((2, 1), 0.2%float);
    ((2, 0), 0.3%float); ((0, 2), 0.3%float) ].

Definition triangle_floats : gmap (city * city) float :=
  list_to_map triangle_entries.

(** No weight of the table is negative. *)
Definition nonnegative_weights (edges : edge_table) : Prop :=
  map_Forall (λ _ w, (0 <= w)%Q) edges.

(** * Properties *)

(** ** Arithmetic of weights *)

Lemma Qltb_lt x y : Qltb x y = true ↔ (x < y)%Q.
Proof.
  unfold Qltb. rewrite negb_true_iff. split.
  - intros Hb. apply Qnot_le_lt. intros Hle. apply Qle_bool_iff in Hle. congruence.
  - intros Hlt. destruct (Qle_bool y x) eqn:E; [|done].
    apply Qle_bool_iff in E. exfalso. lra.
Qed.

Lemma Qltb_ge x y : Qltb x y = false ↔ (y <= x)%Q.
Proof.
  unfold Qltb. rewrite negb_false_iff. apply Qle_bool_iff.
Qed.

#[global] Instance weq_equiv : Equivalence weq.
Proof.
  split.
  - intros []; simpl; [reflexivity|done].
  - intros [] []; simpl; try done.
  - intros [] [] []; simpl; try done. intros H1 H2. by rewrite H1.
Qed.

#[global] Instance wadd_proper : Proper (weq ==> weq ==> weq) wadd.
Proof.
  intros [] [] H1 [] [] H2; simpl in *; try done. by rewrite H1, H2.
Qed.

Lemma wadd_comm a b : weq (wadd a b) (wadd b a).
Proof. destruct a, b; simpl; try done. ring. Qed.

Lemma wadd_assoc a b c : weq (wadd (wadd a b) c) (wadd a (wadd b c)).
Proof. destruct a, b, c; simpl; try done. ring. Qed.


#[global] Instance wle_preorder : PreOrder wle.
Proof.
  split.
  - intros []; simpl; [apply Qle_refl|done].
  - intros [] [] []; simpl; try done. apply Qle_trans.
Qed.

Lemma weq_wle a b : weq a b → wle a b.
Proof. destruct a, b; simpl; try done. intros ->. apply Qle_refl. Qed.

Lemma wadd_mono a a' b b' : wle a a' → wle b b' → wle (wadd a b) (wadd a' b').
Proof.
  destruct a, a', b, b'; simpl; try done. apply Qplus_le_compat.
Qed.

Lemma wltb_lt_le a b : wltb a b = true → wle a b.
Proof.
  destruct a, b; simpl; try done. intros Hlt%Qltb_lt. lra.
Qed.

Lemma wltb_false_le a b : wltb a b = false → wle b a.
Proof.
  destruct a, b; simpl; try done. intros Hge%Qltb_ge. done.
Qed.

Lemma wltb_irrefl a : wltb a a = false.
Proof. destruct a; simpl; [|done]. apply Qltb_ge. lra. Qed.

(** ** Sums of weights *)



(** ** The cost of a tour as a sum over its edges *)

Lemma successors_lookup path i :
  i < length path → successors path !! i = path !! ((i + 1) mod length path).
Proof.
  destruct path as [|x xs]; [simpl; lia|]. intros Hi.
  cbn [successors]. rewrite length_cons in *.
  destruct (decide (i = length xs)) as [->|Hne].
  - replace (length xs + 1) with (S (length xs)) by lia.
    rewrite Nat.Div0.mod_same.
    rewrite lookup_app_r by lia. by rewrite Nat.sub_diag.
  - rewrite Nat.mod_small by lia.
    replace (i + 1) with (S i) by lia.
    rewrite lookup_app_l by lia. done.
Qed.

Lemma length_successors path : length (successors path) = length path.
Proof. destruct path; simpl; [done|]. rewrite length_app. simpl. lia. Qed.

Lemma foldl_ext_in {A B} (f g : A → B → A) l :
  (∀ a x, x ∈ l → f a x = g a x) → ∀ a, foldl f a l = foldl g a l.
Proof.
  induction l as [|x l IH]; intros Hfg a; simpl; [done|].
  rewrite Hfg by apply list_elem_of_here.
  apply IH. intros ???. apply Hfg. by apply list_elem_of_further.
Qed.

Lemma calculate_path_cost_sum edges path :
  calculate_path_cost edges path = wsum (step_weights (get_distance edges) path).
Proof.
  unfold calculate_path_cost, wsum, step_weights.
  set (g := λ i, match path !! i, successors path !! i with
                 | Some a, Some b => get_distance edges a b
                 | _, _ => Fin 0
                 end).
  assert (Hmap : zip_with (get_distance edges) path (successors path)
                 = g <$> seq 0 (length path)).
  { apply list_eq. intros i. rewrite lookup_zip_with, list_lookup_fmap.
    destruct (decide (i < length path)) as [Hi|Hi].
    - rewrite lookup_seq_lt by done. simpl. unfold g.
      destruct (lookup_lt_is_Some_2 path i Hi) as [a ->].
      destruct (lookup_lt_is_Some_2 (successors path) i) as [b ->];
        [by rewrite length_successors|]. done.
    - rewrite lookup_seq_ge by lia.
      rewrite (lookup_ge_None_2 path) by lia. done. }
  rewrite Hmap, foldl_fmap.
  apply foldl_ext_in. intros a i [_ Hi]%elem_of_seq. simpl in Hi.
  unfold g. rewrite <- successors_lookup by lia.
  destruct (lookup_lt_is_Some_2 path i) as [x ->]; [lia|].
  destruct (lookup_lt_is_Some_2 (successors path) i) as [b ->];
    [rewrite length_successors; lia|]. done.
Qed.


Lemma zip_with_app_short {A B C} (f : A → B → C) l l' k :
  length k ≤ length l → zip_with f (l ++ l') k = zip_with f l k.
Proof.
  revert k. induction l as [|x l IH]; intros [|y k] Hlen; simpl in *;
    try done; try lia.
  - by destruct l'.
  - f_equal. apply IH. lia.
Qed.

Lemma step_weights_chain {N} (f : city → city → N) x xs :
  step_weights f (x :: xs) = chain_weights f (x :: xs ++ [x]).
Proof.
  unfold step_weights, chain_weights.
  cbn [successors tail]. rewrite app_comm_cons.
  rewrite zip_with_app_short; [done|].
  rewrite length_app. simpl. lia.
Qed.

Lemma chain_weights_app {N} (f : city → city → N) l1 y l2 :
  chain_weights f (l1 ++ y :: l2)
  = chain_weights f (l1 ++ [y]) ++ chain_weights f (y :: l2).
Proof.
  unfold chain_weights.
  induction l1 as [|x l1 IH]; simpl; [done|].
  destruct l1 as [|x' l1]; simpl in *; [done|].
  f_equal. apply IH.
Qed.

Lemma chain_weights_rev {N} (f : city → city → N) l :
  chain_weights f (rev l) = rev (chain_weights (flip f) l).
Proof.
  induction l as [|x l IH]; [done|].
  destruct l as [|y l]; [done|].
  change (rev (x :: y :: l)) with (rev (y :: l) ++ [x]).
  change (rev (y :: l)) with (rev l ++ [y]) at 1.
  rewrite <- app_assoc. simpl ((_ :: _) ++ _).
  rewrite chain_weights_app.
  change (rev l ++ [y]) with (rev (y :: l)). rewrite IH.
  change (chain_weights (flip f) (x :: y :: l))
    with (flip f x y :: chain_weights (flip f) (y :: l)).
  simpl rev at 2. done.
Qed.

Lemma step_weights_app_comm {N} (f : city → city → N) (a b : list city) :
  step_weights f (a ++ b) ≡ₚ step_weights f (b ++ a).
Proof.
  destruct a as [|x a]; [by rewrite app_nil_r|].
  destruct b as [|y b]; [by rewrite app_nil_r|].
  simpl. rewrite !step_weights_chain.
  replace (x :: (a ++ y :: b) ++ [x]) with ((x :: a) ++ y :: (b ++ [x]))
    by (simpl; by rewrite <- app_assoc).
  replace (y :: (b ++ x :: a) ++ [y]) with ((y :: b) ++ x :: (a ++ [y]))
    by (simpl; by rewrite <- app_assoc).
  rewrite (chain_weights_app f (x :: a) y (b ++ [x])).
  rewrite (chain_weights_app f (y :: b) x (a ++ [y])).
  apply Permutation_app_comm.
Qed.


(** ** Rotation and reversal of a tour *)

Section any_arithmetic.
Context {N : Type}.
Variables (zero inf : N) (add : N → N → N).

Lemma calculate_path_cost_in_sum (edges : gmap (city * city) N) path :
  calculate_path_cost_in zero inf add edges path
  = foldl add zero (step_weights (get_distance_in inf edges) path).
Proof.
  unfold calculate_path_cost_in, step_weights.
  set (f := get_distance_in inf edges).
  set (g := λ i, match path !! i, successors path !! i with
                 | Some a, Some b => f a b
                 | _, _ => zero
                 end).
  assert (Hmap : zip_with f path (successors path)
                 = g <$> seq 0 (length path)).
  { apply list_eq. intros i. rewrite lookup_zip_with, list_lookup_fmap.
    destruct (decide (i < length path)) as [Hi|Hi].
    - rewrite lookup_seq_lt by done. simpl. unfold g.
      destruct (lookup_lt_is_Some_2 path i Hi) as [a ->].
      destruct (lookup_lt_is_Some_2 (successors path) i) as [b ->];
        [by rewrite length_successors|]. done.
    - rewrite lookup_seq_ge by lia.
      rewrite (lookup_ge_None_2 path) by lia. done. }
  rewrite Hmap, foldl_fmap.
  apply foldl_ext_in. intros a i [_ Hi]%elem_of_seq. simpl in Hi.
  unfold g. rewrite <- successors_lookup by lia.
  destruct (lookup_lt_is_Some_2 path i) as [x ->]; [lia|].
  destruct (lookup_lt_is_Some_2 (successors path) i) as [b ->];
    [rewrite length_successors; lia|]. done.
Qed.

Lemma foldl_add_perm l l' :
  order_independent add → l ≡ₚ l' → ∀ a, foldl add a l = foldl add a l'.
Proof.
  intros Hadd.
  induction 1 as [|x l l' _ IH|x y l|l1 l2 l3 _ IH1 _ IH2]; intros a; simpl.
  - done.
  - apply IH.
  - by rewrite Hadd.
  - by rewrite IH1.
Qed.

Lemma get_distance_in_sym (edges : gmap (city * city) N) a b :
  symmetric_entries edges →
  get_distance_in inf edges a b = get_distance_in inf edges b a.
Proof.
  intros Hs. unfold get_distance_in.
  destruct (edges !! (a, b)) as [w|] eqn:Eab.
  - pose proof (Hs (a, b) w Eab) as Hba. simpl in Hba. by rewrite Hba.
  - destruct (edges !! (b, a)) as [w|] eqn:Eba; [|done].
    pose proof (Hs (b, a) w Eba) as Hab. simpl in Hab. congruence.
Qed.

Lemma chain_weights_flip_sym (f : city → city → N) l :
  (∀ a b, f a b = f b a) → chain_weights (flip f) l = chain_weights f l.
Proof.
  intros Hf. unfold chain_weights.
  generalize (tail l). induction l as [|x l IH]; intros [|y k]; simpl;
    try done.
  f_equal; [apply Hf|apply IH].
Qed.

Lemma step_weights_rotate (f : city → city → N) k tour :
  step_weights f (rotate k tour) ≡ₚ step_weights f tour.
Proof.
  unfold rotate. rewrite step_weights_app_comm. by rewrite take_drop.
Qed.

Lemma step_weights_rev (f : city → city → N) tour :
  (∀ a b, f a b = f b a) →
  step_weights f (rev tour) ≡ₚ step_weights f tour.
Proof.
  intros Hf. destruct tour as [|x xs]; [done|].
  change (rev (x :: xs)) with (rev xs ++ [x]).
  rewrite step_weights_app_comm. simpl.
  rewrite !step_weights_chain.
  replace (x :: rev xs ++ [x]) with (rev (x :: xs ++ [x])).
  2:{ simpl. by rewrite rev_app_distr. }
  rewrite chain_weights_rev, <- Permutation_rev.
  by rewrite chain_weights_flip_sym.
Qed.
End any_arithmetic.

Lemma calculate_path_cost_instance edges path :
  calculate_path_cost edges path
  = calculate_path_cost_in (Fin 0) Inf wadd (Fin <$> edges) path.
Proof.
  unfold calculate_path_cost, calculate_path_cost_in.
  apply foldl_ext_in. intros cost i _.
  destruct (path !! i) as [a|]; [|done].
  destruct (path !! ((i + 1) mod length path)) as [b|]; [|done].
  f_equal. unfold get_distance, get_distance_in.
  rewrite lookup_fmap. by destruct (edges !! (a, b)).
Qed.

Lemma wadd_order_independent : order_independent wadd.
Proof.
  intros [[xn xd]|] [[yn yd]|] [[zn zd]|]; simpl; try done.
  f_equal. unfold Qplus. simpl. f_equal.
  - rewrite !Pos2Z.inj_mul. ring.
  - apply Pos2Z.inj. rewrite !Pos2Z.inj_mul. ring.
Qed.

Lemma symmetric_entries_fmap (edges : edge_table) :
  symmetric_entries edges → symmetric_entries (Fin <$> edges).
Proof.
  intros Hs [a b] w Hw. simpl. rewrite lookup_fmap in *.
  destruct (edges !! (a, b)) as [q|] eqn:E; [|done].
  injection Hw as <-. pose proof (Hs (a, b) q E) as Hba. simpl in Hba.
  by rewrite Hba.
Qed.

(** C8 (amended): over a symmetric edge table every cyclic rotation and
    the reversal of a tour add up the same edge weights as the tour, in
    another order: [calculate_path_cost] is the sum from left to right
    of the weights along the cycle, and the weights along a rotation or
    the reversal are a rearrangement of those along the tour.  The cost
    is therefore the same whenever the sum does not depend on the order
    of the additions, as in exact arithmetic; this holds for any
    arithmetic, binary64 included. *)
Theorem tour_cost_rotation_reversal {N} (zero inf : N) (add : N → N → N)
    (edges : gmap (city * city) N) (tour : list city) (k : nat) :
  symmetric_entries edges →
  let cost := calculate_path_cost_in zero inf add edges in
  let weights := step_weights (get_distance_in inf edges) in
  (∀ path, cost path = foldl add zero (weights path)) ∧
  weights (rotate k tour) ≡ₚ weights tour ∧
  weights (rev tour) ≡ₚ weights tour ∧
  (order_independent add →
   cost (rotate k tour) = cost tour ∧ cost (rev tour) = cost tour).
Proof.
  intros Hs cost weights.
  assert (Hrot : weights (rotate k tour) ≡ₚ weights tour)
    by apply step_weights_rotate.
  assert (Hrev : weights (rev tour) ≡ₚ weights tour).
  { apply step_weights_rev. intros a b. by apply get_distance_in_sym. }
  split; [apply calculate_path_cost_in_sum|].
  split; [done|]. split; [done|].
  intros Hadd. unfold cost. rewrite !calculate_path_cost_in_sum.
  split; by apply foldl_add_perm.
Qed.

Lemma tour_cost_rotation_reversal_witness :
  calculate_path_cost square_edges (rotate 3 [0; 2; 1; 3])
  = calculate_path_cost square_edges [0; 2; 1; 3]
  ∧ calculate_path_cost square_edges (rev [0; 2; 1; 3])
    = calculate_path_cost square_edges [0; 2; 1; 3].
Proof.
  rewrite !calculate_path_cost_instance.
  apply (tour_cost_rotation_reversal (Fin 0) Inf wadd (Fin <$> square_edges)).
  - apply symmetric_entries_fmap, map_Forall_to_list.
    vm_compute. repeat constructor.
  - apply wadd_order_independent.
Defined.

(** C8 as stated fails: in binary64 the tour [0; 1; 2] over a symmetric
    table with the weights 0.1, 0.2 and 0.3 costs
    ((0 + 0.1) + 0.2) + 0.3 = 0.6000000000000001, and its rotation
    [1; 2; 0] costs ((0 + 0.2) + 0.3) + 0.1 = 0.6. *)
Theorem tour_cost_differs_for_a_rotation :
  symmetric_entries triangle_floats ∧
  float_path_cost triangle_floats [0; 1; 2] = 0.6000000000000001%float ∧
  float_path_cost triangle_floats (rotate 1 [0; 1; 2]) = 0.6%float ∧
  float_path_cost triangle_floats (rotate 1 [0; 1; 2])
  ≠ float_path_cost triangle_floats [0; 1; 2].
Proof.
  split; [apply map_Forall_to_list; vm_compute; repeat constructor|].
  split; [vm_compute; reflexivity|].
  split; [vm_compute; reflexivity|].
  intros Heq.
  apply (f_equal (λ x, PrimFloat.eqb x
                         (float_path_cost triangle_floats [0; 1; 2]))) in Heq.
  vm_compute in Heq. discriminate Heq.
Qed.

(** ** Nearest neighbour *)

Lemma wltb_Inf_r_false a : wltb a Inf = false → a = Inf.
Proof. by destruct a. Qed.

Lemma scan_nearest_acc edges current l :
  ∀ acc : option city * weight,
    let r := foldl (λ (acc : option city * weight) city,
                      let dist := get_distance edges current city in
                      if wltb dist acc.2 then (Some city, dist) else acc) acc l in
    (r.1 = None →
       acc.1 = None ∧
       (acc.2 = Inf → ∀ c, c ∈ l → get_distance edges current c = Inf)) ∧
    (∀ c, r.1 = Some c → acc.1 = Some c ∨ c ∈ l).
Proof.
  induction l as [|x l IH]; intros acc; simpl.
  - split; [|by left]. intros Hn. split; [done|]. intros _ c Hc.
    by apply elem_of_nil in Hc.
  - destruct (IH (if wltb (get_distance edges current x) acc.2
                  then (Some x, get_distance edges current x) else acc))
      as [HNone HSome].
    split.
    + intros Hr. destruct (HNone Hr) as [Hacc Hall].
      destruct (wltb (get_distance edges current x) acc.2) eqn:Ex; [done|].
      split; [done|]. intros Hinf c [->|Hc]%elem_of_cons.
      * rewrite Hinf in Ex. by apply wltb_Inf_r_false.
      * by apply Hall.
    + intros c Hr. destruct (HSome c Hr) as [Hacc|Hc].
      * destruct (wltb (get_distance edges current x) acc.2); simpl in Hacc.
        -- injection Hacc as ->. right. apply list_elem_of_here.
        -- by left.
      * right. by apply list_elem_of_further.
Qed.

Lemma scan_nearest_None edges current unvisited :
  (scan_nearest edges current unvisited).1 = None →
  ∀ c, c ∈ unvisited → get_distance edges current c = Inf.
Proof.
  intros Hn. destruct (scan_nearest_acc edges current unvisited (None, Inf))
    as [HNone _].
  destruct (HNone Hn) as [_ Hall]. by apply Hall.
Qed.

Lemma scan_nearest_Some edges current unvisited c :
  (scan_nearest edges current unvisited).1 = Some c → c ∈ unvisited.
Proof.
  intros Hs. destruct (scan_nearest_acc edges current unvisited (None, Inf))
    as [_ HSome].
  by destruct (HSome c Hs).
Qed.

Lemma length_filter_remove (x : city) l :
  x ∈ l → length (filter (λ c, c ≠ x) l) < length l.
Proof.
  induction l as [|y l IH]; [by intros ?%elem_of_nil|].
  intros Hx. rewrite filter_cons. destruct (decide (y ≠ x)) as [Hne|Heq]; simpl.
  - apply elem_of_cons in Hx as [->|Hx]; [done|]. specialize (IH Hx). lia.
  - pose proof (length_filter (λ c, c ≠ x) l). lia.
Qed.

Lemma nn_while_spec edges fuel :
  ∀ unvisited path current,
    length unvisited ≤ fuel →
    NoDup unvisited → NoDup path →
    (∀ c, c ∈ path → c ∉ unvisited) →
    last path = Some current →
    let tour := nn_while edges fuel unvisited path current in
    path `prefix_of` tour ∧
    NoDup tour ∧
    (∀ c, c ∈ tour → c ∈ path ∨ c ∈ unvisited) ∧
    length tour ≤ length path + length unvisited ∧
    ∃ stop, last tour = Some stop ∧
            ∀ c, c ∈ unvisited → c ∉ tour → get_distance edges stop c = Inf.
Proof.
  induction fuel as [|fuel IH]; intros unvisited path current Hfuel Hu Hp Hdisj Hlast.
  - destruct unvisited; [|simpl in Hfuel; lia]. simpl.
    repeat split; [done|done|by left|lia|].
    exists current. split; [done|]. by intros c ?%elem_of_nil.
  - simpl. destruct unvisited as [|u us] eqn:Eu.
    { repeat split; [done|done|by left|simpl; lia|].
      exists current. split; [done|]. by intros c ?%elem_of_nil. }
    rewrite <- Eu in *. clear Eu u us.
    destruct (scan_nearest edges current unvisited).1 as [nearest|] eqn:Escan.
    + pose proof (scan_nearest_Some _ _ _ _ Escan) as Hin.
      pose proof (length_filter_remove nearest unvisited Hin) as Hlen.
      destruct (IH (filter (λ c, c ≠ nearest) unvisited) (path ++ [nearest]) nearest)
        as (Hpre & Hnd & Hsub & Hle & stop & Hstop & Hinf).
      * lia.
      * by apply NoDup_filter.
      * apply NoDup_app. split; [done|]. split; [|apply NoDup_singleton].
        intros c Hc ->%list_elem_of_singleton. by apply (Hdisj nearest).
      * intros c [Hc| ->%list_elem_of_singleton]%elem_of_app
               [Hc' Hne]%list_elem_of_filter; [by apply (Hdisj c)|done].
      * by rewrite last_snoc.
      * split; [|split; [|split; [|split]]].
        -- etrans; [|exact Hpre]. by apply prefix_app_r.
        -- done.
        -- intros c Hc. destruct (Hsub c Hc) as [Hc'|Hc'].
           ++ apply elem_of_app in Hc' as [?| ->%list_elem_of_singleton];
                [by left|by right].
           ++ right. by apply list_elem_of_filter in Hc' as [_ ?].
        -- rewrite length_app in Hle. simpl in Hle. lia.
        -- exists stop. split; [done|]. intros c Hc Hnot.
           apply Hinf; [|done]. apply list_elem_of_filter. split; [|done].
           intros ->. apply Hnot. destruct Hpre as [k ->].
           apply elem_of_app. left. apply elem_of_app. right.
           apply list_elem_of_here.
    + repeat split; [done|done|by left|lia|].
      exists current. split; [done|]. intros c Hc _.
      by apply (scan_nearest_None edges current unvisited).
Qed.

Lemma set_iter_NoDup h cities : NoDup (set_iter h cities).
Proof.
  unfold set_iter. rewrite merge_sort_Permutation. apply NoDup_remove_dups.
Qed.

Lemma elem_of_set_iter h cities c : c ∈ set_iter h cities ↔ c ∈ cities.
Proof.
  unfold set_iter. rewrite merge_sort_Permutation. apply elem_of_remove_dups.
Qed.

Lemma length_set_iter h cities :
  length (set_iter h cities) = length (remove_dups cities).
Proof. unfold set_iter. by rewrite merge_sort_Permutation. Qed.


(** The default call starts at the first city and succeeds. *)
Lemma nearest_neighbor_default h first rest edges :
  let unvisited := filter (λ c, c ≠ first) (set_iter h (first :: rest)) in
  let path := nn_while edges (length unvisited) unvisited [first] first in
  nearest_neighbor h (first :: rest) edges None
  = Ok (path, calculate_path_cost edges path).
Proof.
  intros unvisited path. unfold nearest_neighbor. simpl.
  rewrite decide_True; [done|]. apply elem_of_set_iter, list_elem_of_here.
Qed.

Lemma nearest_neighbor_spec h cities edges :
  cities ≠ [] →
  ∃ tour stop,
    nearest_neighbor h cities edges None
    = Ok (tour, calculate_path_cost edges tour) ∧
    NoDup tour ∧
    (∀ c, c ∈ tour → c ∈ cities) ∧
    head tour = head cities ∧
    last tour = Some stop ∧
    length tour ≤ length (remove_dups cities) ∧
    ∀ c, c ∈ cities → c ∉ tour → get_distance edges stop c = Inf.
Proof.
  destruct cities as [|first rest]; [done|]. intros _.
  rewrite nearest_neighbor_default.
  set (unvisited := filter (λ c, c ≠ first) (set_iter h (first :: rest))).
  destruct (nn_while_spec edges (length unvisited) unvisited [first] first)
    as (Hpre & Hnd & Hsub & Hle & stop & Hstop & Hinf).
  - done.
  - apply NoDup_filter, set_iter_NoDup.
  - apply NoDup_singleton.
  - intros c ->%list_elem_of_singleton [Hne _]%list_elem_of_filter. done.
  - done.
  - eexists _, stop. split; [reflexivity|].
    split; [done|]. split; [|split; [|split; [done|split]]].
    + intros c Hc. destruct (Hsub c Hc) as [->%list_elem_of_singleton|Hc'].
      * apply list_elem_of_here.
      * apply list_elem_of_filter in Hc' as [_ Hc'].
        by apply elem_of_set_iter in Hc'.
    + destruct Hpre as [k ->]. done.
    + rewrite <- (length_set_iter h).
      assert (Hin : first ∈ set_iter h (first :: rest))
        by apply elem_of_set_iter, list_elem_of_here.
      pose proof (length_filter_remove first _ Hin) as Hlt.
      fold unvisited in Hlt. simpl in Hle. lia.
    + intros c Hc Hnot. apply Hinf; [|done].
      apply list_elem_of_filter. split.
      * intros ->. apply Hnot. destruct Hpre as [k ->]. apply list_elem_of_here.
      * by apply elem_of_set_iter.
Qed.

Lemma remove_dups_NoDup (l : list city) : NoDup l → remove_dups l = l.
Proof.
  induction 1 as [|x l Hx _ IH]; simpl; [done|].
  destruct (decide_rel elem_of x l); [done|]. by rewrite IH.
Qed.

Lemma NoDup_incl_full (tour cities : list city) :
  NoDup tour → (∀ c, c ∈ tour → c ∈ cities) →
  length cities ≤ length tour → ∀ c, c ∈ cities → c ∈ tour.
Proof.
  intros Hnd Hsub Hlen c Hc.
  assert (Hsm : tour ⊆+ cities) by by apply NoDup_submseteq.
  assert (Hp : tour ≡ₚ cities) by by apply submseteq_length_Permutation.
  by rewrite Hp.
Qed.

(** C2 (as amended): on a non-empty list of distinct cities
    [nearest_neighbor] returns a duplicate-free tour over the input
    cities that starts at the first city; either it has the length of
    the input and holds every city, or it is strictly shorter, and then
    every omitted city is at infinite distance from the last city of
    the tour, where the search stopped. *)
Theorem nearest_neighbor_full_or_stuck h cities edges :
  cities ≠ [] → NoDup cities →
  ∃ tour stop,
    nearest_neighbor h cities edges None
    = Ok (tour, calculate_path_cost edges tour) ∧
    NoDup tour ∧
    (∀ c, c ∈ tour → c ∈ cities) ∧
    head tour = head cities ∧
    last tour = Some stop ∧
    ((length tour = length cities ∧ ∀ c, c ∈ cities → c ∈ tour)
     ∨ (length tour < length cities ∧
        (∃ c, c ∈ cities ∧ c ∉ tour) ∧
        ∀ c, c ∈ cities → c ∉ tour → get_distance edges stop c = Inf)).
Proof.
  intros Hne Hnd.
  destruct (nearest_neighbor_spec h cities edges Hne)
    as (tour & stop & Heq & Hndt & Hsub & Hhead & Hlast & Hlen & Hinf).
  exists tour, stop. do 5 (split; [done|]).
  rewrite (remove_dups_NoDup cities Hnd) in Hlen.
  destruct (decide (length tour = length cities)) as [Hfull|Hshort].
  - left. split; [done|]. apply NoDup_incl_full; [done|done|lia].
  - right. split; [lia|]. split; [|done].
    destruct (decide (Forall (λ c, c ∈ tour) cities)) as [Hall|Hsome].
    + exfalso. apply Hshort.
      assert (Hsm : cities ⊆+ tour).
      { apply NoDup_submseteq; [done|]. by apply Forall_forall. }
      apply submseteq_length in Hsm. lia.
    + apply not_Forall_Exists in Hsome; [|apply _].
      apply Exists_exists in Hsome as (c & Hc & Hnot). by exists c.
Qed.

Lemma nearest_neighbor_full_or_stuck_witness :
  ∃ tour stop,
    nearest_neighbor id [0; 1; 2] fork_edges None
    = Ok (tour, calculate_path_cost fork_edges tour) ∧
    NoDup tour ∧
    (∀ c, c ∈ tour → c ∈ [0; 1; 2]) ∧
    head tour = head [0; 1; 2] ∧
    last tour = Some stop ∧
    ((length tour = length [0; 1; 2] ∧ ∀ c, c ∈ [0; 1; 2] → c ∈ tour)
     ∨ (length tour < length [0; 1; 2] ∧
        (∃ c, c ∈ [0; 1; 2] ∧ c ∉ tour) ∧
        ∀ c, c ∈ [0; 1; 2] → c ∉ tour → get_distance fork_edges stop c = Inf)).
Proof.
  apply nearest_neighbor_full_or_stuck.
  - discriminate.
  - apply (bool_decide_unpack _). vm_compute. exact I.
Defined.

Lemma fork_tour :
  nearest_neighbor id [0; 1; 2] fork_edges None = Ok ([0; 1], Fin 2).
Proof. vm_compute. reflexivity. Qed.

(** C2 as stated fails: city 2 is omitted although it is at distance 5
    from the visited city 0; the search stopped at city 1, from which
    city 2 cannot be reached. *)
Theorem nearest_neighbor_omits_a_reachable_city :
  ¬ omits_only_unreachable id [0; 1; 2] fork_edges.
Proof.
  intros (tour & cost & Heq & Hcase).
  rewrite fork_tour in Heq. injection Heq as <- <-.
  destruct Hcase as [Hlen|[_ Hom]]; [discriminate Hlen|].
  destruct (Hom 2) as [Hunreach _].
  - apply list_elem_of_In. simpl. tauto.
  - assert (Hnot : 2 ∉ [0; 1]).
    { intros Hin. apply list_elem_of_In in Hin. simpl in Hin.
      destruct Hin as [|[|[]]]; discriminate. }
    specialize (Hunreach Hnot 0 (list_elem_of_here _ _)).
    vm_compute in Hunreach. discriminate Hunreach.
Qed.

(** ** Delegation of the exact solver above the ceiling *)

(** C9: with more than 20 cities [dynamic_programming] returns exactly
    what [nearest_neighbor] returns on the same instance. *)
Theorem dynamic_programming_delegates_above_20 h cities edges :
  20 < length cities →
  dynamic_programming h cities edges = nearest_neighbor h cities edges None.
Proof.
  intros Hn. unfold dynamic_programming.
  destruct (Nat.ltb_spec (length cities) 2) as [Hlt|_]; [lia|].
  destruct (Nat.ltb_spec 20 (length cities)) as [_|Hle]; [done|lia].
Qed.

Lemma dynamic_programming_delegates_above_20_witness :
  dynamic_programming id (seq 0 21) {[ (0, 1) := 1%Q ]}
  = nearest_neighbor id (seq 0 21) {[ (0, 1) := 1%Q ]} None.
Proof.
  apply dynamic_programming_delegates_above_20. simpl. lia.
Defined.

(** ** Voltage sources in the assembly *)

(** C10: a voltage source with neither endpoint at ground leaves [G]
    and [I] as they were, and raises nothing. *)
Theorem floating_source_is_skipped ground node_list n G I comp :
  type comp = voltage_source →
  node1 comp ≠ ground →
  node2 comp ≠ ground →
  process_component ground node_list n (G, I) comp = Ok (G, I).
Proof.
  intros Ht H1 H2. unfold process_component, stamp_voltage_source.
  rewrite Ht. simpl. by rewrite !bool_decide_false.
Qed.

Lemma floating_source_is_skipped_witness :
  process_component 0 [1; 2]%Z 2
    ([[1; 0]; [0; 1]]%Q, [5; 0]%Q) (mk_component 1 2 9 voltage_source)
  = Ok ([[1; 0]; [0; 1]]%Q, [5; 0]%Q).
Proof.
  apply floating_source_is_skipped; [reflexivity | simpl; lia | simpl; lia].
Defined.

(** The assembly of the two-node circuit with the source listed before
    the resistor: the resistor's stamp lands on the pinned row. *)
Lemma assemble_source_then_resistor :
  assemble [0; 1]%Z
    [mk_component 0 1 5 voltage_source; mk_component 0 1 10 resistor] 0
  = Ok ([[11 # 10]], [5%Q]).
Proof. vm_compute. reflexivity. Qed.

(** C3 (fails on the code): a grounded source listed before a resistor
    on the same node does not keep its identity row. *)
Theorem source_row_overwritten_by_later_resistor :
  ¬ sources_pin_their_nodes [0; 1]%Z
      [mk_component 0 1 5 voltage_source; mk_component 0 1 10 resistor] 0.
Proof.
  intros Hpin.
  destruct (Hpin [[11 # 10]] [5%Q] (mk_component 0 1 5 voltage_source) 1%Z 0)
    as (row & v & Hrow & [_ Hid] & _).
  - apply assemble_source_then_resistor.
  - apply list_elem_of_here.
  - reflexivity.
  - left. split; reflexivity.
  - lia.
  - vm_compute. reflexivity.
  - simpl in Hrow. injection Hrow as <-.
    specialize (Hid 0). vm_compute in Hid.
    assert (Hlt : 0 < 1) by lia. specialize (Hid Hlt). discriminate Hid.
Qed.

(** ** The two-node scenario *)

(** With the resistor drawn before the source the circuit solves to the
    values of the scenario: V(1) = 5, |current| = 0.5, power = 2.5,
    whichever way round each component was drawn. *)
Lemma two_node_scenario (r_flip s_flip : bool) :
  ∃ voltage_dict components abs_current power,
    calculate_circuit [0; 1]%Z (two_node_circuit r_flip s_flip) (Some 0%Z)
    = Solved voltage_dict components
        [ResistorBranch 0 10 abs_current power; SourceBranch 1 5] ∧
    voltage_dict !! 1%Z = Some 5%Q ∧
    voltage_dict !! 0%Z = Some 0%Q ∧
    (abs_current == 1 # 2)%Q ∧
    (power == 5 # 2)%Q.
Proof.
  destruct r_flip, s_flip; vm_compute;
    (do 4 eexists; split; [reflexivity|]); repeat split; discriminate.
Qed.

(** C5 (fails on the code): the same circuit, nodes {0, 1}, ground 0, a
    5 V source between ground and node 1 and a 10 ohm resistor between
    the two nodes, with the source drawn before the resistor: the
    resistor's stamp lands on the row the source has pinned, and the
    solve gives V(1) = 50/11, a current of 5/11 A and a power of
    250/121 W instead of 5 V, 0.5 A and 2.5 W, whichever way round each
    component was drawn. *)
Theorem two_node_scenario_source_first (r_flip s_flip : bool) :
  ∃ voltage_dict components v1 abs_current power,
    calculate_circuit [0; 1]%Z (rev (two_node_circuit r_flip s_flip))
                      (Some 0%Z)
    = Solved voltage_dict components
        [SourceBranch 0 5; ResistorBranch 1 10 abs_current power] ∧
    voltage_dict !! 1%Z = Some v1 ∧
    (v1 == 50 # 11)%Q ∧ ¬ (v1 == 5)%Q ∧
    (abs_current == 5 # 11)%Q ∧ ¬ (abs_current == 1 # 2)%Q ∧
    (power == 250 # 121)%Q ∧ ¬ (power == 5 # 2)%Q.
Proof.
  destruct r_flip, s_flip; vm_compute;
    (do 5 eexists; split; [reflexivity|]); repeat split; discriminate.
Qed.

(** ** The genetic algorithm without a generation *)

Section genetic_zero.
Context {R : Type} `{RandomSource R}.

(** No generation runs, [best_tour] is still [None] and
    [calculate_path_cost(None)] raises. *)
Lemma genetic_algorithm_zero_generations cities edges population_size
    mutation_rate (r : R) :
  2 ≤ length cities →
  genetic_algorithm cities edges population_size mutation_rate 0 r
  = Raise TypeError.
Proof.
  intros Hn. unfold genetic_algorithm.
  destruct (Nat.ltb_spec (length cities) 2) as [Hlt|_]; [lia|].
  destruct (init_population cities population_size r) as [pop r'].
  reflexivity.
Qed.
End genetic_zero.

(** C6 (fails on the code): with [generations = 0] and two connected
    cities the call raises [TypeError] instead of returning a tour. *)
Theorem genetic_algorithm_generations_0_raises :
  genetic_algorithm [0; 1] {[ (0, 1) := 3%Q; (1, 0) := 3%Q ]} 100 (1 # 100) 0 0
  = Raise TypeError.
Proof. by apply genetic_algorithm_zero_generations. Qed.

(** ** The linear solve on a matrix with a zero row *)

Lemma pick_pivot_perm c rows p rest :
  pick_pivot c rows = Some (p, rest) → rows ≡ₚ p :: rest.
Proof.
  revert p rest. induction rows as [|r rs IH]; intros p rest; simpl; [done|].
  destruct (pick_pivot c rs) as [[q rs']|] eqn:E.
  - destruct (Qle_bool _ _); intros [= <- <-]; [done|].
    rewrite (IH _ _ eq_refl). apply Permutation_swap.
  - intros [= <- <-]. destruct rs; [done|]. simpl in E.
    destruct (pick_pivot c rs) as [[??]|]; [destruct (Qle_bool _ _)|]; done.
Qed.

Lemma pick_pivot_None c rows : pick_pivot c rows = None → rows = [].
Proof.
  destruct rows as [|r rs]; [done|]. simpl.
  destruct (pick_pivot c rs) as [[??]|]; [destruct (Qle_bool _ _)|]; done.
Qed.

Lemma entry_row_sub k p r j :
  (k == 0)%Q → (entry j r == 0)%Q → (entry j (row_sub k p r) == 0)%Q.
Proof.
  unfold entry, row_sub. intros Hk. revert p j.
  induction r as [|x r IH]; intros [|y p] [|j]; simpl; intros Hj;
    try reflexivity.
  - rewrite Hj, Hk. ring.
  - by apply IH.
Qed.

Lemma zero_row_clear n c p r :
  c < n → zero_row n r → zero_row n (row_sub (entry c r) p r).
Proof.
  intros Hc Hz j Hj. apply entry_row_sub; [by apply Hz|by apply Hz].
Qed.

Lemma gauss_jordan_zero_row n steps :
  ∀ c done rest,
    length rest = steps → c + steps ≤ n →
    Exists (zero_row n) rest →
    gauss_jordan steps c done rest = None.
Proof.
  induction steps as [|steps IH]; intros c done rest Hlen Hc Hz.
  - destruct rest; [|done]. by apply Exists_nil in Hz.
  - simpl. destruct (pick_pivot c rest) as [[p rest']|] eqn:Ep; [|done].
    destruct (Qeq_bool (entry c p) 0) eqn:Epiv; [done|].
    pose proof (pick_pivot_perm _ _ _ _ Ep) as Hperm.
    apply IH.
    + rewrite length_map. rewrite Hperm in Hlen. simpl in Hlen. lia.
    + lia.
    + rewrite Hperm in Hz. apply Exists_cons in Hz as [Hp|Hz].
      * exfalso. assert (Hcp : (entry c p == 0)%Q) by (apply Hp; lia).
        apply Qeq_bool_iff in Hcp. congruence.
      * apply Exists_exists in Hz as (z & Hin & Hzz).
        apply Exists_exists. eexists. split.
        -- apply list_elem_of_fmap. exists z. split; [reflexivity|done].
        -- apply zero_row_clear; [lia|done].
Qed.

Lemma entry_zero_app n b j : j < n → entry j (replicate n 0%Q ++ [b]) = 0%Q.
Proof.
  intros Hj. unfold entry. rewrite app_nth1 by (rewrite length_replicate; lia).
  revert j Hj. induction n as [|n IH]; intros [|j] Hj; simpl; try lia; [done|].
  apply IH. lia.
Qed.

Lemma linalg_solve_zero_row (G : matrix) (I : list Q) idx :
  length I = length G →
  G !! idx = Some (replicate (length G) 0%Q) →
  linalg_solve G I = None.
Proof.
  intros HI Hrow. unfold linalg_solve.
  rewrite (gauss_jordan_zero_row (length G)); [done| |lia|].
  - rewrite length_zip_with. lia.
  - destruct (lookup_lt_is_Some_2 I idx) as [b Hb].
    { rewrite HI. by apply lookup_lt_Some in Hrow. }
    apply Exists_exists. exists (replicate (length G) 0%Q ++ [b]). split.
    + apply list_elem_of_lookup. exists idx.
      rewrite lookup_zip_with, Hrow. simpl. by rewrite Hb.
    + intros j Hj. by rewrite entry_zero_app.
Qed.

(** ** The assembly away from an isolated node *)

Lemma list_index_Some `{EqDecision A} (x : A) l i :
  list_index x l = Some i → l !! i = Some x.
Proof.
  unfold list_index, first_index. intros Hf.
  apply fmap_Some in Hf as ([j y] & Hfind & ->).
  apply list_find_Some in Hfind as (Hl & Hy & _). simpl.
  apply bool_decide_eq_true in Hy. by subst.
Qed.

Lemma list_index_elem_of `{EqDecision A} (x : A) l :
  x ∈ l → is_Some (list_index x l).
Proof.
  intros Hx. unfold list_index, first_index.
  destruct (list_find_elem_of (λ y, bool_decide (y = x) = true) l x Hx)
    as [[j y] Hf].
  - by apply bool_decide_eq_true.
  - rewrite Hf. by eexists.
Qed.

Section frame.
Variables (ground : Z) (node_list : list Z) (n idx : nat) (k : Z).
Hypothesis Hidx : list_index k node_list = Some idx.

Lemma index_other m i : m ≠ k → list_index m node_list = Some i → i ≠ idx.
Proof using Hidx.
  intros Hm Hi ->. apply list_index_Some in Hi, Hidx. congruence.
Qed.

Lemma unknown_index_other m i :
  m ≠ k → unknown_index ground node_list m = Some i → i ≠ idx.
Proof using Hidx.
  unfold unknown_index. case_bool_decide; [|done]. apply index_other.
Qed.

Lemma madd_lookup_ne (G : matrix) i j x : i ≠ idx → madd G i j x !! idx = G !! idx.
Proof. intros. unfold madd. by rewrite list_lookup_alter_ne. Qed.

Lemma msub_lookup_ne (G : matrix) i j x : i ≠ idx → msub G i j x !! idx = G !! idx.
Proof. intros. unfold msub. by rewrite list_lookup_alter_ne. Qed.

Lemma length_madd (G : matrix) i j x : length (madd G i j x) = length G.
Proof. unfold madd. by rewrite length_alter. Qed.

Lemma length_msub (G : matrix) i j x : length (msub G i j x) = length G.
Proof. unfold msub. by rewrite length_alter. Qed.

Lemma stamp_resistor_frame (G : matrix) comp :
  node1 comp ≠ k → node2 comp ≠ k → ¬ (value comp == 0)%Q →
  ∃ G', stamp_resistor ground node_list G comp = Ok G' ∧
        length G' = length G ∧ G' !! idx = G !! idx.
Proof using Hidx.
  intros H1 H2 Hv. unfold stamp_resistor.
  destruct (Qeq_bool (value comp) 0) eqn:Ev;
    [by apply Qeq_bool_iff in Ev|].
  destruct (unknown_index ground node_list (node1 comp)) as [idx1|] eqn:E1;
    destruct (unknown_index ground node_list (node2 comp)) as [idx2|] eqn:E2;
    try case_bool_decide; eexists; (split; [reflexivity|]);
    try (pose proof (unknown_index_other _ _ H1 E1));
    try (pose proof (unknown_index_other _ _ H2 E2));
    repeat (rewrite length_madd || rewrite length_msub);
    repeat first [rewrite madd_lookup_ne by done
                 |rewrite msub_lookup_ne by done];
    done.
Qed.

Lemma stamp_voltage_source_frame (G : matrix) (I : list Q) comp :
  node1 comp ≠ k → node2 comp ≠ k →
  let GI := stamp_voltage_source ground node_list n G I comp in
  length GI.1 = length G ∧ length GI.2 = length I ∧ GI.1 !! idx = G !! idx.
Proof using Hidx.
  intros H1 H2. unfold stamp_voltage_source, fix_node.
  repeat case_bool_decide;
    destruct (list_index (node2 comp) node_list) as [i2|] eqn:E2;
    destruct (list_index (node1 comp) node_list) as [i1|] eqn:E1; simpl;
    try (pose proof (index_other _ _ H1 E1));
    try (pose proof (index_other _ _ H2 E2));
    rewrite ?length_alter, ?length_insert;
    rewrite ?list_lookup_alter_ne, ?list_lookup_insert_ne by done; done.
Qed.

Lemma assemble_from_frame components :
  isolated components k → nonzero_resistances components →
  ∀ G I, ∃ G' I',
    assemble_from ground node_list n (G, I) components = Ok (G', I') ∧
    length G' = length G ∧ length I' = length I ∧ G' !! idx = G !! idx.
Proof using Hidx.
  induction components as [|comp rest IH]; intros Hiso Hnz G I.
  - by exists G, I.
  - apply Forall_cons in Hiso as [[H1 H2] Hiso].
    apply Forall_cons in Hnz as [Hv Hnz].
    simpl. unfold process_component.
    destruct (type comp) eqn:Et; simpl.
    + destruct (stamp_resistor_frame G comp H1 H2 (Hv eq_refl))
        as (G1 & -> & HlenG & Hrow). simpl.
      destruct (IH Hiso Hnz G1 I) as (G' & I' & -> & ? & ? & ?).
      exists G', I'. repeat split; congruence.
    + destruct (stamp_voltage_source_frame G I comp H1 H2) as (HlG & HlI & Hrow).
      destruct (stamp_voltage_source ground node_list n G I comp) as [G1 I1].
      simpl in *.
      destruct (IH Hiso Hnz G1 I1) as (G' & I' & -> & ? & ? & ?).
      exists G', I'. repeat split; congruence.
    + destruct (IH Hiso Hnz G I) as (G' & I' & -> & ? & ? & ?).
      by exists G', I'.
Qed.
End frame.

Lemma elem_of_unknown_nodes nodes ground m :
  m ∈ unknown_nodes nodes ground ↔ m ≠ ground ∧ m ∈ nodes.
Proof.
  unfold unknown_nodes. rewrite merge_sort_Permutation.
  by rewrite list_elem_of_filter.
Qed.

Lemma assemble_isolated nodes components ground k :
  k ∈ nodes → k ≠ ground →
  isolated components k → nonzero_resistances components →
  ∃ G I idx,
    assemble nodes components ground = Ok (G, I) ∧
    list_index k (unknown_nodes nodes ground) = Some idx ∧
    length G = length (unknown_nodes nodes ground) ∧
    length I = length G ∧
    G !! idx = Some (replicate (length G) 0%Q).
Proof.
  intros Hk Hkg Hiso Hnz. unfold assemble.
  set (node_list := unknown_nodes nodes ground).
  set (n := length node_list).
  destruct (list_index_elem_of k node_list) as [idx Hidx].
  { by apply elem_of_unknown_nodes. }
  destruct (assemble_from_frame ground node_list n idx k Hidx components
              Hiso Hnz (replicate n (replicate n 0%Q)) (replicate n 0%Q))
    as (G & I & Heq & HlG & HlI & Hrow).
  rewrite length_replicate in HlG. rewrite length_replicate in HlI.
  exists G, I, idx. split; [done|]. split; [done|]. split; [done|].
  split; [congruence|]. rewrite Hrow, HlG.
  apply lookup_replicate_2.
  apply list_index_Some, lookup_lt_Some in Hidx. done.
Qed.

(** C7: when a non-ground node has no component attached (in a circuit
    that reaches the assembly: some component, a valid ground, resistors
    of non-zero resistance), its row of the assembled [G] is all zero and
    the call ends in the "cannot solve" failure of a singular system; a
    ground that is not a node ends in the different "ground not found"
    failure. *)
Theorem isolated_node_gives_singular nodes components ground k :
  components ≠ [] →
  ground ∈ nodes → k ∈ nodes → k ≠ ground →
  isolated components k →
  nonzero_resistances components →
  (∃ G I idx,
      assemble nodes components ground = Ok (G, I) ∧
      list_index k (unknown_nodes nodes ground) = Some idx ∧
      G !! idx = Some (replicate (length (unknown_nodes nodes ground)) 0%Q)) ∧
  calculate_circuit nodes components (Some ground) = Failed CannotSolve ∧
  ∀ missing, missing ∉ nodes →
    calculate_circuit nodes components (Some missing)
    = Failed (GroundNotFound missing) ∧
    Failed (GroundNotFound missing) ≠ Failed CannotSolve.
Proof.
  intros Hc Hg Hk Hkg Hiso Hnz.
  destruct (assemble_isolated nodes components ground k Hk Hkg Hiso Hnz)
    as (G & I & idx & Hasm & Hidx & HlG & HlI & Hrow).
  assert (Hnodes : 2 ≤ length nodes).
  { apply list_elem_of_lookup in Hg as [i Hi], Hk as [j Hj].
    assert (i ≠ j) by (intros ->; congruence).
    apply lookup_lt_Some in Hi, Hj. lia. }
  assert (Hguard : (length nodes <? 2) || (length components =? 0) = false).
  { apply orb_false_iff. split.
    - apply Nat.ltb_ge. lia.
    - apply Nat.eqb_neq. by destruct components. }
  split; [|split].
  - exists G, I, idx. rewrite <- HlG. done.
  - unfold calculate_circuit. rewrite Hguard.
    rewrite bool_decide_true by done.
    destruct (Nat.eqb_spec (length (unknown_nodes nodes ground)) 0) as [H0|_].
    { apply list_index_Some, lookup_lt_Some in Hidx. lia. }
    rewrite Hasm. by rewrite (linalg_solve_zero_row G I idx).
  - intros missing Hm. split; [|done].
    unfold calculate_circuit. rewrite Hguard.
    by rewrite bool_decide_false.
Qed.

Lemma isolated_node_gives_singular_witness :
  (∃ G I idx,
      assemble [0; 1; 2]%Z
        [mk_component 0 1 10 resistor; mk_component 0 1 5 voltage_source] 0
      = Ok (G, I) ∧
      list_index 2%Z (unknown_nodes [0; 1; 2]%Z 0) = Some idx ∧
      G !! idx = Some (replicate (length (unknown_nodes [0; 1; 2]%Z 0)) 0%Q)) ∧
  calculate_circuit [0; 1; 2]%Z
    [mk_component 0 1 10 resistor; mk_component 0 1 5 voltage_source]
    (Some 0%Z) = Failed CannotSolve ∧
  ∀ missing, missing ∉ [0; 1; 2]%Z →
    calculate_circuit [0; 1; 2]%Z
      [mk_component 0 1 10 resistor; mk_component 0 1 5 voltage_source]
      (Some missing)
    = Failed (GroundNotFound missing) ∧
    Failed (GroundNotFound missing) ≠ Failed CannotSolve.
Proof.
  apply (isolated_node_gives_singular _ _ 0%Z 2%Z).
  - discriminate.
  - apply (bool_decide_unpack _). vm_compute. exact I.
  - apply (bool_decide_unpack _). vm_compute. exact I.
  - lia.
  - repeat constructor; simpl; lia.
  - repeat constructor; simpl; intros _ Hq; discriminate Hq.
Defined.

(** ** 2-opt *)

Lemma wltb_trans a b c : wltb a b = true → wltb b c = true → wltb a c = true.
Proof.
  destruct a, b, c; simpl; try done.
  rewrite !Qltb_lt. apply Qlt_trans.
Qed.

Lemma reverse_slice_Permutation (tour : list city) i j :
  i ≤ j → reverse_slice tour i j ≡ₚ tour.
Proof.
  intros Hij. unfold reverse_slice.
  rewrite <- Permutation_rev.
  assert (Hd : drop j tour = drop (j - i) (drop i tour)).
  { rewrite drop_drop. f_equal. lia. }
  rewrite Hd, take_drop. by rewrite take_drop.
Qed.

Lemma try_move_Some edges t c i found j r :
  try_move edges t c i found j = Some r →
  found = Some r ∨
  (found = None ∧ r.1 = reverse_slice t i j ∧
   r.2 = calculate_path_cost edges r.1 ∧ wltb r.2 c = true).
Proof.
  unfold try_move. destruct found as [r'|]; [intros [= ->]; by left|].
  destruct (j - i =? 1); [done|].
  destruct (wltb _ c) eqn:E; [|done]. intros [= <-]. right. done.
Qed.

Lemma inner_loop_Some edges t c i js :
  Forall (λ j, i ≤ j) js →
  ∀ found r,
    foldl (try_move edges t c i) found js = Some r →
    found = Some r ∨ improves edges t c r.
Proof.
  induction 1 as [|j js Hj _ IH]; intros found r; simpl; [by left|].
  intros Hr. destruct (IH _ _ Hr) as [Hf|Hi]; [|by right].
  apply try_move_Some in Hf as [->|(_ & H1 & H2 & H3)]; [by left|right].
  split; [|done]. rewrite H1. by apply reverse_slice_Permutation.
Qed.

Lemma outer_loop_Some edges len t c is_ :
  ∀ found r,
    foldl (λ found i,
             match found with
             | Some _ => found
             | None => foldl (try_move edges t c i) None
                             (seq (i + 1) (len - (i + 1)))
             end) found is_ = Some r →
    found = Some r ∨ improves edges t c r.
Proof.
  induction is_ as [|i is_ IH]; intros found r; simpl; [by left|].
  intros Hr. destruct (IH _ _ Hr) as [Hf|Hi]; [|by right].
  destruct found as [r'|]; [by left|].
  apply inner_loop_Some in Hf as [?|?]; [done|by right|].
  apply Forall_forall. intros j [? ?]%elem_of_seq. lia.
Qed.

Lemma scan_moves_Some edges len t c r :
  scan_moves edges len t c = Some r → improves edges t c r.
Proof.
  intros Hr. by destruct (outer_loop_Some _ _ _ _ _ _ _ Hr).
Qed.

Lemma length_filter_strict {A} (P Q : A → Prop)
    `{∀ x, Decision (P x)} `{∀ x, Decision (Q x)} (l : list A) x :
  (∀ y, P y → Q y) → x ∈ l → Q x → ¬ P x →
  length (filter P l) < length (filter Q l).
Proof.
  intros HPQ. induction l as [|y l IH]; [by intros ?%elem_of_nil|].
  assert (Hle : ∀ k : list A, length (filter P k) ≤ length (filter Q k)).
  { induction k as [|z k IHk]; [done|]. rewrite !filter_cons.
    destruct (decide (P z)), (decide (Q z)); simpl; try lia. naive_solver. }
  intros [->|Hx]%elem_of_cons HQ HP; rewrite !filter_cons.
  - specialize (Hle l).
    destruct (decide (P y)), (decide (Q y)); simpl; try done. lia.
  - specialize (IH Hx HQ HP).
    destruct (decide (P y)), (decide (Q y)); simpl; try lia. naive_solver.
Qed.

Lemma cheaper_count_decreases edges tour0 t c :
  t ≡ₚ tour0 → wltb (calculate_path_cost edges t) c = true →
  cheaper_count edges tour0 (calculate_path_cost edges t)
  < cheaper_count edges tour0 c.
Proof.
  intros Hp Hlt. unfold cheaper_count.
  apply (length_filter_strict _ _ _ t).
  - intros p Hpt. by eapply wltb_trans.
  - apply permutations_Permutation. by symmetry.
  - done.
  - rewrite wltb_irrefl. done.
Qed.

(** The loop ends: with more passes allowed than there are cheaper
    rearrangements, it returns a rearrangement that no move improves. *)
Lemma two_opt_while_terminates edges tour0 len :
  ∀ k t fuel,
    cheaper_count edges tour0 (calculate_path_cost edges t) < k →
    k ≤ fuel →
    t ≡ₚ tour0 →
    ∃ t',
      two_opt_while edges len fuel t (calculate_path_cost edges t)
      = Ok (t', calculate_path_cost edges t') ∧
      t' ≡ₚ tour0 ∧
      wle (calculate_path_cost edges t') (calculate_path_cost edges t) ∧
      scan_moves edges len t' (calculate_path_cost edges t') = None.
Proof.
  induction k as [|k IH]; intros t fuel Hk Hfuel Hp; [lia|].
  destruct fuel as [|fuel]; [lia|]. simpl.
  destruct (scan_moves edges len t (calculate_path_cost edges t))
    as [[t1 c1]|] eqn:Escan.
  - apply scan_moves_Some in Escan as (Hp1 & Hc1 & Hlt). simpl in *. subst c1.
    destruct (IH t1 fuel) as (t' & Heq & Hp' & Hle & Hnone).
    + pose proof (cheaper_count_decreases edges tour0 t1 _
                    ltac:(by rewrite Hp1) Hlt). lia.
    + lia.
    + by rewrite Hp1.
    + exists t'. split; [done|]. split; [done|]. split; [|done].
      etrans; [exact Hle|]. by apply wltb_lt_le.
  - exists t. split; [done|]. split; [done|]. split; [reflexivity|done].
Qed.

Lemma two_opt_while_fuel_mono edges len fuel :
  ∀ fuel' t c r,
    two_opt_while edges len fuel t c = Ok r → fuel ≤ fuel' →
    two_opt_while edges len fuel' t c = Ok r.
Proof.
  induction fuel as [|fuel IH]; intros fuel' t c r; simpl; [done|].
  intros Hr Hf. destruct fuel' as [|fuel']; [lia|]. simpl.
  destruct (scan_moves edges len t c) as [[t1 c1]|]; [|done].
  apply IH; [done|lia].
Qed.

(** C4: for every seed tour [two_opt] returns (once enough passes are
    allowed, and then whatever the allowance) a tour that costs no more
    than the seed, and a second application to its own output returns
    that same tour with the same cost. *)
Theorem two_opt_never_worse_and_stable edges tour :
  ∃ fuel best_tour best_cost,
    (∀ fuel', fuel ≤ fuel' →
       two_opt fuel' edges tour = Ok (best_tour, best_cost)) ∧
    best_cost = calculate_path_cost edges best_tour ∧
    wle best_cost (calculate_path_cost edges tour) ∧
    (∀ fuel', 0 < fuel' →
       two_opt fuel' edges best_tour = Ok (best_tour, best_cost)).
Proof.
  set (k := S (cheaper_count edges tour (calculate_path_cost edges tour))).
  destruct (two_opt_while_terminates edges tour (length tour) k tour k)
    as (t' & Heq & Hp & Hle & Hnone); [lia|lia|done|].
  exists k, t', (calculate_path_cost edges t').
  split; [|split; [done|split; [done|]]].
  - intros fuel' Hf. unfold two_opt.
    by apply (two_opt_while_fuel_mono edges (length tour) k).
  - intros [|fuel'] Hf; [lia|]. unfold two_opt. simpl.
    rewrite (Permutation_length Hp). by rewrite Hnone.
Qed.

(** ** Bit masks *)

Lemma has_bit_testbit mask i : has_bit mask i = Nat.testbit mask i.
Proof.
  unfold has_bit. rewrite Nat.shiftl_1_l.
  destruct (Nat.testbit mask i) eqn:Eb.
  - apply negb_true_iff, Nat.eqb_neq. intros H0.
    assert (Hb : Nat.testbit (Nat.land mask (2 ^ i)) i = true).
    { rewrite Nat.land_spec, Eb, Nat.pow2_bits_eqb, Nat.eqb_refl. done. }
    rewrite H0, Nat.bits_0 in Hb. done.
  - apply negb_false_iff, Nat.eqb_eq. apply Nat.bits_inj. intros k.
    rewrite Nat.land_spec, Nat.pow2_bits_eqb, Nat.bits_0.
    destruct (Nat.eqb_spec i k) as [->|_]; [by rewrite Eb|].
    apply andb_false_r.
Qed.

Lemma land_pow2_unset mask i :
  Nat.testbit mask i = false → Nat.land mask (2 ^ i) = 0.
Proof.
  intros Eb. apply Nat.bits_inj. intros k.
  rewrite Nat.land_spec, Nat.pow2_bits_eqb, Nat.bits_0.
  destruct (Nat.eqb_spec i k) as [->|_]; [by rewrite Eb|].
  apply andb_false_r.
Qed.

Lemma lor_pow2_add mask i :
  Nat.testbit mask i = false → Nat.lor mask (2 ^ i) = mask + 2 ^ i.
Proof.
  intros Eb. pose proof (land_pow2_unset _ _ Eb) as H0.
  by rewrite <- Nat.lxor_lor, <- Nat.add_nocarry_lxor.
Qed.

Lemma lxor_lor_pow2 mask i :
  Nat.testbit mask i = false → Nat.lxor (Nat.lor mask (2 ^ i)) (2 ^ i) = mask.
Proof.
  intros Eb. apply Nat.bits_inj. intros k.
  rewrite Nat.lxor_spec, Nat.lor_spec, Nat.pow2_bits_eqb.
  destruct (Nat.eqb_spec i k) as [->|_].
  - rewrite Eb. done.
  - by rewrite orb_false_r, xorb_false_r.
Qed.

Lemma lxor_pow2_lt mask i :
  Nat.testbit mask i = true → Nat.lxor mask (2 ^ i) < mask.
Proof.
  intros Eb.
  assert (Hu : Nat.testbit (Nat.lxor mask (2 ^ i)) i = false).
  { by rewrite Nat.lxor_spec, Eb, Nat.pow2_bits_eqb, Nat.eqb_refl. }
  assert (Hm : mask = Nat.lor (Nat.lxor mask (2 ^ i)) (2 ^ i)).
  { apply Nat.bits_inj. intros k.
    rewrite Nat.lor_spec, Nat.lxor_spec, Nat.pow2_bits_eqb.
    destruct (Nat.eqb_spec i k) as [->|_].
    - rewrite Eb. done.
    - by rewrite xorb_false_r, orb_false_r. }
  rewrite lor_pow2_add in Hm by done.
  assert (0 < 2 ^ i) by (apply Nat.neq_0_lt_0, Nat.pow_nonzero; lia). lia.
Qed.

Lemma testbit_above n mask i : mask < 2 ^ n → n ≤ i → Nat.testbit mask i = false.
Proof.
  intros Hm Hi. destruct (decide (mask = 0)) as [->|Hz]; [apply Nat.bits_0|].
  apply Nat.bits_above_log2.
  assert (Nat.log2 mask < n) by (apply Nat.log2_lt_pow2; lia). lia.
Qed.

Lemma lor_pow2_bound n mask i :
  mask < 2 ^ n → i < n → Nat.lor mask (2 ^ i) < 2 ^ n.
Proof.
  intros Hm Hi.
  assert (Hpos : 0 < Nat.lor mask (2 ^ i)).
  { apply Nat.neq_0_lt_0. intros H0.
    assert (Hb : Nat.testbit (Nat.lor mask (2 ^ i)) i = true).
    { rewrite Nat.lor_spec, Nat.pow2_bits_eqb, Nat.eqb_refl. apply orb_true_r. }
    by rewrite H0, Nat.bits_0 in Hb. }
  apply Nat.log2_lt_pow2; [done|].
  rewrite Nat.log2_lor, Nat.log2_pow2 by lia.
  destruct (decide (mask = 0)) as [->|Hz]; [simpl; lia|].
  assert (Nat.log2 mask < n) by (apply Nat.log2_lt_pow2; lia). lia.
Qed.

Lemma lxor_pow2_bound n mask i :
  mask < 2 ^ n → Nat.testbit mask i = true → Nat.lxor mask (2 ^ i) < 2 ^ n.
Proof. intros Hm Hb. pose proof (lxor_pow2_lt _ _ Hb). lia. Qed.

Lemma full_mask_ones n mask :
  mask < 2 ^ n → (∀ i, i < n → Nat.testbit mask i = true) → mask = 2 ^ n - 1.
Proof.
  intros Hm Hall. replace (2 ^ n - 1) with (Nat.ones n)
    by (rewrite Nat.ones_equiv; lia).
  apply Nat.bits_inj. intros k. destruct (decide (k < n)) as [Hk|Hk].
  - by rewrite Nat.ones_spec_low, Hall.
  - rewrite Nat.ones_spec_high by lia. apply (testbit_above n); [done|lia].
Qed.

(** ** Tables *)

Section table.
Context {A : Type}.
Implicit Types (t : list (list A)) (d x : A).

Lemma dims_tset rows cols t i j x :
  dims rows cols t → dims rows cols (tset t i j x).
Proof.
  intros [Hl Hr]. unfold tset. split; [by rewrite length_alter|].
  apply Forall_alter; [done|]. intros r Hri Hlen.
  by rewrite length_insert.
Qed.

Lemma tget_tset_eq rows cols d t i j x :
  dims rows cols t → i < rows → j < cols → tget d (tset t i j x) i j = x.
Proof.
  intros [Hl Hr] Hi Hj. unfold tget, tset.
  destruct (lookup_lt_is_Some_2 t i) as [r Hri]; [lia|].
  rewrite list_lookup_alter_eq, Hri. simpl.
  rewrite list_lookup_insert_eq; [done|].
  rewrite Forall_forall in Hr. rewrite (Hr r); [done|].
  by eapply list_elem_of_lookup_2.
Qed.

Lemma tget_tset_ne d t i j x i' j' :
  (i, j) ≠ (i', j') → tget d (tset t i j x) i' j' = tget d t i' j'.
Proof.
  intros Hne. unfold tget, tset.
  destruct (decide (i = i')) as [->|Hi].
  - rewrite list_lookup_alter_eq. destruct (t !! i') as [r|]; simpl; [|done].
    rewrite list_lookup_insert_ne; [done|]. intros ->. done.
  - by rewrite list_lookup_alter_ne.
Qed.

Lemma tget_in_range rows cols d t i j :
  dims rows cols t → tget d t i j ≠ d → i < rows ∧ j < cols.
Proof.
  intros [Hl Hr] Hne. unfold tget in Hne.
  destruct (t !! i) as [r|] eqn:Hri; simpl in Hne; [|done].
  destruct (r !! j) as [y|] eqn:Hrj; simpl in Hne; [|done].
  apply lookup_lt_Some in Hri as Hi, Hrj as Hj.
  rewrite Forall_forall in Hr. rewrite (Hr r) in Hj; [lia|].
  by eapply list_elem_of_lookup_2.
Qed.

Lemma dims_replicate rows cols x :
  dims rows cols (replicate rows (replicate cols x)).
Proof.
  split; [by rewrite length_replicate|].
  apply Forall_replicate. by rewrite length_replicate.
Qed.

Lemma tget_replicate rows cols d i j :
  tget d (replicate rows (replicate cols d)) i j = d.
Proof.
  unfold tget. destruct (replicate rows _ !! i) as [r|] eqn:Hr; [|done].
  apply lookup_replicate in Hr as [-> _]. simpl.
  destruct (replicate cols d !! j) as [y|] eqn:Hy; [|done].
  by apply lookup_replicate in Hy as [-> _].
Qed.
End table.


(** ** Held-Karp: the table *)

Lemma tget_tset_cases {A} (d : A) t i j x :
  tget d (tset t i j x) i j = x ∨ tget d (tset t i j x) i j = tget d t i j.
Proof.
  unfold tget, tset. rewrite list_lookup_alter_eq.
  destruct (t !! i) as [r|]; simpl; [|by right].
  destruct (decide (j < length r)).
  - left. by rewrite list_lookup_insert_eq.
  - right. by rewrite list_insert_ge by lia.
Qed.

Lemma later_refl M st : later M st st.
Proof. intros m j. split; [reflexivity|done]. Qed.

Lemma later_trans M st1 st2 st3 :
  later M st1 st2 → later M st2 st3 → later M st1 st3.
Proof.
  intros H12 H23 m j. destruct (H12 m j) as [Hle1 Heq1], (H23 m j) as [Hle2 Heq2].
  split; [by etrans|]. intros Hm. by rewrite Heq2, Heq1.
Qed.

Lemma later_weaken M M' st st' : M' ≤ M → later M st st' → later M' st st'.
Proof.
  intros HM H m j. destruct (H m j) as [Hle Heq]. split; [done|].
  intros Hm. apply Heq. lia.
Qed.

Lemma wltb_true_fin a b : wltb a b = true → a ≠ Inf.
Proof. by destruct a. Qed.

Section relax.
Variables (cities : list city) (edges : edge_table) (n : nat).

Lemma relax_wf mask last st next :
  wf_state n st → wf_state n (relax cities edges mask last st next).
Proof.
  intros [H1 H2]. unfold relax.
  destruct (has_bit mask next); [done|].
  destruct (wltb _ _); [|done]. split; by apply dims_tset.
Qed.

Lemma relax_later mask last st next :
  later mask st (relax cities edges mask last st next).
Proof.
  unfold relax. rewrite has_bit_testbit, Nat.shiftl_1_l.
  destruct (Nat.testbit mask next) eqn:Eb; [apply later_refl|].
  destruct (wltb _ _) eqn:Elt; [|apply later_refl].
  intros m j. unfold dp_at. cbn [fst snd].
  destruct (decide ((Nat.lor mask (2 ^ next), next) = (m, j))) as [[= <- <-]|Hne].
  - split.
    + destruct (tget_tset_cases Inf st.1 (Nat.lor mask (2 ^ next)) next
                  (wadd (tget Inf st.1 mask last)
                        (dist_idx cities edges last next))) as [->| ->].
      * by apply wltb_lt_le.
      * reflexivity.
    + intros Hm. rewrite lor_pow2_add in Hm by done.
      assert (0 < 2 ^ next) by (apply Nat.neq_0_lt_0, Nat.pow_nonzero; lia).
      lia.
  - rewrite tget_tset_ne by done. split; [reflexivity|done].
Qed.

Lemma relax_effect mask last st next :
  wf_state n st → mask < 2 ^ n → next < n →
  Nat.testbit mask next = false →
  wle (dp_at (relax cities edges mask last st next)
             (Nat.lor mask (2 ^ next)) next)
      (wadd (dp_at st mask last) (dist_idx cities edges last next)).
Proof.
  intros [Hd _] Hm Hn Eb. unfold relax.
  rewrite has_bit_testbit, Nat.shiftl_1_l, Eb.
  destruct (wltb _ _) eqn:Elt.
  - unfold dp_at. cbn [fst snd].
    rewrite (tget_tset_eq (2 ^ n) n); [reflexivity|done| |done].
    by apply lor_pow2_bound.
  - by apply wltb_false_le.
Qed.

Lemma relax_parents mask last st next :
  wf_state n st → parents_ok st →
  dp_at st mask last ≠ Inf → next < n →
  parents_ok (relax cities edges mask last st next).
Proof.
  intros [Hd Hp] Hok Hfin Hn. unfold relax.
  rewrite has_bit_testbit, Nat.shiftl_1_l.
  destruct (Nat.testbit mask next) eqn:Eb; [done|].
  destruct (wltb _ _) eqn:Elt; [|done].
  destruct (Hok mask last Hfin) as (Hbl & Hb0 & _).
  destruct (tget_in_range _ _ _ _ _ _ Hd Hfin) as [Hm Hl].
  pose proof (lor_pow2_bound n mask next Hm Hn) as Hnm.
  set (nm := Nat.lor mask (2 ^ next)) in *.
  set (new := wadd (tget Inf st.1 mask last) (dist_idx cities edges last next)) in *.
  assert (Hnew : new ≠ Inf) by by eapply wltb_true_fin.
  assert (Hkeep : ∀ m j, tget Inf st.1 m j ≠ Inf →
                         tget Inf (tset st.1 nm next new) m j ≠ Inf).
  { intros m j Hf.
    destruct (decide ((nm, next) = (m, j))) as [[= <- <-]|Hne].
    - by rewrite (tget_tset_eq (2 ^ n) n).
    - by rewrite tget_tset_ne. }
  intros m j. unfold dp_at. cbn [fst snd].
  destruct (decide ((nm, next) = (m, j))) as [[= <- <-]|Hne].
  - intros _. split; [|split].
    + unfold nm. rewrite Nat.lor_spec, Nat.pow2_bits_eqb, Nat.eqb_refl.
      apply orb_true_r.
    + unfold nm. by rewrite Nat.lor_spec, Hb0.
    + right. exists last. split.
      * by rewrite (tget_tset_eq (2 ^ n) n).
      * unfold nm. rewrite lxor_lor_pow2 by done. by apply Hkeep.
  - rewrite tget_tset_ne by done. intros Hf.
    destruct (Hok m j Hf) as (H1 & H2 & [->|(l & Hpar & Hpf)]).
    + split; [done|]. split; [done|]. by left.
    + split; [done|]. split; [done|]. right. exists l. split.
      * by rewrite tget_tset_ne.
      * by apply Hkeep.
Qed.
End relax.


(** A fold whose steps are all related by a preorder passes, on its way,
    through the step taken at any given element. *)
Lemma foldl_related {S B} (R : relation S) `{!PreOrder R}
    (f : S → B → S) (l : list B) :
  (∀ s y, y ∈ l → R s (f s y)) → ∀ s, R s (foldl f s l).
Proof.
  induction l as [|y l IH]; intros Hstep s; simpl; [reflexivity|].
  etrans; [apply Hstep, list_elem_of_here|].
  apply IH. intros s' y' Hy'. apply Hstep. by apply list_elem_of_further.
Qed.

Lemma foldl_through {S B} (R : relation S) `{!PreOrder R}
    (f : S → B → S) (l : list B) (x : B) :
  (∀ s y, y ∈ l → R s (f s y)) → x ∈ l →
  ∀ s, ∃ s1, R s s1 ∧ R (f s1 x) (foldl f s l).
Proof.
  intros Hstep Hx s.
  apply list_elem_of_split in Hx as (l1 & l2 & ->).
  exists (foldl f s l1). split.
  - apply (foldl_related R). intros s' y Hy. apply Hstep.
    apply elem_of_app. by left.
  - rewrite foldl_app. simpl. apply (foldl_related R).
    intros s' y Hy. apply Hstep. apply elem_of_app. right.
    by apply list_elem_of_further.
Qed.

Section sweep.
Variables (cities : list city) (edges : edge_table) (n : nat).

#[local] Instance step_in_preorder M last : PreOrder (step_in n M last).
Proof.
  split.
  - intros st Hinv _. split; [done|apply later_refl].
  - intros s1 s2 s3 H12 H23 Hinv Hfin.
    destruct (H12 Hinv Hfin) as [Hinv2 Hl12].
    destruct (H23 Hinv2) as [Hinv3 Hl23].
    + destruct (Hl12 M last) as [_ Heq]. by rewrite Heq.
    + split; [done|by eapply later_trans].
Qed.

#[local] Instance step_out_preorder M : PreOrder (step_out n M).
Proof.
  split.
  - intros st Hinv. split; [done|apply later_refl].
  - intros s1 s2 s3 H12 H23 Hinv.
    destruct (H12 Hinv) as [Hinv2 Hl12].
    destruct (H23 Hinv2) as [Hinv3 Hl23].
    split; [done|by eapply later_trans].
Qed.

Lemma relax_step M last st next :
  next < n → step_in n M last st (relax cities edges M last st next).
Proof.
  intros Hn [Hwf Hok] Hfin. split; [split|].
  - by apply relax_wf.
  - by apply (relax_parents cities edges n).
  - apply relax_later.
Qed.

Lemma extend_step M st last :
  step_out n M st (extend cities edges n M st last).
Proof.
  intros Hinv. unfold extend.
  destruct (negb (has_bit M last)); [split; [done|apply later_refl]|].
  destruct (is_inf (tget Inf st.1 M last)) eqn:Einf;
    [split; [done|apply later_refl]|].
  apply (foldl_related (step_in n M last)); [|done|].
  - intros s y [_ Hy]%elem_of_seq. apply relax_step. lia.
  - unfold dp_at. by destruct (tget Inf st.1 M last).
Qed.

Lemma sweep_mask_step M st :
  step_out n M st (foldl (extend cities edges n M) st (seq 0 n)).
Proof.
  apply (foldl_related (step_out n M)).
  intros s y _. apply extend_step.
Qed.

(** What the sweep of mask [M] achieves for a finite entry of row [M]. *)
Lemma sweep_mask_effect M st last next :
  dp_inv n st → dp_at st M last ≠ Inf →
  next < n → Nat.testbit M next = false →
  wle (dp_at (foldl (extend cities edges n M) st (seq 0 n))
             (Nat.lor M (2 ^ next)) next)
      (wadd (dp_at st M last) (dist_idx cities edges last next)).
Proof.
  intros Hinv Hfin Hn Eb.
  destruct Hinv as [Hwf Hok].
  destruct (Hok M last Hfin) as (Hbl & _).
  destruct (tget_in_range _ _ _ _ _ _ (proj1 Hwf) Hfin) as [HM Hl].
  (* the outer fold reaches [last] *)
  destruct (foldl_through (step_out n M) (extend cities edges n M)
              (seq 0 n) last) with (s := st) as (s1 & H1 & H2).
  { intros s y _. apply extend_step. }
  { apply elem_of_seq. lia. }
  destruct (H1 (conj Hwf Hok)) as [Hinv1 Hl1].
  destruct (H2 (proj1 (extend_step M s1 last Hinv1))) as [_ Hl2].
  assert (Hrow1 : dp_at s1 M last = dp_at st M last).
  { by destruct (Hl1 M last) as [_ ->]. }
  etrans; [apply (proj1 (Hl2 _ _))|]. rewrite <- Hrow1.
  (* inside [extend]: the inner fold reaches [next] *)
  unfold extend. rewrite has_bit_testbit, Hbl. simpl.
  assert (Hfin1 : dp_at s1 M last ≠ Inf) by by rewrite Hrow1.
  destruct (is_inf (tget Inf s1.1 M last)) eqn:Einf.
  { unfold dp_at in Hfin1. by destruct (tget Inf s1.1 M last). }
  destruct (foldl_through (step_in n M last) (relax cities edges M last)
              (seq 0 n) next) with (s := s1) as (s2 & H3 & H4).
  { intros s y [_ Hy]%elem_of_seq. apply relax_step. lia. }
  { apply elem_of_seq. lia. }
  destruct (H3 Hinv1 Hfin1) as [Hinv2 Hl3].
  assert (Hrow2 : dp_at s2 M last = dp_at s1 M last).
  { by destruct (Hl3 M last) as [_ ->]. }
  destruct (H4 (proj1 (relax_step M last s2 next Hn Hinv2
                         ltac:(by rewrite Hrow2)))) as [_ Hl4].
  { destruct (relax_later cities edges M last s2 next M last) as [_ ->];
      [by rewrite Hrow2|done]. }
  etrans; [apply (proj1 (Hl4 _ _))|]. rewrite <- Hrow2.
  apply (relax_effect cities edges n); [by destruct Hinv2|done|done|done].
Qed.
End sweep.


Lemma wle_Inf a : wle a Inf.
Proof. by destruct a. Qed.

Section fill.
Variables (cities : list city) (edges : edge_table) (n : nat).
Hypothesis Hn : 0 < n.

Lemma pow2_gt_1 : 1 < 2 ^ n.
Proof using Hn.
  destruct n as [|k]; [lia|]. rewrite Nat.pow_succ_r'.
  assert (0 < 2 ^ k) by (apply Nat.neq_0_lt_0, Nat.pow_nonzero; lia). lia.
Qed.

Lemma route_facts m j c :
  route cities edges n m j c →
  Nat.testbit m j = true ∧ Nat.testbit m 0 = true ∧ m < 2 ^ n ∧ j < n.
Proof using Hn.
  induction 1 as [|m j c next _ (Hj & H0 & Hm & Hjn) Hnext Eb].
  - pose proof pow2_gt_1. done.
  - split; [|split; [|split]].
    + rewrite Nat.lor_spec, Nat.pow2_bits_eqb, Nat.eqb_refl. apply orb_true_r.
    + by rewrite Nat.lor_spec, H0.
    + by apply lor_pow2_bound.
    + done.
Qed.

Lemma route_last_0 m c :
  route cities edges n m 0 c → m = 1 ∧ c = Fin 0.
Proof using Hn.
  inversion 1 as [|m0 j0 c0 next Hr Hnext Eb]; [done|]. subst.
  destruct (route_facts _ _ _ Hr) as (_ & H0 & _). congruence.
Qed.

Lemma dp_init_inv : dp_inv n (dp_init n).
Proof using Hn.
  pose proof pow2_gt_1 as H1. unfold dp_init. rewrite Nat.shiftl_1_l.
  split; [split|]; cbn [fst snd].
  - apply dims_tset, dims_replicate.
  - apply dims_replicate.
  - intros m j. unfold dp_at. cbn [fst snd].
    destruct (decide ((1, 0) = (m, j))) as [[= <- <-]|Hne].
    + intros _. split; [done|]. split; [done|]. by left.
    + rewrite tget_tset_ne by done. by rewrite tget_replicate.
Qed.

Lemma dp_init_start : dp_at (dp_init n) 1 0 = Fin 0.
Proof using Hn.
  pose proof pow2_gt_1 as H1. unfold dp_init, dp_at. rewrite Nat.shiftl_1_l.
  cbn [fst snd]. rewrite (tget_tset_eq (2 ^ n) n); [done| |done|done].
  apply dims_replicate.
Qed.

Lemma dp_init_routes : routes_ok cities edges n 0 (dp_init n).
Proof using Hn.
  intros m j c Hr Hcond.
  inversion Hr as [|m0 j0 c0 next Hr0 Hnext Eb]; subst.
  - rewrite dp_init_start. reflexivity.
  - destruct (route_facts _ _ _ Hr0) as (_ & H0 & _).
    destruct Hcond as [->|Hle]; [congruence|].
    rewrite lxor_lor_pow2 in Hle by done.
    assert (m0 = 0) as -> by lia. by rewrite Nat.bits_0 in H0.
Qed.

Lemma sweeps_ok K st0 :
  dp_inv n st0 → routes_ok cities edges n 0 st0 →
  dp_inv n (sweeps cities edges n K st0) ∧ routes_ok cities edges n K (sweeps cities edges n K st0).
Proof using Hn.
  intros Hinv0 Hr0. induction K as [|K [Hinv Hroutes]]; [done|].
  unfold sweeps. rewrite seq_S, foldl_app. cbn [foldl]. fold (sweeps cities edges n K st0).
  replace (1 + K) with (S K) by lia.
  destruct (sweep_mask_step cities edges n (S K) (sweeps cities edges n K st0) Hinv)
    as [Hinv' Hlater].
  split; [done|].
  intros m j c Hr Hcond.
  inversion Hr as [|m0 j0 c0 next Hrt Hnext Eb]; subst.
  - etrans; [apply (proj1 (Hlater _ _))|]. apply Hroutes; [done|by left].
  - destruct (route_facts _ _ _ Hrt) as (Hj0 & H0 & Hm0 & Hj0n).
    rewrite lxor_lor_pow2 in Hcond by done.
    destruct Hcond as [->|Hle]; [congruence|].
    destruct (decide (m0 ≤ K)) as [HK|HK].
    + etrans; [apply (proj1 (Hlater _ _))|].
      apply Hroutes; [done|]. right. by rewrite lxor_lor_pow2.
    + assert (m0 = S K) as -> by lia.
      assert (Hprev : wle (dp_at (sweeps cities edges n K st0) (S K) j0) c0).
      { apply Hroutes; [done|]. right.
        pose proof (lxor_pow2_lt _ _ Hj0). lia. }
      destruct c0 as [q0|]; [|apply wle_Inf].
      assert (Hfin : dp_at (sweeps cities edges n K st0) (S K) j0 ≠ Inf).
      { intros HI. by rewrite HI in Hprev. }
      etrans; [by apply sweep_mask_effect|].
      apply wadd_mono; [done|reflexivity].
Qed.

Lemma fill_ok :
  dp_inv n (fill cities edges n (dp_init n)) ∧
  routes_ok cities edges n (2 ^ n - 1) (fill cities edges n (dp_init n)).
Proof using Hn.
  unfold fill. rewrite Nat.shiftl_1_l.
  apply (sweeps_ok (2 ^ n - 1)); [apply dp_init_inv|apply dp_init_routes].
Qed.

(** The filled table bounds every walk. *)
Lemma fill_bounds_routes m j c :
  route cities edges n m j c →
  wle (dp_at (fill cities edges n (dp_init n)) m j) c.
Proof using Hn.
  intros Hr. destruct fill_ok as [_ Hroutes]. apply Hroutes; [done|].
  destruct (route_facts _ _ _ Hr) as (Hj & _ & Hm & _).
  right. pose proof (lxor_pow2_lt _ _ Hj). lia.
Qed.

End fill.

Section ending.
Variables (cities : list city) (edges : edge_table) (n : nat).

(** *** The best ending city *)

Lemma best_end_spec dp :
  let r := best_end cities edges n dp in
  let cand last := wadd (tget Inf dp (2 ^ n - 1) last)
                        (dist_idx cities edges last 0) in
  (∀ last, last < n → wle r.1 (cand last)) ∧
  (∀ b, r.2 = Some b → b < n ∧ r.1 = cand b ∧ r.1 ≠ Inf).
Proof.
  intros r cand. subst r. unfold best_end. rewrite Nat.shiftl_1_l.
  fold cand.
  assert (Hgen : ∀ k,
    let r := foldl (λ (acc : weight * option nat) last,
                      if wltb (cand last) acc.1 then (cand last, Some last)
                      else acc) (Inf, None) (seq 0 k) in
    (∀ last, last < k → wle r.1 (cand last)) ∧
    (∀ b, r.2 = Some b → b < k ∧ r.1 = cand b ∧ r.1 ≠ Inf)).
  { induction k as [|k [IH1 IH2]]; [split; [lia|done]|].
    rewrite seq_S, foldl_app. cbn [foldl]. simpl (0 + k).
    destruct (wltb (cand k) _) eqn:Elt; cbn [fst snd].
    - split.
      + intros last Hl. destruct (decide (last = k)) as [->|Hne];
          [reflexivity|].
        etrans; [by apply wltb_lt_le|]. apply IH1. lia.
      + intros b [= <-]. split; [lia|]. split; [done|].
        by eapply wltb_true_fin.
    - split.
      + intros last Hl. destruct (decide (last = k)) as [->|Hne];
          [by apply wltb_false_le|]. apply IH1. lia.
      + intros b Hb. destruct (IH2 b Hb) as (? & ? & ?).
        split; [lia|done]. }
  apply Hgen.
Qed.

(** *** Walking the parent pointers *)

Lemma bits_below_lxor m j :
  j < n → Nat.testbit m j = true →
  bits_below n (Nat.lxor m (2 ^ j)) < bits_below n m.
Proof.
  intros Hj Hb. unfold bits_below.
  apply (length_filter_strict _ _ _ j).
  - intros i. rewrite Nat.lxor_spec, Nat.pow2_bits_eqb.
    destruct (Nat.eqb_spec j i) as [->|_].
    + rewrite Hb. done.
    + by rewrite xorb_false_r.
  - apply elem_of_seq. lia.
  - done.
  - rewrite Nat.lxor_spec, Nat.pow2_bits_eqb, Nat.eqb_refl, Hb. done.
Qed.

Lemma bits_below_le m : bits_below n m ≤ n.
Proof.
  unfold bits_below. etrans; [apply length_filter|]. by rewrite length_seq.
Qed.

Lemma walk_back_ok st :
  length cities = n → dp_inv n st →
  ∀ fuel m j path,
    dp_at st m j ≠ Inf → bits_below n m ≤ fuel →
    ∃ p, walk_back cities st.2 fuel m j path = Ok p.
Proof.
  intros Hlen [Hwf Hok].
  induction fuel as [|fuel IH]; intros m j path Hfin Hbits.
  - destruct (Hok m j Hfin) as (Hj & _).
    destruct (tget_in_range _ _ _ _ _ _ (proj1 Hwf) Hfin) as [_ Hjn].
    pose proof (bits_below_lxor m j Hjn Hj). lia.
  - simpl. destruct (Nat.eqb_spec j 0) as [->|Hj0]; [by eexists|].
    destruct (Hok m j Hfin) as (Hj & _ & [->|(l & Hpar & Hpf)]); [done|].
    destruct (tget_in_range _ _ _ _ _ _ (proj1 Hwf) Hfin) as [_ Hjn].
    destruct (lookup_lt_is_Some_2 cities j) as [c Hc]; [lia|].
    rewrite Hc, Nat.shiftl_1_l, Hpar.
    apply IH; [done|]. pose proof (bits_below_lxor m j Hjn Hj). lia.
Qed.
End ending.


(** ** Held-Karp: a tour as a walk *)

Lemma testbit_walk_mask p : ∀ m k,
  Nat.testbit (walk_mask m p) k = Nat.testbit m k || bool_decide (k ∈ p).
Proof.
  unfold walk_mask.
  induction p as [|i p IH]; intros m k; cbn [foldl].
  - rewrite (bool_decide_false (k ∈ [])); [|apply not_elem_of_nil].
    by rewrite orb_false_r.
  - rewrite IH, Nat.lor_spec, Nat.pow2_bits_eqb.
    rewrite <- orb_assoc. f_equal.
    destruct (Nat.eqb_spec i k) as [->|Hne].
    + rewrite (bool_decide_true (k ∈ k :: p)); [done|apply list_elem_of_here].
    + cbn [orb]. apply bool_decide_ext. rewrite elem_of_cons.
      split; [by right|]. by intros [?|?].
Qed.

Section tour_route.
Variables (cities : list city) (edges : edge_table) (n : nat).
Hypothesis Hn : 0 < n.

Lemma route_extend p : ∀ m j c,
  route cities edges n m j c →
  NoDup p →
  (∀ i, i ∈ p → i < n ∧ Nat.testbit m i = false) →
  route cities edges n (walk_mask m p) (default j (last p))
    (foldl wadd c (chain_weights (dist_idx cities edges) (j :: p))).
Proof.
  induction p as [|i p IH]; intros m j c Hr Hnd Hp; [done|].
  apply NoDup_cons in Hnd as [Hi Hnd].
  destruct (Hp i (list_elem_of_here _ _)) as [Hin Eb].
  pose proof (route_step cities edges n m j c i Hr Hin Eb) as Hr'.
  specialize (IH _ _ _ Hr' Hnd).
  replace (default j (last (i :: p))) with (default i (last p)).
  2:{ destruct p as [|i' p]; [done|]. rewrite last_cons_cons.
      by destruct (last (i' :: p)) eqn:E;
        [|apply last_None in E]. }
  apply IH. intros i' Hi'.
  destruct (Hp i' (list_elem_of_further _ _ _ Hi')) as [? Eb'].
  split; [done|]. rewrite Nat.lor_spec, Eb', Nat.pow2_bits_eqb. simpl.
  apply Nat.eqb_neq. intros ->. done.
Qed.

Lemma chain_weights_positions p t :
  positions_of cities p t →
  chain_weights (dist_idx cities edges) p
  = chain_weights (get_distance edges) t.
Proof.
  unfold chain_weights.
  induction 1 as [|i c p t Hic Hpt IH]; [done|].
  destruct Hpt as [|i' c' p t Hic' Hpt]; [done|]. simpl in *.
  f_equal; [|done]. unfold dist_idx. by rewrite Hic, Hic'.
Qed.

Lemma chain_weights_snoc {N} (f : city → city → N) (l : list city) y x :
  chain_weights f ((l ++ [y]) ++ [x])
  = chain_weights f (l ++ [y]) ++ [f y x].
Proof. rewrite <- app_assoc. simpl. by rewrite chain_weights_app. Qed.

Lemma positions_NoDup p t :
  positions_of cities p t → NoDup t → NoDup p.
Proof.
  induction 1 as [|i c p t Hic Hpt IH]; [constructor|].
  intros [Hc Hnd]%NoDup_cons. apply NoDup_cons. split; [|by apply IH].
  intros Hi. apply list_elem_of_lookup in Hi as [k Hk].
  destruct (Forall2_lookup_l _ _ _ _ _ Hpt Hk) as (c' & Hk' & Hic').
  assert (c' = c) as -> by congruence.
  apply Hc. by eapply list_elem_of_lookup_2.
Qed.

Lemma positions_exist t :
  (∀ c, c ∈ t → c ∈ cities) → ∃ p, positions_of cities p t.
Proof.
  induction t as [|c t IH]; intros Hsub; [exists []; constructor|].
  destruct IH as [p Hp].
  { intros c' Hc'. apply Hsub. by apply list_elem_of_further. }
  pose proof (Hsub c (list_elem_of_here _ _)) as Hc.
  apply list_elem_of_lookup in Hc as [i Hi].
  exists (i :: p). by apply Forall2_cons.
Qed.

(** A tour through all the cities, started at the first, costs at
    least what the filled table and the closing edge give for its
    last city. *)
Lemma tour_bounded_by_table c0 rest :
  length cities = n → NoDup cities →
  cities !! 0 = Some c0 →
  NoDup (c0 :: rest) → (∀ c, c ∈ rest → c ∈ cities) →
  length (c0 :: rest) = n →
  ∃ last, last < n ∧
    wle (wadd (dp_at (fill cities edges n (dp_init n)) (2 ^ n - 1) last)
              (dist_idx cities edges last 0))
        (calculate_path_cost edges (c0 :: rest)).
Proof using Hn.
  intros Hlen Hndc Hc0 Hndt Hsub Hlt.
  destruct (positions_exist rest Hsub) as [q Hq].
  assert (Hpos : positions_of cities (0 :: q) (c0 :: rest))
    by by apply Forall2_cons.
  pose proof (positions_NoDup _ _ Hpos Hndt) as Hndp.
  apply NoDup_cons in Hndp as [H0q Hndq].
  assert (Hrange : ∀ i, i ∈ q → i < n).
  { intros i [k Hk]%list_elem_of_lookup.
    destruct (Forall2_lookup_l _ _ _ _ _ Hq Hk) as (c & _ & Hic).
    apply lookup_lt_Some in Hic. lia. }
  assert (Hlq : length (0 :: q) = n).
  { rewrite <- Hlt. simpl. f_equal. by eapply Forall2_length. }
  pose proof (route_extend q 1 0 (Fin 0) (route_start _ _ _) Hndq) as Hr.
  set (jl := default 0 (last q)) in *.
  set (open_cost := foldl wadd (Fin 0)
                      (chain_weights (dist_idx cities edges) (0 :: q))) in *.
  assert (Hroute : route cities edges n (walk_mask 1 q) jl open_cost).
  { apply Hr. intros i Hi. split; [by apply Hrange|].
    change 1 with (2 ^ 0). rewrite Nat.pow2_bits_eqb.
    apply Nat.eqb_neq. intros <-. done. }
  destruct (route_facts cities edges n Hn _ _ _ Hroute) as (_ & _ & Hm & Hjl).
  assert (Hfull : walk_mask 1 q = 2 ^ n - 1).
  { apply full_mask_ones; [done|]. intros i Hi.
    rewrite testbit_walk_mask.
    destruct (decide (i = 0)) as [->|Hi0]; [done|].
    assert (Hin : i ∈ 0 :: q).
    { apply (NoDup_incl_full (0 :: q) (seq 0 n)).
      - by apply NoDup_cons.
      - intros k [->|Hk]%elem_of_cons; apply elem_of_seq;
          [lia|]. specialize (Hrange k Hk). lia.
      - rewrite length_seq. unfold city in *. by rewrite Hlq.
      - apply elem_of_seq. lia. }
    apply elem_of_cons in Hin as [->|Hin]; [done|].
    rewrite (bool_decide_true (i ∈ q)); [|done]. apply orb_true_r. }
  rewrite Hfull in Hroute.
  exists jl. split; [done|].
  assert (Hcost : calculate_path_cost edges (c0 :: rest)
                  = wadd open_cost (dist_idx cities edges jl 0)).
  { rewrite calculate_path_cost_sum, step_weights_chain. unfold wsum.
    rewrite <- (chain_weights_positions (0 :: q ++ [0])).
    2:{ unfold positions_of in *. constructor; [done|].
        apply Forall2_app; [done|]. by constructor. }
    assert (Hsplit : ∃ l, 0 :: q = l ++ [jl]).
    { unfold jl. destruct (last q) as [y|] eqn:El.
      - apply last_Some in El as [q' ->]. by exists (0 :: q').
      - apply last_None in El as ->. by exists []. }
    destruct Hsplit as [l Hl]. unfold open_cost.
    rewrite app_comm_cons, Hl, chain_weights_snoc, foldl_app. done. }
  rewrite Hcost. apply wadd_mono; [|reflexivity].
  by apply fill_bounds_routes.
Qed.
End tour_route.

Lemma remove_dups_length_NoDup (l : list city) :
  length (remove_dups l) = length l → NoDup l.
Proof.
  induction l as [|x l IH]; simpl; [constructor|].
  assert (Hle : ∀ k : list city, length (remove_dups k) ≤ length k).
  { induction k as [|y k IHk]; simpl; [done|].
    destruct (decide_rel elem_of y k); simpl; lia. }
  destruct (decide_rel elem_of x l) as [Hx|Hx]; simpl.
  - specialize (Hle l). lia.
  - intros [= Hlen]. apply NoDup_cons. split; [done|by apply IH].
Qed.

(** C1 (as amended): on an instance of at most 20 cities, other than a
    single city, on which [nearest_neighbor] visits every city (its tour
    has the length of the city list), [dynamic_programming] returns a
    cost that is at most the cost [nearest_neighbor] returns. *)
Theorem dynamic_programming_not_above_full_tour h cities edges tour cost :
  length cities ≤ 20 →
  length cities ≠ 1 →
  nearest_neighbor h cities edges None = Ok (tour, cost) →
  length tour = length cities →
  ∃ path best_cost,
    dynamic_programming h cities edges = Ok (path, best_cost) ∧
    wle best_cost cost.
Proof.
  intros H20 H1 Hnn Hfull.
  destruct (decide (cities = [])) as [->|Hne].
  { simpl in Hnn. injection Hnn as <- <-. by exists [], (Fin 0). }
  destruct (nearest_neighbor_spec h cities edges Hne)
    as (tour' & stop & Heq & Hndt & Hsub & Hhead & _ & Hlen & _).
  rewrite Heq in Hnn. injection Hnn as -> <-.
  assert (Hndc : NoDup cities).
  { apply remove_dups_length_NoDup.
    assert (length (remove_dups cities) ≤ length cities).
    { clear. induction cities as [|y k IHk]; simpl; [done|].
      destruct (decide_rel elem_of y k); simpl; lia. }
    lia. }
  assert (Hc0 : ∃ c0, cities !! 0 = Some c0)
    by (destruct cities; [done|by eexists]).
  destruct Hc0 as [c0 Hc0].
  assert (Hn : 0 < length cities) by by apply lookup_lt_Some in Hc0.
  set (n := length cities) in *.
  destruct tour as [|t0 rest]; [simpl in Hfull; lia|].
  assert (t0 = c0) as ->.
  { rewrite (head_lookup cities), Hc0 in Hhead. simpl in Hhead. congruence. }
  destruct (tour_bounded_by_table cities edges n Hn c0 rest)
    as (last & Hlast & Hbound); try done.
  { intros c Hc. apply Hsub. by apply list_elem_of_further. }
  unfold dynamic_programming. fold n.
  destruct (Nat.ltb_spec n 2) as [?|_]; [lia|].
  destruct (Nat.ltb_spec 20 n) as [?|_]; [lia|].
  rewrite Nat.shiftl_1_l.
  set (st := fill cities edges n (dp_init n)) in *.
  pose proof (best_end_spec cities edges n st.1) as [Hmin Hbest].
  destruct (best_end cities edges n st.1) as [best_cost best_last].
  cbn [fst snd] in *.
  assert (Hle : wle best_cost (calculate_path_cost edges (c0 :: rest))).
  { etrans; [apply (Hmin last Hlast)|]. exact Hbound. }
  destruct best_last as [b|]; [|by eexists _, _].
  destruct (Hbest b eq_refl) as (Hb & Hcand & Hfin).
  destruct (fill_ok cities edges n Hn) as [Hinv _]. fold st in Hinv.
  destruct (walk_back_ok cities n st eq_refl Hinv n (2 ^ n - 1) b [])
    as [p Hp].
  { unfold dp_at. intros HI. apply Hfin. rewrite Hcand, HI. done. }
  { apply bits_below_le. }
  rewrite Hp. simpl. rewrite Hc0. by eexists _, _.
Qed.

Lemma dynamic_programming_not_above_full_tour_witness :
  ∃ path best_cost,
    dynamic_programming id [0; 1; 2; 3] square_edges = Ok (path, best_cost) ∧
    wle best_cost (Fin 40).
Proof.
  apply (dynamic_programming_not_above_full_tour
           id [0; 1; 2; 3] square_edges [0; 1; 2; 3] (Fin 40)).
  - simpl. lia.
  - simpl. lia.
  - vm_compute. reflexivity.
  - reflexivity.
Defined.

(** C1 as stated fails: when [nearest_neighbor] stops early its partial
    tour has a finite cost, while no tour through all three cities
    exists and [dynamic_programming] returns the infinite cost. *)
Theorem dynamic_programming_above_partial_tour :
  length [0; 1; 2] ≤ 20 ∧ ¬ exact_not_above_greedy id [0; 1; 2] pair_edges.
Proof.
  split; [simpl; lia|].
  intros (path & best_cost & tour & cost & Hdp & Hnn & Hle).
  vm_compute in Hdp. vm_compute in Hnn.
  injection Hdp as <- <-. injection Hnn as <- <-. exact Hle.
Qed.

(** * Further properties of the solvers *)

(** ** Cost of a path *)

Lemma foldl_wadd_Inf l : foldl wadd Inf l = Inf.
Proof. induction l as [|x l IH]; simpl; [done|]. apply IH. Qed.

Lemma foldl_wadd_elem_Inf l : Inf ∈ l → ∀ a, foldl wadd a l = Inf.
Proof.
  induction l as [|x l IH]; intros Hin a; [by apply elem_of_nil in Hin|].
  simpl. apply elem_of_cons in Hin as [<-|Hin]; [|by apply IH].
  destruct a; simpl; apply foldl_wadd_Inf.
Qed.

(** X1: when some edge of the closed tour (an element and its successor,
    the last wrapping to the first) has no entry in the table, the cost
    of the tour is infinite, the weights being non-negative (so that no
    partial sum is minus infinity). *)
Theorem path_cost_infinite_when_edge_missing edges path i a b :
  nonnegative_weights edges →
  path !! i = Some a →
  path !! ((i + 1) mod length path) = Some b →
  edges !! (a, b) = None →
  calculate_path_cost edges path = Inf.
Proof.
  intros _ Ha Hb He.
  rewrite calculate_path_cost_sum. unfold wsum, step_weights.
  apply foldl_wadd_elem_Inf, list_elem_of_lookup. exists i.
  apply lookup_zip_with_Some. exists a, b. split; [|split; [done|]].
  - unfold get_distance. by rewrite He.
  - rewrite successors_lookup; [done|]. by apply lookup_lt_Some in Ha.
Qed.

Lemma path_cost_infinite_when_edge_missing_witness :
  calculate_path_cost pair_edges [0; 1; 2] = Inf.
Proof.
  apply (path_cost_infinite_when_edge_missing pair_edges [0; 1; 2] 1 1 2).
  - apply map_Forall_to_list. vm_compute. repeat constructor; discriminate.
  - reflexivity.
  - reflexivity.
  - vm_compute. reflexivity.
Defined.

(** ** Nearest neighbour: the greedy step *)

Lemma scan_nearest_min_acc edges current l :
  ∀ acc : option city * weight,
    let r := foldl (λ (acc : option city * weight) city,
                      let dist := get_distance edges current city in
                      if wltb dist acc.2 then (Some city, dist) else acc) acc l in
    wle r.2 acc.2 ∧
    (∀ c, c ∈ l → wle r.2 (get_distance edges current c)) ∧
    (∀ c, r.1 = Some c →
          acc.1 = Some c ∧ r.2 = acc.2 ∨
          r.2 = get_distance edges current c ∧ r.2 ≠ Inf).
Proof.
  induction l as [|x l IH]; intros acc; simpl.
  - split; [reflexivity|]. split; [by intros c ?%elem_of_nil|]. by left.
  - destruct (IH (if wltb (get_distance edges current x) acc.2
                  then (Some x, get_distance edges current x) else acc))
      as (Hle & Hmin & Hsome).
    destruct (wltb (get_distance edges current x) acc.2) eqn:Ex;
      cbn [fst snd] in *.
    + split; [etrans; [exact Hle|by apply wltb_lt_le]|]. split.
      * intros c [->|Hc]%elem_of_cons; [done|by apply Hmin].
      * intros c Hc. destruct (Hsome c Hc) as [[[= <-] Heq]|?]; [|by right].
        right. split; [done|]. rewrite Heq. by eapply wltb_true_fin.
    + split; [done|]. split; [|done].
      intros c [->|Hc]%elem_of_cons; [|by apply Hmin].
      etrans; [exact Hle|]. by apply wltb_false_le.
Qed.

Lemma scan_nearest_min edges current unvisited nearest :
  (scan_nearest edges current unvisited).1 = Some nearest →
  get_distance edges current nearest ≠ Inf ∧
  ∀ c, c ∈ unvisited →
       wle (get_distance edges current nearest) (get_distance edges current c).
Proof.
  intros Hs.
  destruct (scan_nearest_min_acc edges current unvisited (None, Inf))
    as (_ & Hmin & Hsome).
  destruct (Hsome nearest Hs) as [[? _]|[Heq Hfin]]; [done|].
  unfold scan_nearest. rewrite <- Heq. split; [done|]. apply Hmin.
Qed.

Lemma nn_while_greedy edges universe fuel :
  ∀ unvisited path current,
    last path = Some current →
    (∀ c, c ∈ universe → c ∈ path ∨ c ∈ unvisited) →
    greedy_steps edges universe path →
    greedy_steps edges universe (nn_while edges fuel unvisited path current).
Proof.
  induction fuel as [|fuel IH]; intros unvisited path current Hlast Hcover Hg;
    [done|].
  simpl. destruct unvisited as [|u us] eqn:Eu; [done|].
  rewrite <- Eu in *. clear Eu u us.
  destruct (scan_nearest edges current unvisited).1 as [nearest|] eqn:Escan;
    [|done].
  destruct (scan_nearest_min _ _ _ _ Escan) as [Hfin Hmin].
  apply IH.
  - by rewrite last_snoc.
  - intros c Hc. destruct (decide (c = nearest)) as [->|Hne].
    + left. apply elem_of_app. right. apply list_elem_of_here.
    + destruct (Hcover c Hc) as [?|?].
      * left. apply elem_of_app. by left.
      * right. by apply list_elem_of_filter.
  - intros i a b Ha Hb.
    destruct (decide (S i < length path)) as [Hin|Hout].
    + rewrite lookup_app_l in Ha by lia. rewrite lookup_app_l in Hb by lia.
      rewrite take_app_le by lia. by apply Hg.
    + assert (S i = length path) as Hi.
      { apply lookup_lt_Some in Hb. rewrite length_app in Hb. simpl in Hb. lia. }
      rewrite lookup_app_l in Ha by lia.
      rewrite Hi, lookup_app_r, Nat.sub_diag in Hb by lia.
      injection Hb as <-.
      assert (a = current) as ->.
      { rewrite last_lookup in Hlast. rewrite <- Hi in Hlast. simpl in Hlast.
        congruence. }
      split; [done|]. intros c Hc Hnot.
      rewrite Hi, take_app_le, take_ge in Hnot by lia.
      destruct (Hcover c Hc) as [?|?]; [done|]. by apply Hmin.
Qed.

(** X2: each step of the tour [nearest_neighbor] returns goes along an
    existing edge to a city that is nearest, from the current one, among
    the input cities not visited before that step. *)
Theorem nearest_neighbor_steps_are_greedy h cities edges start :
  ∀ tour cost,
    nearest_neighbor h cities edges start = Ok (tour, cost) →
    greedy_steps edges cities tour.
Proof.
  intros tour cost. unfold nearest_neighbor.
  destruct cities as [|first rest] eqn:Ec.
  { intros [= <- <-]. intros i a b Ha. by destruct i. }
  rewrite <- Ec. clear Ec.
  set (s := default first start).
  destruct (decide (s ∈ set_iter h cities)) as [Hs|]; [|done].
  intros [= <- <-]. apply nn_while_greedy.
  - done.
  - intros c Hc. destruct (decide (c = s)) as [->|Hne].
    + left. apply list_elem_of_here.
    + right. apply list_elem_of_filter. split; [done|].
      by apply elem_of_set_iter.
  - intros i a b Ha Hb. by destruct i.
Qed.

Lemma nearest_neighbor_steps_are_greedy_witness :
  greedy_steps fork_edges [0; 1; 2] [0; 1].
Proof.
  apply (nearest_neighbor_steps_are_greedy id [0; 1; 2] fork_edges None
           [0; 1] (Fin 2)).
  vm_compute. reflexivity.
Defined.

(** ** Nearest neighbour: the start city *)

(** X3: on a non-empty city list, a start city that is not one of the
    cities makes [nearest_neighbor] raise [KeyError]; a start city that
    is one of them gives a duplicate-free tour over the input cities
    that begins with it, returned with its own cost. *)
Theorem nearest_neighbor_start_city h cities edges s :
  cities ≠ [] →
  (s ∉ cities → nearest_neighbor h cities edges (Some s) = Raise KeyError) ∧
  (s ∈ cities →
   ∃ tour, nearest_neighbor h cities edges (Some s)
           = Ok (tour, calculate_path_cost edges tour) ∧
           head tour = Some s ∧ NoDup tour ∧ ∀ c, c ∈ tour → c ∈ cities).
Proof.
  intros Hne.
  set (unvisited := filter (λ c, c ≠ s) (set_iter h cities)).
  assert (Hunfold :
    nearest_neighbor h cities edges (Some s)
    = if decide (s ∈ set_iter h cities)
      then Ok (nn_while edges (length unvisited) unvisited [s] s,
               calculate_path_cost edges
                 (nn_while edges (length unvisited) unvisited [s] s))
      else Raise KeyError) by by destruct cities.
  rewrite Hunfold. clear Hunfold. split.
  - intros Hs. rewrite decide_False; [done|]. by rewrite elem_of_set_iter.
  - intros Hs. rewrite decide_True by by rewrite elem_of_set_iter.
    destruct (nn_while_spec edges (length unvisited) unvisited [s] s)
      as (Hpre & Hnd & Hsub & _).
    + done.
    + apply NoDup_filter, set_iter_NoDup.
    + apply NoDup_singleton.
    + intros c ->%list_elem_of_singleton [Hc _]%list_elem_of_filter. done.
    + done.
    + eexists. split; [reflexivity|]. split; [|split; [done|]].
      * destruct Hpre as [k ->]. done.
      * intros c Hc. destruct (Hsub c Hc) as [->%list_elem_of_singleton|Hc'];
          [done|].
        apply list_elem_of_filter in Hc' as [_ Hc'].
        by apply elem_of_set_iter in Hc'.
Qed.

Lemma nearest_neighbor_start_city_witness :
  (2 ∉ [0; 1] → nearest_neighbor id [0; 1] fork_edges (Some 2) = Raise KeyError) ∧
  (2 ∈ [0; 1] →
   ∃ tour, nearest_neighbor id [0; 1] fork_edges (Some 2)
           = Ok (tour, calculate_path_cost fork_edges tour) ∧
           head tour = Some 2 ∧ NoDup tour ∧ ∀ c, c ∈ tour → c ∈ [0; 1]).
Proof. apply nearest_neighbor_start_city. discriminate. Defined.

(** ** 2-opt: what the result is *)

Lemma reverse_slice_head (t : list city) i j :
  1 ≤ i → head (reverse_slice t i j) = head t.
Proof.
  intros Hi. unfold reverse_slice. destruct t as [|x t].
  - by rewrite !take_nil, !drop_nil, take_nil.
  - destruct i as [|i]; [lia|]. done.
Qed.

Lemma reverse_slice_last (t : list city) i j :
  i ≤ j → j < length t → last (reverse_slice t i j) = last t.
Proof.
  intros Hij Hj. unfold reverse_slice.
  rewrite <- (take_drop j t) at 4.
  assert (Hd : drop j t ≠ []).
  { intros Hd. apply (f_equal length) in Hd. rewrite length_drop in Hd.
    simpl in Hd. lia. }
  destruct (drop j t) as [|y d] eqn:Ed using rev_ind; [done|].
  by rewrite !app_assoc, !last_snoc.
Qed.

Lemma try_move_None edges t c i found j :
  try_move edges t c i found j = None →
  found = None ∧
  (j - i ≠ 1 → wltb (calculate_path_cost edges (reverse_slice t i j)) c = false).
Proof.
  unfold try_move. destruct found; [done|]. split; [done|].
  destruct (Nat.eqb_spec (j - i) 1); [done|].
  by destruct (wltb _ c).
Qed.

Lemma inner_loop_None edges t c i js :
  ∀ found,
    foldl (try_move edges t c i) found js = None →
    found = None ∧
    ∀ j, j ∈ js → j - i ≠ 1 →
         wltb (calculate_path_cost edges (reverse_slice t i j)) c = false.
Proof.
  induction js as [|j js IH]; intros found; simpl.
  - intros ->. split; [done|]. by intros j ?%elem_of_nil.
  - intros Hn. destruct (IH _ Hn) as [Hf Hall].
    apply try_move_None in Hf as [-> Hj]. split; [done|].
    intros j' [->|Hj']%elem_of_cons; [done|by apply Hall].
Qed.

Lemma scan_moves_None edges len t c :
  scan_moves edges len t c = None →
  ∀ i j, two_opt_move len i j →
         wltb (calculate_path_cost edges (reverse_slice t i j)) c = false.
Proof.
  unfold scan_moves.
  assert (Hgen : ∀ is_ found,
    foldl (λ found i,
             match found with
             | Some _ => found
             | None => foldl (try_move edges t c i) None
                             (seq (i + 1) (len - (i + 1)))
             end) found is_ = None →
    found = None ∧
    ∀ i j, i ∈ is_ → i + 2 ≤ j → j < len →
           wltb (calculate_path_cost edges (reverse_slice t i j)) c = false).
  { induction is_ as [|i is_ IH]; intros found; simpl.
    - intros ->. split; [done|]. by intros i j ?%elem_of_nil.
    - intros Hn. destruct (IH _ Hn) as [Hf Hall].
      destruct found; [done|]. split; [done|].
      apply inner_loop_None in Hf as [_ Hin].
      intros i' j [->|Hi']%elem_of_cons Hj Hlen; [|by apply Hall].
      apply Hin; [|lia]. apply elem_of_seq. lia. }
  intros Hn i j (H1 & H2 & H3 & H4).
  destruct (Hgen _ _ Hn) as [_ Hall]. apply Hall; [|done|done].
  apply elem_of_seq. lia.
Qed.

Lemma scan_moves_Some_ends edges len t c r :
  len = length t →
  scan_moves edges len t c = Some r → head r.1 = head t ∧ last r.1 = last t.
Proof.
  intros Hlen. unfold scan_moves.
  assert (Hin : ∀ i js found,
    1 ≤ i → Forall (λ j, i ≤ j ∧ j < length t) js →
    foldl (try_move edges t c i) found js = Some r →
    found = Some r ∨ head r.1 = head t ∧ last r.1 = last t).
  { intros i js found Hi Hjs. revert found.
    induction Hjs as [|j js [Hij Hj] _ IH]; intros found; simpl; [by left|].
    intros Hr. destruct (IH _ Hr) as [Hf|?]; [|by right].
    apply try_move_Some in Hf as [->|(_ & H1 & _)]; [by left|right].
    rewrite H1. split; [by apply reverse_slice_head|by apply reverse_slice_last]. }
  assert (Hout : ∀ is_ found,
    Forall (λ i, 1 ≤ i) is_ →
    foldl (λ found i,
             match found with
             | Some _ => found
             | None => foldl (try_move edges t c i) None
                             (seq (i + 1) (len - (i + 1)))
             end) found is_ = Some r →
    found = Some r ∨ head r.1 = head t ∧ last r.1 = last t).
  { intros is_ found His. revert found.
    induction His as [|i is_ Hi _ IH]; intros found; simpl; [by left|].
    intros Hr. destruct (IH _ Hr) as [Hf|?]; [|by right].
    destruct found; [by left|].
    apply Hin in Hf as [?|?]; [done|by right|done|].
    apply Forall_forall. intros j [? ?]%elem_of_seq. lia. }
  intros Hr. apply Hout in Hr as [?|?]; [done|done|].
  apply Forall_forall. intros i [? ?]%elem_of_seq. lia.
Qed.

Lemma two_opt_while_result edges tour0 len :
  len = length tour0 →
  ∀ fuel t c r,
    t ≡ₚ tour0 → head t = head tour0 → last t = last tour0 →
    c = calculate_path_cost edges t →
    two_opt_while edges len fuel t c = Ok r →
    r.1 ≡ₚ tour0 ∧ head r.1 = head tour0 ∧ last r.1 = last tour0 ∧
    r.2 = calculate_path_cost edges r.1 ∧
    scan_moves edges len r.1 r.2 = None.
Proof.
  intros Hlen. induction fuel as [|fuel IH]; intros t c r Hp Hh Hl Hc; [done|].
  simpl. destruct (scan_moves edges len t c) as [[t1 c1]|] eqn:Escan.
  - pose proof (scan_moves_Some _ _ _ _ _ Escan) as (Hp1 & Hc1 & _).
    apply scan_moves_Some_ends in Escan as [Hh1 Hl1];
      [|by rewrite Hlen, (Permutation_length Hp)].
    simpl in *. apply IH; [by rewrite Hp1|congruence|congruence|done].
  - intros [= <-]. done.
Qed.

(** X4: whenever [two_opt] returns, the tour it returns is a
    rearrangement of the seed with the same first and the same last
    city, the returned cost is the cost of that tour, and the tour is a
    local optimum: none of the segment reversals a pass tries makes it
    cheaper. *)
Theorem two_opt_result_is_local_optimum fuel edges tour best_tour best_cost :
  two_opt fuel edges tour = Ok (best_tour, best_cost) →
  best_tour ≡ₚ tour ∧
  head best_tour = head tour ∧ last best_tour = last tour ∧
  best_cost = calculate_path_cost edges best_tour ∧
  ∀ i j, two_opt_move (length tour) i j →
         wle best_cost
             (calculate_path_cost edges (reverse_slice best_tour i j)).
Proof.
  unfold two_opt. intros Hr.
  apply (two_opt_while_result edges tour (length tour) eq_refl) in Hr
    as (Hp & Hh & Hl & Hc & Hnone); [|done..].
  simpl in *. do 4 (split; [done|]).
  intros i j Hm. apply wltb_false_le. by eapply scan_moves_None.
Qed.

Lemma two_opt_result_is_local_optimum_witness :
  [0; 1; 2; 3] ≡ₚ [0; 2; 1; 3] ∧
  head [0; 1; 2; 3] = head [0; 2; 1; 3] ∧
  last [0; 1; 2; 3] = last [0; 2; 1; 3] ∧
  Fin 40 = calculate_path_cost square_edges [0; 1; 2; 3] ∧
  ∀ i j, two_opt_move (length [0; 2; 1; 3]) i j →
         wle (Fin 40)
             (calculate_path_cost square_edges (reverse_slice [0; 1; 2; 3] i j)).
Proof.
  apply (two_opt_result_is_local_optimum 5 square_edges).
  vm_compute. reflexivity.
Defined.

(** X5: a tour of at most three cities offers no move: [two_opt]
    returns it unchanged, with its cost, after a single pass. *)
Theorem two_opt_short_tour_unchanged fuel edges tour :
  length tour ≤ 3 →
  two_opt (S fuel) edges tour = Ok (tour, calculate_path_cost edges tour).
Proof.
  intros Hlen. unfold two_opt. simpl. unfold scan_moves.
  replace (length tour - 2 - 1) with 0 by lia. done.
Qed.

Lemma two_opt_short_tour_unchanged_witness :
  two_opt 1 fork_edges [2; 0; 1]
  = Ok ([2; 0; 1], calculate_path_cost fork_edges [2; 0; 1]).
Proof. apply two_opt_short_tour_unchanged. simpl. lia. Defined.

(** ** Held-Karp: the entries are costs of walks *)

Section exact.
Variables (cities : list city) (edges : edge_table) (n : nat).

Lemma exact_upto_weaken k k' st :
  k ≤ k' → exact_upto cities edges k st → exact_upto cities edges k' st.
Proof.
  intros Hk He m j Hf. destruct (He m j Hf) as [H0 H1]. split; [done|].
  intros Hj. destruct (H1 Hj) as (l & ? & ? & ?). exists l.
  split; [done|]. split; [lia|done].
Qed.

Lemma relax_exact M last st next :
  dp_inv n st → exact_upto cities edges M st →
  dp_at st M last ≠ Inf → next < n →
  exact_upto cities edges M (relax cities edges M last st next).
Proof.
  intros [[Hd Hp] Hok] He Hfin Hn. unfold relax.
  rewrite has_bit_testbit, Nat.shiftl_1_l.
  destruct (Nat.testbit M next) eqn:Eb; [done|].
  destruct (wltb _ _) eqn:Elt; [|done].
  destruct (Hok M last Hfin) as (_ & Hb0 & _).
  destruct (tget_in_range _ _ _ _ _ _ Hd Hfin) as [HM Hl].
  pose proof (lor_pow2_bound n M next HM Hn) as Hnm.
  assert (Hgt : M < Nat.lor M (2 ^ next)).
  { rewrite lor_pow2_add by done.
    assert (0 < 2 ^ next) by (apply Nat.neq_0_lt_0, Nat.pow_nonzero; lia). lia. }
  assert (Hnext0 : next ≠ 0) by (intros ->; congruence).
  set (nm := Nat.lor M (2 ^ next)) in *.
  set (new := wadd (tget Inf st.1 M last) (dist_idx cities edges last next)) in *.
  intros m j. unfold dp_at. cbn [fst snd].
  destruct (decide ((nm, next) = (m, j))) as [[= <- <-]|Hne].
  - intros _. split; [done|]. intros _. exists last.
    rewrite (tget_tset_eq (2 ^ n) n) by done.
    rewrite (tget_tset_eq (2 ^ n) n) by done.
    replace (Nat.lxor nm (2 ^ next)) with M
      by (unfold nm; by rewrite lxor_lor_pow2).
    split; [done|]. split; [done|].
    rewrite tget_tset_ne; [done|]. intros [= ? ?]. lia.
  - rewrite tget_tset_ne by done. intros Hf.
    destruct (He m j Hf) as [H0 H1]. split; [done|].
    intros Hj. destruct (H1 Hj) as (l & Hpar & Hle & Heq). exists l.
    rewrite tget_tset_ne by done. split; [done|]. split; [done|].
    rewrite tget_tset_ne; [done|]. intros [= ? ?]. lia.
Qed.

#[local] Instance step_exact_in_preorder M last :
  PreOrder (step_exact_in cities edges n M last).
Proof.
  split.
  - intros st Hinv He _. split; [done|]. split; [done|apply later_refl].
  - intros s1 s2 s3 H12 H23 Hinv He Hfin.
    destruct (H12 Hinv He Hfin) as (Hinv2 & He2 & Hl12).
    destruct (H23 Hinv2 He2) as (Hinv3 & He3 & Hl23).
    + destruct (Hl12 M last) as [_ Heq]. by rewrite Heq.
    + split; [done|]. split; [done|by eapply later_trans].
Qed.

#[local] Instance step_exact_out_preorder M :
  PreOrder (step_exact_out cities edges n M).
Proof.
  split.
  - intros st Hinv He. split; [done|]. split; [done|apply later_refl].
  - intros s1 s2 s3 H12 H23 Hinv He.
    destruct (H12 Hinv He) as (Hinv2 & He2 & Hl12).
    destruct (H23 Hinv2 He2) as (Hinv3 & He3 & Hl23).
    split; [done|]. split; [done|by eapply later_trans].
Qed.

Lemma relax_step_exact M last st next :
  next < n →
  step_exact_in cities edges n M last st (relax cities edges M last st next).
Proof.
  intros Hn Hinv He Hfin.
  destruct (relax_step cities edges n M last st next Hn Hinv Hfin) as [? ?].
  split; [done|]. split; [by apply relax_exact|done].
Qed.

Lemma extend_step_exact M st last :
  step_exact_out cities edges n M st (extend cities edges n M st last).
Proof.
  intros Hinv He. unfold extend.
  destruct (negb (has_bit M last));
    [split; [done|]; split; [done|apply later_refl]|].
  destruct (is_inf (tget Inf st.1 M last)) eqn:Einf;
    [split; [done|]; split; [done|apply later_refl]|].
  apply (foldl_related (step_exact_in cities edges n M last)); [|done|done|].
  - intros s y [_ Hy]%elem_of_seq. apply relax_step_exact. lia.
  - unfold dp_at. by destruct (tget Inf st.1 M last).
Qed.

Lemma sweep_mask_step_exact M st :
  step_exact_out cities edges n M st
    (foldl (extend cities edges n M) st (seq 0 n)).
Proof.
  apply (foldl_related (step_exact_out cities edges n M)).
  intros s y _. apply extend_step_exact.
Qed.

Lemma dp_init_exact : 0 < n → exact_upto cities edges 0 (dp_init n).
Proof.
  intros Hn m j Hf.
  assert (Hmj : (m, j) = (1, 0)).
  { destruct (decide ((1, 0) = (m, j))) as [<-|Hne]; [done|].
    exfalso. apply Hf. unfold dp_at, dp_init. cbn [fst snd].
    rewrite tget_tset_ne by done. apply tget_replicate. }
  injection Hmj as -> ->. split; [|done]. intros _. split; [done|].
  by apply dp_init_start.
Qed.

Lemma sweeps_exact K :
  0 < n →
  dp_inv n (sweeps cities edges n K (dp_init n)) ∧
  exact_upto cities edges K (sweeps cities edges n K (dp_init n)).
Proof.
  intros Hn. induction K as [|K [Hinv He]].
  - split; [by apply dp_init_inv|by apply dp_init_exact].
  - unfold sweeps. rewrite seq_S, foldl_app. cbn [foldl].
    fold (sweeps cities edges n K (dp_init n)).
    replace (1 + K) with (S K) by lia.
    assert (He' : exact_upto cities edges (S K)
                    (sweeps cities edges n K (dp_init n)))
      by (apply (exact_upto_weaken K); [lia|done]).
    by destruct (sweep_mask_step_exact (S K) _ Hinv He') as (? & ? & _).
Qed.

Lemma fill_exact :
  0 < n →
  exact_upto cities edges (2 ^ n - 1) (fill cities edges n (dp_init n)).
Proof.
  intros Hn. unfold fill. rewrite Nat.shiftl_1_l.
  apply (sweeps_exact (2 ^ n - 1) Hn).
Qed.
End exact.


Lemma lor_lxor_pow2 mask i :
  Nat.testbit mask i = true → Nat.lor (Nat.lxor mask (2 ^ i)) (2 ^ i) = mask.
Proof.
  intros Eb. apply Nat.bits_inj. intros k.
  rewrite Nat.lor_spec, Nat.lxor_spec, Nat.pow2_bits_eqb.
  destruct (Nat.eqb_spec i k) as [->|_].
  - rewrite Eb. done.
  - by rewrite xorb_false_r, orb_false_r.
Qed.

Lemma cons_last_split (x : nat) q : ∃ l, x :: q = l ++ [default x (last q)].
Proof.
  destruct (last q) as [y|] eqn:El.
  - apply last_Some in El as [q' ->]. by exists (x :: q').
  - apply last_None in El as ->. by exists [].
Qed.

Lemma walk_mask_snoc m q j :
  walk_mask m (q ++ [j]) = Nat.lor (walk_mask m q) (2 ^ j).
Proof. unfold walk_mask. by rewrite foldl_app. Qed.

Section walk.
Variables (cities : list city) (edges : edge_table) (n k : nat).
Variable st : dp_state.
Hypothesis Hlen : length cities = n.
Hypothesis Hinv : dp_inv n st.
Hypothesis Hexact : exact_upto cities edges k st.

(** The walk over the parent pointers, read forwards: the indices
    visited after index 0. *)
Lemma walk_back_walk fuel :
  ∀ m j acc p,
    dp_at st m j ≠ Inf →
    walk_back cities st.2 fuel m j acc = Ok p →
    ∃ q ts,
      (p = acc ++ ts) ∧ positions_of cities (rev q) ts ∧
      default 0 (last q) = j ∧ (0 ∉ q) ∧ NoDup q ∧ (∀ i, i ∈ q → i < n) ∧
      walk_mask 1 q = m ∧
      dp_at st m j
      = foldl wadd (Fin 0) (chain_weights (dist_idx cities edges) (0 :: q)).
Proof using Hlen Hinv Hexact.
  destruct Hinv as [Hwf Hok].
  induction fuel as [|fuel IH]; intros m j acc p Hfin; [done|]. simpl.
  destruct (Nat.eqb_spec j 0) as [->|Hj0].
  - intros [= <-]. destruct (Hexact m 0 Hfin) as [H0 _].
    destruct (H0 eq_refl) as [-> Hval].
    exists [], []. rewrite app_nil_r. split; [done|]. split; [constructor|].
    split; [done|]. split; [apply not_elem_of_nil|]. split; [constructor|].
    split; [by intros i ?%elem_of_nil|]. split; [done|]. by rewrite Hval.
  - destruct (Hok m j Hfin) as (Hbj & _).
    destruct (tget_in_range _ _ _ _ _ _ (proj1 Hwf) Hfin) as [_ Hjn].
    destruct (Hexact m j Hfin) as [_ H1].
    destruct (H1 Hj0) as (l & Hpar & _ & Heq).
    destruct (lookup_lt_is_Some_2 cities j) as [c Hc]; [lia|].
    rewrite Hc, Nat.shiftl_1_l, Hpar. intros Hw.
    assert (Hfl : dp_at st (Nat.lxor m (2 ^ j)) l ≠ Inf).
    { intros HI. apply Hfin. by rewrite Heq, HI. }
    destruct (IH _ _ _ _ Hfl Hw)
      as (q & ts & -> & Hpos & Hlast & H0q & Hnd & Hrng & Hmask & Hcost).
    exists (q ++ [j]), (c :: ts).
    split; [by rewrite <- app_assoc|]. split.
    { rewrite rev_unit. by constructor. }
    split; [by rewrite last_snoc|]. split.
    { intros [?|Hj%list_elem_of_singleton]%elem_of_app; [done|congruence]. }
    assert (Hjq : j ∉ q).
    { intros Hjq.
      assert (Hb : Nat.testbit (walk_mask 1 q) j = true).
      { rewrite testbit_walk_mask, (bool_decide_true (j ∈ q)); [|done].
        apply orb_true_r. }
      rewrite Hmask, Nat.lxor_spec, Hbj, Nat.pow2_bits_eqb, Nat.eqb_refl in Hb.
      done. }
    split.
    { apply NoDup_app. split; [done|]. split; [|apply NoDup_singleton].
      intros i Hi ->%list_elem_of_singleton. done. }
    split.
    { intros i [?| ->%list_elem_of_singleton]%elem_of_app; [by apply Hrng|done]. }
    split.
    { rewrite walk_mask_snoc, Hmask. by apply lor_lxor_pow2. }
    rewrite Heq, Hcost.
    destruct (cons_last_split 0 q) as [l0 Hl0]. rewrite Hlast in Hl0.
    rewrite app_comm_cons, Hl0, chain_weights_snoc, foldl_app. done.
Qed.
End walk.

Lemma positions_rev cities p t :
  positions_of cities p t → positions_of cities (rev p) (rev t).
Proof.
  unfold positions_of. induction 1 as [|i c p t Hic _ IH]; [constructor|].
  simpl. apply Forall2_app; [done|]. by constructor.
Qed.

Lemma positions_fmap cities p t (d : city) :
  positions_of cities p t → t = (λ i, default d (cities !! i)) <$> p.
Proof.
  induction 1 as [|i c p t Hic _ IH]; [done|].
  rewrite fmap_cons, Hic. simpl. by f_equal.
Qed.

Lemma fmap_lookup_seq (cities : list city) (d : city) :
  (λ i, default d (cities !! i)) <$> seq 0 (length cities) = cities.
Proof.
  apply list_eq. intros i. rewrite list_lookup_fmap.
  destruct (decide (i < length cities)) as [Hi|Hi].
  - rewrite lookup_seq_lt by done. simpl.
    by destruct (lookup_lt_is_Some_2 cities i Hi) as [c ->].
  - rewrite lookup_seq_ge by lia. by rewrite lookup_ge_None_2 by lia.
Qed.

Lemma positions_cost cities edges q c0 rest :
  positions_of cities (0 :: q) (c0 :: rest) →
  calculate_path_cost edges (c0 :: rest)
  = wadd (foldl wadd (Fin 0) (chain_weights (dist_idx cities edges) (0 :: q)))
         (dist_idx cities edges (default 0 (last q)) 0).
Proof.
  intros Hpos. rewrite calculate_path_cost_sum, step_weights_chain. unfold wsum.
  rewrite <- (chain_weights_positions cities edges (0 :: q ++ [0])).
  2:{ unfold positions_of in *. inversion Hpos; subst.
      constructor; [done|]. apply Forall2_app; [done|]. by constructor. }
  destruct (cons_last_split 0 q) as [l Hl].
  rewrite app_comm_cons, Hl, chain_weights_snoc, foldl_app. done.
Qed.

Lemma best_end_None cities edges n dp :
  (best_end cities edges n dp).2 = None → (best_end cities edges n dp).1 = Inf.
Proof.
  unfold best_end. cbv zeta.
  set (g := λ last, wadd (tget Inf dp (Nat.shiftl 1 n - 1) last)
                         (dist_idx cities edges last 0)).
  assert (Hgen : ∀ l (acc : weight * option nat),
    (foldl (λ (acc : weight * option nat) last,
              if wltb (g last) acc.1 then (g last, Some last) else acc)
           acc l).2 = None →
    foldl (λ (acc : weight * option nat) last,
             if wltb (g last) acc.1 then (g last, Some last) else acc)
          acc l = acc).
  { induction l as [|x l IH]; intros acc; simpl; [done|].
    intros Hn. specialize (IH _ Hn).
    destruct (wltb (g x) acc.1); [|done]. rewrite IH in Hn. done. }
  intros Hn. exact (f_equal fst (Hgen (seq 0 n) (Inf, None) Hn)).
Qed.

Lemma dynamic_programming_unfold h cities edges :
  2 ≤ length cities → length cities ≤ 20 →
  let n := length cities in
  let st := fill cities edges n (dp_init n) in
  dynamic_programming h cities edges =
  match (best_end cities edges n st.1).2 with
  | None => Ok ([], (best_end cities edges n st.1).1)
  | Some best_last =>
      do path <- walk_back cities st.2 n (2 ^ n - 1) best_last [];
      match cities !! 0 with
      | None => Raise IndexError
      | Some c0 => Ok (rev (path ++ [c0]), (best_end cities edges n st.1).1)
      end
  end.
Proof.
  intros H2 H20 n st. unfold dynamic_programming. fold n.
  destruct (Nat.ltb_spec n 2) as [?|_]; [lia|].
  destruct (Nat.ltb_spec 20 n) as [?|_]; [lia|].
  rewrite Nat.shiftl_1_l. fold st.
  by destruct (best_end cities edges n st.1) as [bc [b|]].
Qed.

Lemma dynamic_programming_tour_or_empty h cities edges :
  2 ≤ length cities → length cities ≤ 20 →
  ∃ path best_cost,
    dynamic_programming h cities edges = Ok (path, best_cost) ∧
    (path = [] ∧ best_cost = Inf
     ∨ path ≡ₚ cities ∧ head path = head cities ∧
       calculate_path_cost edges path = best_cost ∧ best_cost ≠ Inf).
Proof.
  intros H2 H20. rewrite dynamic_programming_unfold by done.
  set (n := length cities). assert (Hn : 0 < n) by (unfold n; lia).
  set (st := fill cities edges n (dp_init n)).
  pose proof (best_end_spec cities edges n st.1) as [_ Hbest].
  pose proof (best_end_None cities edges n st.1) as Hnone.
  destruct (best_end cities edges n st.1) as [bc [b|]]; cbn [fst snd] in *.
  2:{ eexists _, _. split; [done|]. left. split; [done|by apply Hnone]. }
  destruct (Hbest b eq_refl) as (Hb & Hcand & Hfin).
  destruct (fill_ok cities edges n Hn) as [Hinv _]. fold st in Hinv.
  pose proof (fill_exact cities edges n Hn) as Hex. fold st in Hex.
  assert (Hfb : dp_at st (2 ^ n - 1) b ≠ Inf).
  { unfold dp_at. intros HI. apply Hfin. by rewrite Hcand, HI. }
  destruct (walk_back_ok cities n st eq_refl Hinv n (2 ^ n - 1) b [] Hfb)
    as [p Hp]; [apply bits_below_le|].
  rewrite Hp. cbn [rbind].
  destruct (lookup_lt_is_Some_2 cities 0) as [c0 Hc0]; [lia|]. rewrite Hc0.
  eexists _, _. split; [done|]. right.
  destruct (walk_back_walk cities edges n _ st eq_refl Hinv Hex n _ _ _ _ Hfb Hp)
    as (q & ts & -> & Hpos & Hlast & H0q & Hnd & Hrng & Hmask & Hcost).
  simpl. rewrite rev_unit.
  assert (Hpos' : positions_of cities (0 :: q) (c0 :: rev ts)).
  { unfold positions_of in *. constructor; [done|].
    rewrite <- (rev_involutive q). by apply positions_rev. }
  split; [|split; [|split; [|done]]].
  - rewrite (positions_fmap cities _ _ c0 Hpos').
    trans ((λ i, default c0 (cities !! i)) <$> seq 0 (length cities));
      [|by rewrite fmap_lookup_seq].
    apply fmap_Permutation.
    apply NoDup_Permutation.
    + by apply NoDup_cons.
    + apply NoDup_seq.
    + intros i. rewrite elem_of_seq, elem_of_cons. split.
      * intros [->|Hi]; [lia|]. specialize (Hrng i Hi). unfold n in Hrng. lia.
      * intros [_ Hi]. destruct (decide (i = 0)) as [|Hi0]; [by left|right].
        assert (Hb' : Nat.testbit (walk_mask 1 q) i = true).
        { rewrite Hmask. replace (2 ^ n - 1) with (Nat.ones n)
            by (rewrite Nat.ones_equiv; lia).
          apply Nat.ones_spec_low. unfold n. lia. }
        rewrite testbit_walk_mask in Hb'.
        change 1 with (2 ^ 0) in Hb'. rewrite Nat.pow2_bits_eqb in Hb'.
        destruct (Nat.eqb_spec 0 i); [lia|]. simpl in Hb'.
        by apply bool_decide_eq_true in Hb'.
  - by rewrite (head_lookup cities), Hc0.
  - rewrite (positions_cost cities edges q c0 (rev ts) Hpos').
    rewrite <- Hcost, Hlast, Hcand. done.
Qed.

(** X6: with 2 to 20 cities [dynamic_programming] returns. Either it
    returns the empty path with the infinite cost, or it returns a tour
    that is a rearrangement of the city list, begins with the first
    city, and whose cost, as [calculate_path_cost] computes it, is the
    finite cost returned with it. *)
Theorem dynamic_programming_returns_its_tour h cities edges :
  2 ≤ length cities → length cities ≤ 20 →
  ∃ path best_cost,
    dynamic_programming h cities edges = Ok (path, best_cost) ∧
    (path = [] ∧ best_cost = Inf
     ∨ path ≡ₚ cities ∧ head path = head cities ∧
       calculate_path_cost edges path = best_cost ∧ best_cost ≠ Inf).
Proof. apply dynamic_programming_tour_or_empty. Qed.

Lemma dynamic_programming_returns_its_tour_witness :
  ∃ path best_cost,
    dynamic_programming id [0; 1; 2; 3] square_edges = Ok (path, best_cost) ∧
    (path = [] ∧ best_cost = Inf
     ∨ path ≡ₚ [0; 1; 2; 3] ∧ head path = head [0; 1; 2; 3] ∧
       calculate_path_cost square_edges path = best_cost ∧ best_cost ≠ Inf).
Proof.
  apply dynamic_programming_returns_its_tour; simpl; lia.
Defined.

Lemma dynamic_programming_returns h cities edges :
  2 ≤ length cities → length cities ≤ 20 →
  let n := length cities in
  let st := fill cities edges n (dp_init n) in
  ∃ path,
    dynamic_programming h cities edges
    = Ok (path, (best_end cities edges n st.1).1).
Proof.
  intros H2 H20 n st. rewrite dynamic_programming_unfold by done.
  fold n. fold st. assert (Hn : 0 < n) by (unfold n; lia).
  pose proof (best_end_spec cities edges n st.1) as [_ Hbest].
  destruct (best_end cities edges n st.1) as [bc [b|]]; cbn [fst snd] in *.
  2:{ by eexists. }
  destruct (Hbest b eq_refl) as (Hb & Hcand & Hfin).
  destruct (fill_ok cities edges n Hn) as [Hinv _]. fold st in Hinv.
  assert (Hfb : dp_at st (2 ^ n - 1) b ≠ Inf).
  { unfold dp_at. intros HI. apply Hfin. by rewrite Hcand, HI. }
  destruct (walk_back_ok cities n st eq_refl Hinv n (2 ^ n - 1) b [] Hfb)
    as [p Hp]; [apply bits_below_le|].
  rewrite Hp. cbn [rbind].
  destruct (lookup_lt_is_Some_2 cities 0) as [c0 Hc0]; [lia|]. rewrite Hc0.
  by eexists.
Qed.

Lemma dynamic_programming_bound_from_start h cities edges c0 rest :
  2 ≤ length cities → length cities ≤ 20 → NoDup cities →
  cities !! 0 = Some c0 → c0 :: rest ≡ₚ cities →
  ∃ path best_cost,
    dynamic_programming h cities edges = Ok (path, best_cost) ∧
    wle best_cost (calculate_path_cost edges (c0 :: rest)).
Proof.
  intros H2 H20 Hnd Hc0 Hperm.
  destruct (dynamic_programming_returns h cities edges H2 H20)
    as (path & Hdp).
  set (n := length cities) in *. assert (Hn : 0 < n) by lia.
  set (st := fill cities edges n (dp_init n)) in *.
  eexists path, _. split; [exact Hdp|]. clear Hdp.
  destruct (tour_bounded_by_table cities edges n Hn c0 rest)
    as (last & Hlast & Hbound); try done.
  { by rewrite Hperm. }
  { intros c Hc. rewrite <- Hperm. by apply list_elem_of_further. }
  { by rewrite Hperm. }
  etrans; [|exact Hbound].
  apply (proj1 (best_end_spec cities edges n st.1)). done.
Qed.


(** X7: with 2 to 20 distinct cities the cost [dynamic_programming]
    returns is a lower bound for the cost of every tour through all the
    cities that starts at the first city, the city from which the table
    is filled and the weights are added. *)
Theorem dynamic_programming_minimal_from_start h cities edges tour :
  2 ≤ length cities → length cities ≤ 20 → NoDup cities →
  tour ≡ₚ cities → head tour = head cities →
  ∃ path best_cost,
    dynamic_programming h cities edges = Ok (path, best_cost) ∧
    wle best_cost (calculate_path_cost edges tour).
Proof.
  intros H2 H20 Hnd Hperm Hhead.
  destruct (lookup_lt_is_Some_2 cities 0) as [c0 Hc0]; [lia|].
  rewrite (head_lookup cities), Hc0 in Hhead.
  destruct tour as [|c rest]; [done|]. injection Hhead as ->.
  by apply dynamic_programming_bound_from_start.
Qed.

Lemma dynamic_programming_minimal_from_start_witness :
  ∃ path best_cost,
    dynamic_programming id [0; 1; 2; 3] square_edges = Ok (path, best_cost) ∧
    wle best_cost (calculate_path_cost square_edges [0; 2; 1; 3]).
Proof.
  apply dynamic_programming_minimal_from_start.
  - simpl. lia.
  - simpl. lia.
  - apply (bool_decide_unpack _). vm_compute. exact I.
  - apply (bool_decide_unpack _). vm_compute. exact I.
  - reflexivity.
Defined.

(** * Further properties of the circuit solver *)

(** ** The assembly as a whole *)

Lemma assemble_from_app ground node_list n l1 l2 GI :
  assemble_from ground node_list n GI (l1 ++ l2)
  = do GI' <- assemble_from ground node_list n GI l1;
    assemble_from ground node_list n GI' l2.
Proof.
  revert GI. induction l1 as [|c l1 IH]; intros GI; simpl; [done|].
  destruct (process_component ground node_list n GI c); simpl; [|done..].
  apply IH.
Qed.

Lemma stamp_resistor_ok ground node_list (G : matrix) comp :
  ¬ (value comp == 0)%Q →
  ∃ G', stamp_resistor ground node_list G comp = Ok G' ∧ length G' = length G.
Proof.
  intros Hv. unfold stamp_resistor.
  destruct (Qeq_bool (value comp) 0) eqn:Ev; [by apply Qeq_bool_iff in Ev|].
  destruct (unknown_index ground node_list (node1 comp)) as [idx1|];
    destruct (unknown_index ground node_list (node2 comp)) as [idx2|];
    try case_bool_decide; eexists; (split; [reflexivity|]);
    repeat (rewrite length_madd || rewrite length_msub); done.
Qed.

Lemma stamp_voltage_source_lengths ground node_list n (G : matrix) (I : list Q) comp :
  let GI := stamp_voltage_source ground node_list n G I comp in
  length GI.1 = length G ∧ length GI.2 = length I.
Proof.
  unfold stamp_voltage_source, fix_node.
  repeat case_bool_decide;
    destruct (list_index (node2 comp) node_list);
    destruct (list_index (node1 comp) node_list); simpl;
    rewrite ?length_alter, ?length_insert; done.
Qed.

Lemma assemble_from_ok ground node_list n components :
  nonzero_resistances components →
  ∀ G I, ∃ G' I',
    assemble_from ground node_list n (G, I) components = Ok (G', I') ∧
    length G' = length G ∧ length I' = length I.
Proof.
  induction components as [|comp rest IH]; intros Hnz G I.
  - by exists G, I.
  - apply Forall_cons in Hnz as [Hv Hnz].
    simpl. unfold process_component. destruct (type comp) eqn:Et; simpl.
    + destruct (stamp_resistor_ok ground node_list G comp (Hv eq_refl))
        as (G1 & -> & HlG). simpl.
      destruct (IH Hnz G1 I) as (G' & I' & -> & ? & ?).
      exists G', I'. repeat split; congruence.
    + pose proof (stamp_voltage_source_lengths ground node_list n G I comp)
        as [HlG HlI].
      destruct (stamp_voltage_source ground node_list n G I comp) as [G1 I1].
      simpl in *.
      destruct (IH Hnz G1 I1) as (G' & I' & -> & ? & ?).
      exists G', I'. repeat split; congruence.
    + destruct (IH Hnz G I) as (G' & I' & -> & ? & ?). by exists G', I'.
Qed.

(** The entry of [I] for a node is left alone by the components that do
    not touch the node. *)
Lemma assemble_from_frame_I ground node_list n idx k components :
  list_index k node_list = Some idx →
  isolated components k →
  ∀ G I G' I',
    assemble_from ground node_list n (G, I) components = Ok (G', I') →
    I' !! idx = I !! idx.
Proof.
  intros Hidx. induction components as [|comp rest IH]; intros Hiso G I G' I'.
  - by intros [= <- <-].
  - apply Forall_cons in Hiso as [[H1 H2] Hiso].
    simpl. unfold process_component. destruct (type comp) eqn:Et; simpl.
    + destruct (stamp_resistor ground node_list G comp); simpl; [|done..].
      by apply IH.
    + unfold stamp_voltage_source, fix_node.
      repeat case_bool_decide;
        destruct (list_index (node2 comp) node_list) as [i2|] eqn:E2;
        destruct (list_index (node1 comp) node_list) as [i1|] eqn:E1;
        intros Hr; apply IH in Hr; try done; rewrite Hr;
        try (pose proof (index_other node_list idx k Hidx _ _ H1 E1));
        try (pose proof (index_other node_list idx k Hidx _ _ H2 E2));
        by rewrite list_lookup_insert_ne.
    + by apply IH.
Qed.

Lemma identity_row_fix n idx :
  idx < n → identity_row n idx (<[idx := 1%Q]> (replicate n 0%Q)).
Proof.
  intros Hidx. split; [by rewrite length_insert, length_replicate|].
  intros j Hj. unfold entry.
  destruct (decide (j = idx)) as [->|Hne].
  - rewrite (nth_lookup_Some _ _ _ 1%Q); [reflexivity|].
    apply list_lookup_insert_eq. by rewrite length_replicate.
  - rewrite (nth_lookup_Some _ _ _ 0%Q); [reflexivity|].
    rewrite list_lookup_insert_ne by done. by apply lookup_replicate_2.
Qed.

(** X8: a voltage source between ground and a node pins that node
    provided no later component of the list touches the node: the
    assembly succeeds (resistances being non-zero), the node's row of
    [G] is the identity row and its entry of [I] is the source's value. *)
Theorem last_grounded_source_pins_its_node nodes before comp after ground other :
  nonzero_resistances (before ++ comp :: after) →
  grounded_source ground other comp →
  other ∈ nodes →
  isolated after other →
  ∃ G I idx row,
    assemble nodes (before ++ comp :: after) ground = Ok (G, I) ∧
    list_index other (unknown_nodes nodes ground) = Some idx ∧
    G !! idx = Some row ∧
    identity_row (length (unknown_nodes nodes ground)) idx row ∧
    I !! idx = Some (value comp).
Proof.
  intros Hnz (Ht & Hog & Hends) Hin Hiso. unfold assemble.
  set (node_list := unknown_nodes nodes ground).
  set (n := length node_list).
  destruct (list_index_elem_of other node_list) as [idx Hidx].
  { by apply elem_of_unknown_nodes. }
  assert (Hlt : idx < n).
  { by apply list_index_Some, lookup_lt_Some in Hidx. }
  apply Forall_app in Hnz as [Hnz1 Hnz2].
  apply Forall_cons in Hnz2 as [_ Hnz2].
  rewrite assemble_from_app.
  destruct (assemble_from_ok ground node_list n before Hnz1
              (replicate n (replicate n 0%Q)) (replicate n 0%Q))
    as (G1 & I1 & -> & HlG1 & HlI1).
  rewrite length_replicate in HlG1. rewrite length_replicate in HlI1.
  cbn [rbind assemble_from]. unfold process_component. rewrite Ht.
  cbn [rbind fst snd].
  assert (Hstamp : stamp_voltage_source ground node_list n G1 I1 comp
                   = fix_node n G1 I1 idx (value comp)).
  { unfold stamp_voltage_source.
    destruct Hends as [[H1 H2]|[H1 H2]].
    - by rewrite bool_decide_true, H2, Hidx by done.
    - rewrite (bool_decide_false (node1 comp = ground)) by congruence.
      by rewrite bool_decide_true, H2, Hidx by done. }
  rewrite Hstamp. unfold fix_node.
  set (G2 := alter (<[idx := 1%Q]>) idx (<[idx := replicate n 0%Q]> G1)).
  set (I2 := <[idx := value comp]> I1).
  destruct (assemble_from_frame ground node_list n idx other Hidx after
              Hiso Hnz2 G2 I2) as (G & I & Heq & _ & _ & Hrow).
  exists G, I, idx, (<[idx := 1%Q]> (replicate n 0%Q)).
  split; [done|]. split; [done|]. split; [|split].
  - rewrite Hrow. unfold G2. rewrite list_lookup_alter_eq.
    rewrite list_lookup_insert_eq by lia. done.
  - by apply identity_row_fix.
  - rewrite (assemble_from_frame_I ground node_list n idx other after
               Hidx Hiso _ _ _ _ Heq).
    unfold I2. apply list_lookup_insert_eq. lia.
Qed.

Lemma last_grounded_source_pins_its_node_witness :
  ∃ G I idx row,
    assemble [0; 1; 2]%Z
      ([mk_component 1 2 10 resistor] ++
       mk_component 2 0 5 voltage_source :: [mk_component 1 0 4 resistor]) 0
    = Ok (G, I) ∧
    list_index 2%Z (unknown_nodes [0; 1; 2]%Z 0) = Some idx ∧
    G !! idx = Some row ∧
    identity_row (length (unknown_nodes [0; 1; 2]%Z 0)) idx row ∧
    I !! idx = Some (value (mk_component 2 0 5 voltage_source)).
Proof.
  apply last_grounded_source_pins_its_node.
  - repeat constructor; simpl; intros _ Hq; discriminate Hq.
  - split; [reflexivity|]. split; [lia|]. right. split; reflexivity.
  - apply (bool_decide_unpack _). vm_compute. exact I.
  - repeat constructor; simpl; lia.
Defined.

(** ** What a call never does *)

Lemma gauss_jordan_length steps :
  ∀ c done rest rows,
    gauss_jordan steps c done rest = Some rows →
    length rows = length done + steps.
Proof.
  induction steps as [|steps IH]; intros c done rest rows; simpl.
  - intros [= <-]. lia.
  - destruct (pick_pivot c rest) as [[p rest']|]; [|done].
    destruct (Qeq_bool (entry c p) 0); [done|].
    intros Hr. apply IH in Hr. rewrite length_app, length_map in Hr.
    simpl in Hr. lia.
Qed.

Lemma linalg_solve_length (G : matrix) (I V : list Q) :
  linalg_solve G I = Some V → length V = length G.
Proof.
  unfold linalg_solve.
  destruct (gauss_jordan _ _ _ _) as [rows|] eqn:Eg; [|done].
  intros [= <-]. apply gauss_jordan_length in Eg.
  rewrite length_map. simpl in Eg. lia.
Qed.

Lemma voltage_dict_keys l :
  ∀ d : gmap Z Q,
    let d' := foldl (λ d (nv : Z * Q), <[nv.1 := nv.2]> d) d l in
    (∀ k, is_Some (d !! k) → is_Some (d' !! k)) ∧
    (∀ k v, (k, v) ∈ l → is_Some (d' !! k)).
Proof.
  induction l as [|[k0 v0] l IH]; intros d; simpl.
  - split; [done|]. by intros k v ?%elem_of_nil.
  - destruct (IH (<[k0 := v0]> d)) as [Hkeep Hnew]. split.
    + intros k Hk. apply Hkeep. rewrite lookup_insert_is_Some.
      destruct (decide (k0 = k)); [by left|by right].
    + intros k v [[= -> ->]|Hin]%elem_of_cons; [|by eapply Hnew].
      apply Hkeep. rewrite lookup_insert_is_Some. by left.
Qed.

Lemma make_voltage_dict_covers nodes ground V m :
  length V = length (unknown_nodes nodes ground) →
  m ∈ nodes →
  is_Some (make_voltage_dict ground (unknown_nodes nodes ground) V !! m).
Proof.
  intros HV Hm. unfold make_voltage_dict.
  destruct (voltage_dict_keys (zip (unknown_nodes nodes ground) V)
              {[ground := 0%Q]}) as [Hkeep Hnew].
  destruct (decide (m = ground)) as [->|Hne].
  - apply Hkeep. rewrite lookup_singleton_eq. by eexists.
  - assert (Hin : m ∈ unknown_nodes nodes ground)
      by by apply elem_of_unknown_nodes.
    apply list_elem_of_lookup in Hin as [i Hi].
    destruct (lookup_lt_is_Some_2 V i) as [v Hv].
    { rewrite HV. by apply lookup_lt_Some in Hi. }
    apply (Hnew m v). apply list_elem_of_lookup. exists i.
    apply lookup_zip_with_Some. by exists m, v.
Qed.

Lemma branch_results_ok (d : gmap Z Q) components :
  Forall (λ comp, is_Some (d !! node1 comp) ∧ is_Some (d !! node2 comp))
         components →
  nonzero_resistances components →
  ∀ i, ∃ r, branch_results d i components = Ok r.
Proof.
  induction components as [|comp rest IH]; intros Hd Hnz i; [by eexists|].
  apply Forall_cons in Hd as [[[v1 H1] [v2 H2]] Hd].
  apply Forall_cons in Hnz as [Hv Hnz].
  destruct (IH Hd Hnz (S i)) as [[rest' report] Hr].
  simpl. unfold branch_result. rewrite H1, H2.
  destruct (type comp) eqn:Et.
  - destruct (Qeq_bool (value comp) 0) eqn:Ev.
    { apply Qeq_bool_iff in Ev. by destruct (Hv eq_refl). }
    simpl. rewrite Hr. by eexists.
  - simpl. rewrite Hr. by eexists.
  - simpl. rewrite Hr. by eexists.
Qed.

(** X9: when both endpoints of every component are nodes of the circuit
    and no resistor has resistance 0, [calculate_circuit] never ends in
    an exception: it solves the circuit or shows one of its messages. *)
Theorem calculate_circuit_never_raises nodes components ground_var e :
  endpoints_exist nodes components →
  nonzero_resistances components →
  calculate_circuit nodes components ground_var ≠ Uncaught e.
Proof.
  intros Hends Hnz. unfold calculate_circuit.
  destruct (_ || _); [done|].
  destruct ground_var as [ground|]; [|done].
  case_bool_decide; [|done].
  destruct (_ =? 0); [done|].
  unfold assemble.
  set (n := length (unknown_nodes nodes ground)).
  destruct (assemble_from_ok ground (unknown_nodes nodes ground)
              n components Hnz
              (replicate n (replicate n 0%Q)) (replicate n 0%Q))
    as (G & I & -> & HlG & HlI).
  rewrite length_replicate in HlG.
  destruct (linalg_solve G I) as [V|] eqn:Es; [|done].
  apply linalg_solve_length in Es.
  destruct (branch_results_ok
              (make_voltage_dict ground (unknown_nodes nodes ground) V)
              components) with (i := 0) as [[comps report] ->]; [|done|done].
  eapply Forall_impl; [exact Hends|]. intros comp [H1 H2].
  split; (apply make_voltage_dict_covers; [by rewrite Es, HlG|done]).
Qed.

Lemma calculate_circuit_never_raises_witness :
  calculate_circuit [0; 1; 2]%Z
    [mk_component 1 2 10 resistor; mk_component 2 0 5 voltage_source]
    (Some 0%Z) ≠ Uncaught KeyError.
Proof.
  apply calculate_circuit_never_raises.
  - repeat constructor; apply (bool_decide_unpack _); vm_compute; exact I.
  - repeat constructor; simpl; intros _ Hq; discriminate Hq.
Defined.

(** X10: the node identifiers being distinct (they are the keys of a
    dict), the warning "Need at least one non-ground node" is never
    shown: two or more nodes of which one is ground leave an unknown
    node. *)
Theorem no_unknown_node_is_unreachable nodes components ground_var :
  NoDup nodes →
  calculate_circuit nodes components ground_var ≠ Failed NoUnknownNode.
Proof.
  intros Hnd. unfold calculate_circuit.
  destruct (Nat.ltb_spec (length nodes) 2) as [?|Hlen]; [done|].
  destruct (_ =? 0); [done|]. cbn [orb].
  destruct ground_var as [ground|]; [|done].
  case_bool_decide; [|done].
  destruct (Nat.eqb_spec (length (unknown_nodes nodes ground)) 0) as [H0|Hn0].
  2:{ destruct (assemble _ _ _) as [[G I]| |]; [|done..].
      destruct (linalg_solve G I); [|done].
      by destruct (branch_results _ _ _) as [[??]| |]. }
  exfalso.
  destruct nodes as [|a [|b rest]]; simpl in Hlen; [lia|lia|].
  apply NoDup_cons in Hnd as [Hab _].
  assert (Hin : ∃ m, m ∈ unknown_nodes (a :: b :: rest) ground).
  { destruct (decide (a = ground)) as [->|Ha].
    - exists b. apply elem_of_unknown_nodes. split.
      + intros ->. apply Hab, list_elem_of_here.
      + apply list_elem_of_further, list_elem_of_here.
    - exists a. apply elem_of_unknown_nodes. split; [done|].
      apply list_elem_of_here. }
  destruct Hin as [m Hm]. apply list_elem_of_lookup in Hm as [i Hi].
  apply lookup_lt_Some in Hi. lia.
Qed.

Lemma no_unknown_node_is_unreachable_witness :
  calculate_circuit [3; 7]%Z [mk_component 3 7 10 resistor] (Some 7%Z)
  ≠ Failed NoUnknownNode.
Proof.
  apply no_unknown_node_is_unreachable.
  apply (bool_decide_unpack _). vm_compute. exact I.
Defined.

(** * Properties of the editing windows *)

(** ** A resistor of zero ohms *)

Lemma process_component_raises ground node_list n GI comp e :
  process_component ground node_list n GI comp = Raise e →
  e = ZeroDivisionError.
Proof.
  unfold process_component, stamp_resistor.
  destruct (type comp); [|done..].
  destruct (Qeq_bool (value comp) 0); [simpl; congruence|].
  destruct (unknown_index ground node_list (node2 comp)); [|done].
  by destruct (bool_decide _).
Qed.

Lemma process_component_fuel ground node_list n GI comp :
  process_component ground node_list n GI comp ≠ OutOfFuel.
Proof.
  unfold process_component, stamp_resistor.
  destruct (type comp); [|done..].
  destruct (Qeq_bool (value comp) 0); [done|].
  destruct (unknown_index ground node_list (node2 comp)); [|done].
  by destruct (bool_decide _).
Qed.

Lemma assemble_from_zero_ohm ground node_list n components :
  Exists (λ comp, type comp = resistor ∧ (value comp == 0)%Q) components →
  ∀ GI, assemble_from ground node_list n GI components
        = Raise ZeroDivisionError.
Proof.
  induction components as [|comp rest IH]; intros Hex GI.
  { by apply Exists_nil in Hex. }
  simpl.
  destruct (process_component ground node_list n GI comp) as [GI'|e|] eqn:E.
  - simpl. apply Exists_cons in Hex as [[Ht Hv]|Hex]; [|by apply IH].
    exfalso. unfold process_component in E. rewrite Ht in E.
    unfold stamp_resistor in E.
    apply Qeq_bool_iff in Hv. by rewrite Hv in E.
  - simpl. by rewrite (process_component_raises _ _ _ _ _ _ E).
  - by apply process_component_fuel in E.
Qed.

(** X11: a resistor of zero ohms anywhere in the component list makes
    [calculate_circuit] raise [ZeroDivisionError] (from
    [1.0 / comp.value]), once its guards are passed: at least two nodes,
    an existing ground node. *)
Theorem zero_ohm_resistor_raises nodes components ground :
  2 ≤ length nodes → NoDup nodes → ground ∈ nodes →
  Exists (λ comp, type comp = resistor ∧ (value comp == 0)%Q) components →
  calculate_circuit nodes components (Some ground)
  = Uncaught ZeroDivisionError.
Proof.
  intros H2 Hnd Hg Hex. unfold calculate_circuit.
  destruct (Nat.ltb_spec (length nodes) 2) as [?|_]; [lia|].
  destruct components as [|c0 rest]; [by apply Exists_nil in Hex|].
  cbn [length Nat.eqb orb].
  rewrite bool_decide_eq_true_2 by done.
  destruct (Nat.eqb_spec (length (unknown_nodes nodes ground)) 0) as [E|_].
  - exfalso. unfold unknown_nodes in E.
    rewrite merge_sort_Permutation in E.
    destruct nodes as [|a [|b l]]; simpl in H2; try lia.
    apply NoDup_cons in Hnd as [Ha Hnd].
    assert (Hab : a ≠ b) by (intros ->; apply Ha, list_elem_of_here).
    apply length_zero_iff_nil in E.
    destruct (decide (a = ground)) as [->|Hag].
    + assert (Hb : b ∈ filter (λ n, n ≠ ground) (ground :: b :: l)).
      { apply list_elem_of_filter. split; [done|].
        apply list_elem_of_further, list_elem_of_here. }
      rewrite E in Hb. by apply elem_of_nil in Hb.
    + assert (Hb : a ∈ filter (λ n, n ≠ ground) (a :: b :: l)).
      { apply list_elem_of_filter. split; [done|]. apply list_elem_of_here. }
      rewrite E in Hb. by apply elem_of_nil in Hb.
  - unfold assemble. by rewrite assemble_from_zero_ohm.
Qed.

Lemma zero_ohm_resistor_raises_witness :
  calculate_circuit [0; 1; 2]%Z
    [mk_component 0 1 5 voltage_source; mk_component 1 2 0 resistor]
    (Some 0%Z)
  = Uncaught ZeroDivisionError.
Proof.
  apply zero_ohm_resistor_raises.
  - simpl. lia.
  - apply (bool_decide_unpack _). vm_compute. exact I.
  - apply (bool_decide_unpack _). vm_compute. exact I.
  - apply Exists_cons_tl, Exists_cons_hd. split; reflexivity.
Defined.

(** ** The circuit editor *)

Lemma nearest_within_elem {A} sqrt limit (position : A → Z * Z) x y items a :
  nearest_within sqrt limit position x y items = Some a → a ∈ items.
Proof.
  unfold nearest_within.
  assert (Hgen : ∀ l acc,
    (∀ b, acc.1 = Some b → b ∈ items) → (∀ b, b ∈ l → b ∈ items) →
    ∀ b, (foldl (λ acc item,
            let dist :=
              pointer_distance sqrt x y (position item).1 (position item).2 in
            if Qltb dist limit && wltb (Fin dist) acc.2
            then (Some item, Fin dist) else acc) acc l).1 = Some b →
         b ∈ items).
  { induction l as [|c l IH]; intros acc Hacc Hl b; simpl.
    - apply Hacc.
    - apply IH.
      + intros b'. destruct (_ && _); simpl.
        * intros [= <-]. apply Hl, list_elem_of_here.
        * apply Hacc.
      + intros b' Hb'. by apply Hl, list_elem_of_further. }
  apply (Hgen items (None, Inf)); [done|done].
Qed.

Lemma redraw_circuit_ok st :
  endpoints_exist (node_ids st) (ks_components st) → redraw_circuit st = None.
Proof.
  intros Hend. unfold redraw_circuit.
  assert (forallb (λ comp, bool_decide (node1 comp ∈ node_ids st)
                      && bool_decide (node2 comp ∈ node_ids st))
             (ks_components st) = true) as ->; [|done].
  apply forallb_forall. intros comp Hin%list_elem_of_In.
  unfold endpoints_exist in Hend. rewrite Forall_forall in Hend.
  destruct (Hend comp Hin) as [H1 H2].
  by rewrite !bool_decide_eq_true_2.
Qed.

Lemma endpoints_exist_mono nodes nodes' components :
  (∀ k, k ∈ nodes → k ∈ nodes') →
  endpoints_exist nodes components → endpoints_exist nodes' components.
Proof.
  intros Hsub Hend. unfold endpoints_exist in *.
  eapply Forall_impl; [exact Hend|].
  intros comp [H1 H2]. split; by apply Hsub.
Qed.

Lemma add_node_ok x y st : circuit_ok st → circuit_ok (add_node x y st).
Proof.
  intros (Hnd & Hlt & Hend & Hne & Hsel).
  assert (Hfresh : ks_node_counter st ∉ node_ids st).
  { intros Hin. rewrite Forall_forall in Hlt. specialize (Hlt _ Hin). lia. }
  assert (Hkeys : node_ids (add_node x y st)
                  = node_ids st ++ [ks_node_counter st]).
  { unfold node_ids, add_node, dict_set. cbn [ks_nodes].
    rewrite bool_decide_eq_false_2 by done.
    by rewrite fmap_app. }
  unfold circuit_ok. rewrite Hkeys. cbn [add_node ks_components
    ks_node_counter ks_selected_node ks_mode].
  split; [|split; [|split; [|split]]].
  - apply NoDup_app. split; [done|]. split; [|apply NoDup_singleton].
    intros k Hk ->%list_elem_of_singleton. done.
  - apply Forall_app. split.
    + eapply Forall_impl; [exact Hlt|]. simpl. intros. lia.
    + apply Forall_singleton. lia.
  - eapply endpoints_exist_mono; [|exact Hend].
    intros k Hk. apply elem_of_app. by left.
  - done.
  - intros s Hs. destruct (Hsel s Hs) as [Hin Hm]. split; [|done].
    apply elem_of_app. by left.
Qed.

Lemma add_component_ok v n1 n2 st :
  circuit_ok st → n1 ∈ node_ids st → n2 ∈ node_ids st → n1 ≠ n2 →
  (add_component v n1 n2 st).2 = None ∧
  circuit_ok (add_component v n1 n2 st).1 ∧
  node_ids (add_component v n1 n2 st).1 = node_ids st ∧
  ks_mode (add_component v n1 n2 st).1 = ks_mode st ∧
  ks_selected_node (add_component v n1 n2 st).1 = ks_selected_node st.
Proof.
  intros Hok H1 H2 Hne. unfold add_component.
  destruct v as [value|]; [|done].
  set (st' := {| ks_nodes := ks_nodes st;
                 ks_components := ks_components st ++ _;
                 ks_node_counter := _; ks_selected_node := _;
                 ks_mode := _ |}).
  assert (Hids : node_ids st' = node_ids st) by done.
  rewrite Hids, !bool_decide_eq_true_2 by done. cbn [andb fst snd].
  destruct Hok as (Hnd & Hlt & Hend & Hdiff & Hsel).
  assert (Hend' : endpoints_exist (node_ids st') (ks_components st')).
  { rewrite Hids. unfold st'. cbn [ks_components].
    apply Forall_app. split; [done|]. by apply Forall_singleton. }
  split; [by apply redraw_circuit_ok|].
  split; [|done].
  unfold circuit_ok. rewrite Hids. split; [done|]. split; [done|].
  split; [by rewrite <- Hids|]. split; [|done].
  unfold st'. cbn [ks_components].
  apply Forall_app. split; [done|]. by apply Forall_singleton.
Qed.

Lemma handle_component_click_ok sqrt v x y st :
  circuit_ok st → ks_mode st ≠ ModeDelete →
  (handle_component_click sqrt v x y st).2 = None ∧
  circuit_ok (handle_component_click sqrt v x y st).1.
Proof.
  intros Hok Hmode. unfold handle_component_click.
  destruct (nearest_within sqrt 20 snd x y (ks_nodes st))
    as [[nearest pos]|] eqn:En; [|done].
  apply nearest_within_elem in En.
  assert (Hin : nearest ∈ node_ids st).
  { unfold node_ids. apply list_elem_of_fmap. by exists (nearest, pos). }
  destruct (ks_selected_node st) as [sel|] eqn:Es.
  - destruct (proj2 (proj2 (proj2 (proj2 Hok))) sel Es) as [Hsel _].
    destruct (decide (nearest = sel)) as [->|Hne].
    + rewrite bool_decide_eq_false_2 by (intros Hc; by apply Hc).
      split; [done|].
      destruct Hok as (Hnd & Hlt & Hend & Hdiff & _).
      by repeat split.
    + rewrite bool_decide_eq_true_2 by done.
      destruct (add_component_ok v sel nearest st Hok Hsel Hin)
        as (He & Hok' & Hids & Hm & _); [done|].
      destruct (add_component v sel nearest st) as [st' e].
      cbn [fst snd] in *. subst e. split; [done|].
      destruct Hok' as (Hnd & Hlt & Hend & Hdiff & _).
      by repeat split.
  - split; [done|].
    destruct Hok as (Hnd & Hlt & Hend & Hdiff & _).
    repeat split; try done.
    + cbn [ks_selected_node] in H. by injection H as <-.
Qed.

Lemma delete_at_position_ok sqrt x y st :
  circuit_ok st → ks_selected_node st = None →
  (delete_at_position sqrt x y st).2 = None ∧
  circuit_ok (delete_at_position sqrt x y st).1.
Proof.
  intros (Hnd & Hlt & Hend & Hdiff & _) Hsel. unfold delete_at_position.
  destruct (list_find _ (ks_nodes st)) as [[i [node_id pos]]|] eqn:Ef.
  2:{ split; [done|].
      refine (conj Hnd (conj Hlt (conj Hend (conj Hdiff _)))).
      intros s Hs. cbn [fst] in Hs. by rewrite Hsel in Hs. }
  set (st' := {| ks_nodes := filter _ (ks_nodes st); ks_components := _;
                 ks_node_counter := _; ks_selected_node := _;
                 ks_mode := _ |}).
  assert (Hids : ∀ k, k ∈ node_ids st' ↔ k ∈ node_ids st ∧ k ≠ node_id).
  { intros k. unfold node_ids, st'. cbn [ks_nodes].
    rewrite !list_elem_of_fmap. split.
    - intros ([k' p] & -> & [Hk Hin]%list_elem_of_filter). simpl in *.
      split; [|done]. by exists (k', p).
    - intros [([k' p] & -> & Hin) Hk]. exists (k', p). split; [done|].
      apply list_elem_of_filter. by split. }
  assert (Hend' : endpoints_exist (node_ids st') (ks_components st')).
  { unfold endpoints_exist, st'. cbn [ks_components].
    apply Forall_forall. intros c [[Hc1 Hc2] Hc]%list_elem_of_filter.
    unfold endpoints_exist in Hend. rewrite Forall_forall in Hend.
    destruct (Hend c Hc) as [H1 H2]. split; by apply Hids. }
  cbn [fst snd]. split; [by apply redraw_circuit_ok|].
  split; [|split; [|split; [done|split]]].
  - unfold node_ids, st'. cbn [ks_nodes].
    assert (Hsub : sublist (filter (λ kv : Z * (Z * Z), kv.1 ≠ node_id)
                                   (ks_nodes st)) (ks_nodes st))
      by apply sublist_filter.
    eapply sublist_NoDup; [exact Hnd|].
    by apply fmap_sublist.
  - apply Forall_forall. intros k [Hk _]%Hids.
    rewrite Forall_forall in Hlt. by apply Hlt.
  - unfold st'. cbn [ks_components].
    apply Forall_forall. intros c [_ Hc]%list_elem_of_filter.
    rewrite Forall_forall in Hdiff. by apply Hdiff.
  - intros s. unfold st'. cbn [ks_selected_node]. by rewrite Hsel.
Qed.

Lemma circuit_step_ok sqrt st ev :
  circuit_ok st →
  (circuit_step sqrt st ev).2 = None ∧ circuit_ok (circuit_step sqrt st ev).1.
Proof.
  intros Hok. destruct ev as [v x y|m|]; cbn [circuit_step].
  - unfold canvas_click. destruct (ks_mode st) eqn:Em.
    + split; [done|]. by apply add_node_ok.
    + apply handle_component_click_ok; [done|]. by rewrite Em.
    + apply handle_component_click_ok; [done|]. by rewrite Em.
    + apply delete_at_position_ok; [done|].
      destruct (ks_selected_node st) as [s|] eqn:Es; [|done].
      destruct (proj2 (proj2 (proj2 (proj2 Hok))) s Es) as [_ Hm]. done.
  - split; [done|]. destruct Hok as (Hnd & Hlt & Hend & Hdiff & _).
    by repeat split.
  - split; [done|]. unfold circuit_ok, clear_circuit, node_ids. simpl.
    repeat split; try done; try constructor.
Qed.

Lemma circuit_run_ok sqrt events :
  ∀ st raised, circuit_ok st →
    let result :=
      foldl (λ acc ev,
               let '(st', e) := circuit_step sqrt acc.1 ev in
               (st', acc.2 ++ option_list e))
            (st, raised) events in
    result.2 = raised ∧ circuit_ok result.1.
Proof.
  induction events as [|ev events IH]; intros st raised Hok; [done|].
  cbn [foldl fst snd].
  destruct (circuit_step_ok sqrt st ev Hok) as [He Hok'].
  destruct (circuit_step sqrt st ev) as [st' e]. cbn [fst snd] in *.
  subst e. simpl. rewrite app_nil_r. by apply IH.
Qed.

(** X12: whatever sequence of canvas clicks, mode changes and clears the
    circuit editor goes through from its initial state, no callback
    raises, the node ids stay distinct and below [node_counter] (the id
    the next node gets, so a new node never takes the id of a node
    still present), and every component joins two different nodes that
    still exist: deleting a node takes its components with it. *)
Theorem circuit_editor_keeps_components_attached sqrt events :
  let result := circuit_run sqrt events new_circuit in
  result.2 = [] ∧
  NoDup (node_ids result.1) ∧
  Forall (λ k, (k < ks_node_counter result.1)%Z) (node_ids result.1) ∧
  endpoints_exist (node_ids result.1) (ks_components result.1) ∧
  Forall (λ c, node1 c ≠ node2 c) (ks_components result.1).
Proof.
  assert (Hinit : circuit_ok new_circuit).
  { unfold circuit_ok, new_circuit, node_ids. simpl.
    repeat split; try done; constructor. }
  destruct (circuit_run_ok sqrt events new_circuit [] Hinit)
    as [He (Hnd & Hlt & Hend & Hdiff & _)].
  done.
Qed.

(** ** The map editor *)

Lemma symmetric_insert_pair (edges : edge_table) a b w :
  symmetric_table edges →
  symmetric_table (<[(b, a) := w]> (<[(a, b) := w]> edges)).
Proof.
  intros Hsym [k1 k2] w' Hk. unfold mirrored, get_distance. cbn [fst snd].
  apply lookup_insert_Some in Hk as [[Hk <-]|[Hne Hk]].
  - injection Hk as <- <-. rewrite lookup_insert.
    destruct (decide ((b, a) = (a, b))); [simpl; reflexivity|].
    rewrite lookup_insert_eq. simpl. reflexivity.
  - apply lookup_insert_Some in Hk as [[Hk <-]|[Hne' Hk]].
    + injection Hk as <- <-. rewrite lookup_insert_eq. simpl. reflexivity.
    + rewrite !lookup_insert_ne by congruence.
      apply (Hsym (k1, k2) w' Hk).
Qed.

Lemma edges_between_insert_pair (cities : list city) (edges : edge_table) a b w :
  a ∈ cities → b ∈ cities → a ≠ b →
  edges_between cities edges →
  edges_between cities (<[(b, a) := w]> (<[(a, b) := w]> edges)).
Proof.
  intros Ha Hb Hab Hbt. unfold edges_between.
  apply map_Forall_insert_2; [by simpl|].
  apply map_Forall_insert_2; [by simpl|]. done.
Qed.

Lemma edges_between_mono (cities cities' : list city) (edges : edge_table) :
  (∀ k, k ∈ cities → k ∈ cities') →
  edges_between cities edges → edges_between cities' edges.
Proof.
  intros Hsub Hbt k w Hk. destruct (Hbt k w Hk) as (H1 & H2 & H3).
  split; [by apply Hsub|]. split; [by apply Hsub|done].
Qed.

Lemma symmetric_filter (edges : edge_table) c :
  symmetric_table edges →
  symmetric_table (filter (λ kv, kv.1.1 ≠ c ∧ kv.1.2 ≠ c) edges).
Proof.
  intros Hsym [k1 k2] w [Hk [H1 H2]]%map_lookup_filter_Some.
  cbn [fst snd] in *.
  pose proof (Hsym (k1, k2) w Hk) as Hm.
  unfold mirrored, get_distance in *. cbn [fst snd] in *.
  destruct (edges !! (k2, k1)) as [w2|] eqn:E2.
  - rewrite (map_lookup_filter_Some_2 _ _ _ _ E2); [done|]. by simpl.
  - done.
Qed.

Lemma add_city_ok sqrt auto x y st :
  map_ok st → map_ok (add_city sqrt auto x y st).
Proof.
  intros (Hnd & Hlt & Hsym & Hbt & Hsel).
  set (new := ts_city_counter st).
  assert (Hfresh : new ∉ city_ids st).
  { intros Hin. rewrite Forall_forall in Hlt. specialize (Hlt _ Hin).
    unfold new in Hlt. lia. }
  assert (Hids : city_ids (add_city sqrt auto x y st) = city_ids st ++ [new]).
  { unfold city_ids, add_city. cbn [ts_cities]. by rewrite fmap_app. }
  assert (Hloop : ∀ others edges,
    (∀ o, o ∈ others → city_name o ∈ city_ids st) →
    symmetric_table edges → edges_between (city_ids st ++ [new]) edges →
    let edges' :=
      foldl (λ edges other,
               let dist :=
                 distance_to sqrt
                   {| city_x := x; city_y := y; city_name := new |} other in
               <[(city_name other, new) := dist]>
                 (<[(new, city_name other) := dist]> edges))
            edges others in
    symmetric_table edges' ∧ edges_between (city_ids st ++ [new]) edges').
  { induction others as [|o others IH]; intros edges Ho Hs Hb; [done|].
    cbn [foldl]. apply IH.
    - intros o' Ho'. by apply Ho, list_elem_of_further.
    - by apply symmetric_insert_pair.
    - assert (Hin : city_name o ∈ city_ids st)
        by apply Ho, list_elem_of_here.
      apply edges_between_insert_pair; try done.
      + apply elem_of_app. right. apply list_elem_of_here.
      + apply elem_of_app. by left.
      + intros ->. done. }
  assert (Hbt' : edges_between (city_ids st ++ [new]) (ts_edges st)).
  { eapply edges_between_mono; [|exact Hbt].
    intros k Hk. apply elem_of_app. by left. }
  assert (Hedges : symmetric_table (ts_edges (add_city sqrt auto x y st)) ∧
                   edges_between (city_ids st ++ [new])
                                 (ts_edges (add_city sqrt auto x y st))).
  { unfold add_city. cbn [ts_edges city_name].
    destruct (auto && _); [|done].
    apply Hloop; try done.
    intros o Ho. unfold city_ids. apply list_elem_of_fmap. by exists o. }
  unfold map_ok. rewrite Hids.
  split; [|split; [|split; [|split]]].
  - apply NoDup_app. split; [done|]. split; [|apply NoDup_singleton].
    intros k Hk ->%list_elem_of_singleton. done.
  - unfold add_city. cbn [ts_city_counter].
    apply Forall_app. split.
    + eapply Forall_impl; [exact Hlt|]. simpl. intros. lia.
    + apply Forall_singleton. unfold new. lia.
  - apply Hedges.
  - apply Hedges.
  - unfold add_city. cbn [ts_selected_city ts_cities ts_mode].
    intros c Hc. destruct (Hsel c Hc) as [Hin Hm]. split; [|done].
    apply elem_of_app. by left.
Qed.

Lemma find_nearest_city_elem sqrt x y st c :
  find_nearest_city sqrt x y st = Some c → c ∈ ts_cities st.
Proof. apply nearest_within_elem. Qed.

Lemma handle_edge_click_ok sqrt w x y st :
  map_ok st → ts_mode st ≠ ModeDeleteCity →
  map_ok (handle_edge_click sqrt w x y st).
Proof.
  intros Hok Hmode. unfold handle_edge_click.
  destruct (find_nearest_city sqrt x y st) as [nearest|] eqn:En; [|done].
  apply find_nearest_city_elem in En.
  destruct Hok as (Hnd & Hlt & Hsym & Hbt & Hsel).
  destruct (ts_selected_city st) as [sel|] eqn:Es.
  - destruct (Hsel sel eq_refl) as [Hin _].
    assert (Hn : city_name nearest ∈ city_ids st).
    { unfold city_ids. apply list_elem_of_fmap. by exists nearest. }
    assert (Hs : city_name sel ∈ city_ids st).
    { unfold city_ids. apply list_elem_of_fmap. by exists sel. }
    refine (conj Hnd (conj Hlt _)). cbn [ts_edges ts_selected_city].
    split; [|split; [|done]].
    + case_bool_decide as Hd; [|done]. destruct w as [weight|]; [|done].
      by apply symmetric_insert_pair.
    + case_bool_decide as Hd; [|done]. destruct w as [weight|]; [|done].
      apply edges_between_insert_pair; try done.
  - refine (conj Hnd (conj Hlt (conj Hsym (conj Hbt _)))).
    cbn [ts_selected_city ts_cities ts_mode].
    intros c [= <-]. done.
Qed.

Lemma remove_city_ids c cities :
  c ∈ cities → NoDup (city_name <$> cities) →
  NoDup (city_name <$> remove_city c cities) ∧
  ∀ k, k ∈ city_name <$> remove_city c cities
       ↔ k ∈ city_name <$> cities ∧ k ≠ city_name c.
Proof.
  intros Hin Hnd. unfold remove_city.
  destruct (list_find _ cities) as [[i o]|] eqn:Ef.
  2:{ exfalso. apply list_find_None in Ef. rewrite Forall_forall in Ef.
      by apply (Ef c Hin). }
  apply list_find_Some in Ef as (Hi & Ho & _).
  pose proof (take_drop_middle cities i o Hi) as Hmid.
  rewrite delete_take_drop.
  set (t := take i cities) in *. set (d := drop (S i) cities) in *.
  rewrite <- Hmid in Hnd. rewrite <- Hmid.
  rewrite !fmap_app, fmap_cons in *.
  apply NoDup_app in Hnd as (Hnd1 & Hdisj & Hnd2).
  apply NoDup_cons in Hnd2 as [Ho2 Hnd2].
  split.
  - apply NoDup_app. split; [done|]. split; [|done].
    intros k Hk Hk'. apply (Hdisj k Hk). by apply list_elem_of_further.
  - intros k. rewrite !elem_of_app, elem_of_cons, <- Ho. split.
    + intros [Hk|Hk]; (split; [tauto|]); intros ->.
      * apply (Hdisj _ Hk). apply list_elem_of_here.
      * done.
    + intros [[Hk|[->|Hk]] Hne]; tauto.
Qed.

Lemma delete_city_at_position_ok sqrt x y st :
  map_ok st → ts_selected_city st = None →
  map_ok (delete_city_at_position sqrt x y st).
Proof.
  intros (Hnd & Hlt & Hsym & Hbt & _) Hsel. unfold delete_city_at_position.
  destruct (find_nearest_city sqrt x y st) as [c|] eqn:En.
  2:{ refine (conj Hnd (conj Hlt (conj Hsym (conj Hbt _)))).
      intros c' Hc'. by rewrite Hsel in Hc'. }
  apply find_nearest_city_elem in En.
  destruct (remove_city_ids c (ts_cities st) En Hnd) as [Hnd' Hids].
  unfold map_ok, city_ids.
  cbn [ts_cities ts_city_counter ts_edges ts_selected_city ts_mode].
  split; [done|]. split; [|split; [|split]].
  - apply Forall_forall. intros k [Hk _]%Hids.
    rewrite Forall_forall in Hlt. by apply Hlt.
  - by apply symmetric_filter.
  - intros k w [Hk [H1 H2]]%map_lookup_filter_Some. cbn [fst snd] in *.
    destruct (Hbt k w Hk) as (Hk1 & Hk2 & Hk3).
    split; [by apply Hids|]. split; [by apply Hids|done].
  - intros c'. by rewrite Hsel.
Qed.

Lemma clear_all_ok st : map_ok (clear_all st).
Proof.
  unfold map_ok, clear_all, city_ids. simpl.
  split; [constructor|]. split; [constructor|].
  split; [apply map_Forall_empty|]. split; [apply map_Forall_empty|done].
Qed.

Lemma map_step_ok sqrt st ev : map_ok st → map_ok (map_step sqrt st ev).
Proof.
  intros Hok. destruct ev as [auto w x y|m| |auto points]; cbn [map_step].
  - unfold map_canvas_click. destruct (ts_mode st) eqn:Em.
    + by apply add_city_ok.
    + apply handle_edge_click_ok; [done|]. by rewrite Em.
    + apply delete_city_at_position_ok; [done|].
      destruct (ts_selected_city st) as [s|] eqn:Es; [|done].
      destruct (proj2 (proj2 (proj2 (proj2 Hok))) s Es) as [_ Hm]. done.
  - destruct Hok as (Hnd & Hlt & Hsym & Hbt & _).
    refine (conj Hnd (conj Hlt (conj Hsym (conj Hbt _)))). done.
  - apply clear_all_ok.
  - unfold generate_random_cities.
    generalize (clear_all_ok st). generalize (clear_all st).
    induction points as [|p points IH]; intros st0 H0; [done|].
    cbn [foldl]. apply IH. by apply add_city_ok.
Qed.

Lemma map_run_ok sqrt events : ∀ st, map_ok st → map_ok (map_run sqrt events st).
Proof.
  unfold map_run. induction events as [|ev events IH]; intros st Hok; [done|].
  cbn [foldl]. apply IH. by apply map_step_ok.
Qed.

(** X13: whatever sequence of canvas clicks, mode changes, clears and
    random generations the map editor goes through from its initial
    state, the edge table it holds is symmetric, the cities are
    distinct, and every edge joins two different cities that are still
    on the map: deleting a city takes its edges with it. *)
Theorem map_editor_keeps_table_symmetric sqrt events :
  let st := map_run sqrt events new_map in
  symmetric_table (ts_edges st) ∧
  NoDup (city_ids st) ∧
  edges_between (city_ids st) (ts_edges st).
Proof.
  assert (Hinit : map_ok new_map).
  { unfold map_ok, new_map, city_ids. simpl.
    split; [constructor|]. split; [constructor|].
    split; [apply map_Forall_empty|]. split; [apply map_Forall_empty|done]. }
  destruct (map_run_ok sqrt events new_map Hinit)
    as (Hnd & _ & Hsym & Hbt & _).
  done.
Qed.

(** ** The solve button *)

Lemma mapM_id_Some {A} (l : list A) : mapM id (Some <$> l) = Some l.
Proof. by apply mapM_fmap_Some. Qed.

Lemma solve_tsp_guards {R} `{RandomSource R} h algo (r : R) st :
  2 ≤ length (ts_cities st) → ts_edges st ≠ ∅ →
  solve_tsp h algo r st
  = let cities := city_ids st in
    let edges := ts_edges st in
    let solved : result (list slot * weight) :=
      match algo with
      | AlgoNearestNeighbor =>
          do (path, cost) <- nearest_neighbor h cities edges None;
          Ok (Some <$> path, cost)
      | AlgoGenetic => genetic_algorithm cities edges 100 (1 # 100) 500 r
      | AlgoDynamic =>
          do (path, cost) <- dynamic_programming h cities edges;
          Ok (Some <$> path, cost)
      end in
    match solved with
    | Ok (path, cost) =>
        let st :=
          {| ts_cities := ts_cities st; ts_city_counter := ts_city_counter st;
             ts_edges := ts_edges st; ts_mode := ts_mode st;
             ts_selected_city := ts_selected_city st;
             ts_solution_path := path; ts_total_cost := cost |} in
        match mapM id path with
        | None => (st, SolveRaised AttributeError)
        | Some [] => (st, SolveRaised IndexError)
        | Some (first :: rest) =>
            (st, Results algo cost (first :: rest)
                         (zip_with (shown_weight edges) (first :: rest) rest)
                         (shown_weight edges (List.last rest first) first))
        end
    | Raise e => (st, SolveRaised e)
    | OutOfFuel => (st, SolveOutOfFuel)
    end.
Proof.
  intros H2 He. unfold solve_tsp.
  destruct (Nat.ltb_spec (length (ts_cities st)) 2) as [?|_]; [lia|].
  destruct (Nat.eqb_spec (size (ts_edges st)) 0) as [E|_]; [|done].
  by apply map_size_empty_iff in E.
Qed.



(** X15: with at least two cities and at least one edge, the solve
    button with the algorithm "nearest_neighbor" never raises: it shows
    a path that starts at the first city of the map, with the cost
    [calculate_path_cost] gives for it, and stores both. *)
Theorem solve_tsp_nearest_neighbor_shows_a_path {R} `{RandomSource R}
    h (r : R) st :
  2 ≤ length (ts_cities st) → ts_edges st ≠ ∅ →
  ∃ first rest legs return_leg,
    head (city_ids st) = Some first ∧
    (solve_tsp h AlgoNearestNeighbor r st).2
    = Results AlgoNearestNeighbor
              (calculate_path_cost (ts_edges st) (first :: rest))
              (first :: rest) legs return_leg ∧
    ts_solution_path (solve_tsp h AlgoNearestNeighbor r st).1
    = Some <$> first :: rest ∧
    ts_total_cost (solve_tsp h AlgoNearestNeighbor r st).1
    = calculate_path_cost (ts_edges st) (first :: rest).
Proof.
  intros H2 He. rewrite solve_tsp_guards by done. cbv zeta.
  assert (Hlen : length (city_ids st) = length (ts_cities st))
    by apply length_fmap.
  destruct (nearest_neighbor_spec h (city_ids st) (ts_edges st))
    as (tour & stop & Hnn & _ & _ & Hhead & _).
  { intros E. rewrite E in Hlen. simpl in Hlen. lia. }
  rewrite Hnn. cbn [rbind]. rewrite mapM_id_Some.
  destruct (city_ids st) as [|c0 others] eqn:Ec; [simpl in Hlen; lia|].
  destruct tour as [|first rest]; [done|]. injection Hhead as ->.
  by eexists c0, rest, _, _.
Qed.

Lemma solve_tsp_nearest_neighbor_shows_a_path_witness :
  ∃ first rest legs return_leg,
    head (city_ids stranded_map) = Some first ∧
    (solve_tsp id AlgoNearestNeighbor 0 stranded_map).2
    = Results AlgoNearestNeighbor
              (calculate_path_cost (ts_edges stranded_map) (first :: rest))
              (first :: rest) legs return_leg ∧
    ts_solution_path (solve_tsp id AlgoNearestNeighbor 0 stranded_map).1
    = Some <$> first :: rest ∧
    ts_total_cost (solve_tsp id AlgoNearestNeighbor 0 stranded_map).1
    = calculate_path_cost (ts_edges stranded_map) (first :: rest).
Proof.
  apply solve_tsp_nearest_neighbor_shows_a_path.
  - simpl. lia.
  - apply (bool_decide_unpack _). vm_compute. exact I.
Defined.
